(** * Financial note tagger: entity extraction, overlap resolution, tag overlay
      and subsection segmentation

    A shallow embedding of [src/config.py], [src/tagger.py],
    [src/ner_module.py] and the tree building of [src/xml_handler.py],
    followed by the properties of the engine.

    Conventions of the embedding.
    - A Python [str] is a list of characters, [pystr := list ascii].  The
      character type has the code points 0..255, so the texts of the
      embedding are the texts over these code points; the classification
      functions ([isspace], [isupper], [isdecimal], [isword], [lower_char])
      are Python's on that range.
    - A Python [int] is a [Z].
    - Tag identifiers are kept as [string]s; they are only compared and
      rendered.
    - A function that can raise returns a [result].
    - spaCy is outside the repository: a loaded pipeline is a parameter.
    - An element of the output tree is a record of its attribute, its text,
      its sub-elements and, for a sub-element of a paragraph, its tail. *)

From Stdlib Require Import List ZArith Bool Ascii String Lia Sorted Permutation.
Import ListNotations.
Open Scope string_scope.
Open Scope list_scope.
Open Scope Z_scope.

Set Implicit Arguments.

(* ================================================================== *)
(** ** Python strings *)
(* ================================================================== *)

Definition pystr := list ascii.

Definition str (s : string) : pystr := list_ascii_of_string s.

Definition len (t : pystr) : Z := Z.of_nat (List.length t).

(** Index normalisation of a slice bound: a negative bound counts from the
    end, and every bound is clamped to [0, len]. *)
Definition clamp_index (n i : Z) : Z :=
  if i <? 0 then Z.max (i + n) 0 else Z.min i n.

(** [t[a:b]] *)
Definition py_slice (t : pystr) (a b : Z) : pystr :=
  let lo := clamp_index (len t) a in
  let hi := clamp_index (len t) b in
  firstn (Z.to_nat (hi - lo)) (skipn (Z.to_nat lo) t).

(** [t[a:]] *)
Definition py_slice_from (t : pystr) (a : Z) : pystr :=
  skipn (Z.to_nat (clamp_index (len t) a)) t.

(** [''.join(parts)] *)
Definition join (parts : list pystr) : pystr := List.concat parts.

(* ================================================================== *)
(** ** [sorted(xs, key=...)]

    Python's [sorted] is stable, and a stable sort has one possible result:
    the elements in ascending key order, elements of equal key in their
    input order.  Insertion from the right computes it: an element is put
    in front of the first element whose key is not smaller than its own. *)
(* ================================================================== *)

Section PySorted.
Context {A K : Type}.
Variable ltb : K -> K -> bool.
Variable key : A -> K.

Fixpoint insert_stable (x : A) (l : list A) : list A :=
  match l with
  | [] => [x]
  | y :: l' =>
      if ltb (key y) (key x) then y :: insert_stable x l' else x :: l
  end.

Definition py_sorted (l : list A) : list A :=
  fold_right insert_stable [] l.
End PySorted.

(** Comparison of the key tuples [(a, b, c)] of integers: lexicographic. *)
Definition tuple3_ltb (x y : Z * Z * Z) : bool :=
  let '(x1, x2, x3) := x in
  let '(y1, y2, y3) := y in
  (x1 <? y1) || ((x1 =? y1) && ((x2 <? y2) || ((x2 =? y2) && (x3 <? y3)))).

(* ================================================================== *)
(** ** [class Entity] (tagger.py) *)
(* ================================================================== *)

Record Entity := mkEntity {
  start : Z;
  end_ : Z;
  tag_id : string;
  text : pystr;
  priority : Z
}.

(* ================================================================== *)
(** ** [ENTITY_PRIORITIES] and [TAG_IDS] (config.py) *)
(* ================================================================== *)

Module ENTITY_PRIORITIES.
Definition IncorporationDate : Z := 100.
Definition AddressOfRegisteredOfficeOfEntity : Z := 90.
Definition EntityPrimaryTradingSymbol : Z := 85.
Definition NameOfReportingEntityOrOtherMeansOfIdentification : Z := 80.
Definition Financial_Amount_Placeholder : Z := 70.
Definition Financial_Concept_Placeholder : Z := 60.
Definition Date_Placeholder : Z := 50.
End ENTITY_PRIORITIES.

Module TAG_IDS.
Definition note_root : string := "NatureOfOperationsAndGoingConcernNote".
Definition header : string := "NatureOfOperationsAndGoingConcernHeader".
Definition operations_description : string :=
  "DescriptionOfNatureOfEntitysOperationsAndPrincipalActivities".
Definition going_concern_description : string :=
  "DescriptionOfUncertaintiesOfEntitysAbilityToContinueAsGoingConcern".
Definition company_name : string :=
  "NameOfReportingEntityOrOtherMeansOfIdentification".
Definition incorporation_date : string := "IncorporationDate".
Definition address : string := "AddressOfRegisteredOfficeOfEntity".
Definition trading_symbol : string := "EntityPrimaryTradingSymbol".
Definition date : string := "Date_Placeholder".
Definition financial_concept : string := "Financial_Concept_Placeholder".
Definition financial_amount : string := "Financial_Amount_Placeholder".
End TAG_IDS.

(* ================================================================== *)
(** ** [FinancialNoteTagger._remove_overlaps] *)
(* ================================================================== *)

(** [key=lambda e: (e.start, -e.priority, -(e.end - e.start))] *)
Definition overlap_key (e : Entity) : Z * Z * Z :=
  (start e, - priority e, - (end_ e - start e)).

(** One iteration of the [for entity in sorted_entities] loop; the loop
    state is [(result, last_end)]. *)
Definition overlap_step (st : list Entity * Z) (entity : Entity)
  : list Entity * Z :=
  let '(result, last_end) := st in
  if start entity >=? last_end
  then (result ++ [entity], end_ entity)
  else (result, last_end).

Definition _remove_overlaps (entities : list Entity) : list Entity :=
  match entities with
  | [] => []
  | _ =>
      let sorted_entities := py_sorted tuple3_ltb overlap_key entities in
      fst (fold_left overlap_step sorted_entities ([], -1))
  end.

(* ================================================================== *)
(** ** [FinancialNoteTagger.tag_text]

    The loop appends alternately a piece of untagged text and a rendered
    tag to [result]; the pieces are kept apart here as [segment]s, and
    [render] produces the string the f-string produces. *)
(* ================================================================== *)

Inductive segment :=
| Plain (s : pystr)
| Tagged (id : string) (inner : pystr).

Definition dquote : ascii := ascii_of_nat 34.

(** The f-string of the loop body: the opening marker with the tag
    identifier in quotation marks, the entity text, the closing marker. *)
Definition render (sg : segment) : pystr :=
  match sg with
  | Plain s => s
  | Tagged id inner =>
      str "<Tag id=" ++ [dquote] ++ str id ++ [dquote] ++ str ">"
        ++ inner ++ str "</Tag>"
  end.

(** One iteration of the [for entity in entities] loop; the loop state is
    [(result, last_pos)]. *)
Definition tag_step (txt : pystr) (st : list segment * Z) (entity : Entity)
  : list segment * Z :=
  let '(result, last_pos) := st in
  (result ++ [Plain (py_slice txt last_pos (start entity));
              Tagged (tag_id entity) (text entity)],
   end_ entity).

(** The contents of [result] when the function reaches [''.join(result)]. *)
Definition tag_segments (txt : pystr) (entities : list Entity)
  : list segment :=
  let entities := py_sorted Z.ltb start entities in
  let '(result, last_pos) := fold_left (tag_step txt) entities ([], 0) in
  result ++ [Plain (py_slice_from txt last_pos)].

Definition tag_text (txt : pystr) (entities : list Entity) : pystr :=
  match entities with
  | [] => txt
  | _ => join (map render (tag_segments txt entities))
  end.

(** The text stream of an overlay: every segment without its markers. *)
Definition segment_text (sg : segment) : pystr :=
  match sg with
  | Plain s => s
  | Tagged _ inner => inner
  end.

Definition text_stream (segs : list segment) : pystr :=
  join (map segment_text segs).

(* ================================================================== *)
(** ** Character classes of Python's [str] and [re], code points 0..255 *)
(* ================================================================== *)

Definition code (c : ascii) : N := N_of_ascii c.

Definition in_range (lo hi : N) (c : ascii) : bool :=
  ((lo <=? code c) && (code c <=? hi))%N.

(** [c.isspace()], which is also [\s] of a [str] pattern. *)
Definition isspace (c : ascii) : bool :=
  in_range 9 13 c || in_range 28 32 c || (code c =? 133)%N || (code c =? 160)%N.

(** [\d] of a [str] pattern: the decimal digits. *)
Definition isdecimal (c : ascii) : bool := in_range 48 57 c.

(** [c.isupper()] *)
Definition isupper (c : ascii) : bool :=
  in_range 65 90 c || in_range 192 214 c || in_range 216 222 c.

(** [c.lower()] *)
Definition lower_char (c : ascii) : ascii :=
  if isupper c then ascii_of_N (code c + 32) else c.

(** [\w] of a [str] pattern: alphanumeric characters and the underscore. *)
Definition isword (c : ascii) : bool :=
  in_range 48 57 c || in_range 65 90 c || in_range 97 122 c
  || (code c =? 95)%N || (code c =? 170)%N || in_range 178 179 c
  || (code c =? 181)%N || in_range 185 186 c || in_range 188 190 c
  || in_range 192 214 c || in_range 216 246 c || in_range 248 255 c.

(** [t.lower()] *)
Definition lower (t : pystr) : pystr := map lower_char t.

(** [t.lstrip()], [t.rstrip()] and [t.strip()] *)
Fixpoint lstrip (t : pystr) : pystr :=
  match t with
  | [] => []
  | c :: t' => if isspace c then lstrip t' else t
  end.

Definition rstrip (t : pystr) : pystr := rev (lstrip (rev t)).

Definition strip (t : pystr) : pystr := rstrip (lstrip t).

(** [t.startswith(p)] *)
Fixpoint startswith (p t : pystr) : bool :=
  match p, t with
  | [], _ => true
  | _ :: _, [] => false
  | a :: p', b :: t' => Ascii.eqb a b && startswith p' t'
  end.

(** [needle in t] for strings *)
Fixpoint contains (needle t : pystr) : bool :=
  startswith needle t
  || match t with
     | [] => false
     | _ :: t' => contains needle t'
     end.

(** [t.split(sep, 1)] for a one-character separator *)
Fixpoint split1 (sep : ascii) (t : pystr) : list pystr :=
  match t with
  | [] => [[]]
  | c :: t' =>
      if Ascii.eqb c sep then [[]; t']
      else match split1 sep t' with
           | h :: rest => (c :: h) :: rest
           | [] => [[c]]
           end
  end.

(** [sum(1 for c in t if p(c))] *)
Definition count_if (p : ascii -> bool) (t : pystr) : Z :=
  len (filter p t).

(* ================================================================== *)
(** ** The regular expressions of [re], as far as the patterns use them

    [re] matches by backtracking: alternatives are tried left to right, a
    greedy repetition tries one more iteration before it tries to stop, a
    lazy one the other way round.  The matcher below is that search written
    with a continuation for "the rest of the pattern".  An iteration of a
    repetition has to consume a character, which every repeated
    sub-pattern of this program does whenever it matches. *)
(* ================================================================== *)

Inductive regex :=
| Eps
| Chr (p : ascii -> bool)
| Seq (r1 r2 : regex)
| Alt (r1 r2 : regex)
| Star (greedy : bool) (r : regex)
| Group (n : nat) (r : regex)
| Bol
| WordB.

(** The spans of the capturing groups, the most recent first. *)
Definition groups := list (nat * (nat * nat)).

Fixpoint group_span (g : groups) (n : nat) : option (nat * nat) :=
  match g with
  | [] => None
  | (n', sp) :: g' => if (n' =? n)%nat then Some sp else group_span g' n
  end.

Section Matcher.
Variable t : pystr.

Definition word_at (i : nat) : bool :=
  match nth_error t i with
  | Some c => isword c
  | None => false
  end.

(** [\b]: exactly one side of position [i] is a word character. *)
Definition at_boundary (i : nat) : bool :=
  xorb (match i with O => false | S j => word_at j end) (word_at i).

Section Backtracking.
Context {R : Type}.

Definition cont := nat -> groups -> option R.

Fixpoint star_loop (body : nat -> groups -> cont -> option R)
    (greedy : bool) (fuel : nat) (i : nat) (g : groups) (k : cont)
  : option R :=
  match fuel with
  | O => k i g
  | S fuel' =>
      let again j g' :=
        if (i <? j)%nat then star_loop body greedy fuel' j g' k else None in
      if greedy then
        match body i g again with
        | Some x => Some x
        | None => k i g
        end
      else
        match k i g with
        | Some x => Some x
        | None => body i g again
        end
  end.

Fixpoint m (r : regex) (i : nat) (g : groups) (k : cont) : option R :=
  match r with
  | Eps => k i g
  | Chr p =>
      match nth_error t i with
      | Some c => if p c then k (S i) g else None
      | None => None
      end
  | Seq r1 r2 => m r1 i g (fun j g' => m r2 j g' k)
  | Alt r1 r2 =>
      match m r1 i g k with
      | Some x => Some x
      | None => m r2 i g k
      end
  | Star greedy r' => star_loop (m r') greedy (List.length t - i) i g k
  | Group n r' => m r' i g (fun j g' => k j ((n, (i, j)) :: g'))
  | Bol => if (i =? 0)%nat then k i g else None
  | WordB => if at_boundary i then k i g else None
  end.
End Backtracking.

(** A match object: [(match.start(), match.end(), groups)]. *)
Definition re_match_obj : Type := nat * nat * groups.

Definition match_at (r : regex) (i : nat) : option re_match_obj :=
  m r i [] (fun j g => Some (i, j, g)).

(** [re.match(r, t)]: a match at position 0 only. *)
Definition re_match (r : regex) : option re_match_obj := match_at r 0.

(** The leftmost match that starts at [i] or later; [fuel] is the number
    of later positions still to try. *)
Fixpoint search_from (r : regex) (fuel : nat) (i : nat)
  : option re_match_obj :=
  match match_at r i with
  | Some x => Some x
  | None =>
      match fuel with
      | O => None
      | S fuel' => search_from r fuel' (S i)
      end
  end.

(** [re.search(r, t)] *)
Definition re_search (r : regex) : option re_match_obj :=
  search_from r (List.length t) 0.

(** [re.finditer(r, t)]: the successive leftmost matches, each search
    starting where the previous match ended (one further after a match of
    the empty string, which no pattern of the extractors has). *)
Fixpoint finditer_from (r : regex) (fuel : nat) (p : nat)
  : list re_match_obj :=
  match fuel with
  | O => []
  | S fuel' =>
      if (List.length t <? p)%nat then []
      else
        match search_from r (List.length t - p) p with
        | None => []
        | Some (s, e, g) =>
            (s, e, g) :: finditer_from r fuel' (if (s <? e)%nat then e else S e)
        end
  end.

Definition re_finditer (r : regex) : list re_match_obj :=
  finditer_from r (S (List.length t)) 0.

(** [t[s:e]] for offsets of a match *)
Definition substr (s e : nat) : pystr := firstn (e - s) (skipn s t).
End Matcher.

(** *** Pattern syntax *)

(** A literal character; under [re.IGNORECASE] ([ci = true]) it matches
    every character with the same lower-case form.  That is Python's rule
    on the code points 0..255, the texts of this embedding.  Beyond them
    Python also takes U+017F for the letter s, U+0130 and U+0131 for the
    letter i and U+212A for the letter k: what is proved of a pattern
    compiled with [re.IGNORECASE] is proved of texts over the code points
    0..255 only. *)
Definition chr_eq (ci : bool) (c : ascii) : regex :=
  Chr (fun x =>
         if ci then Ascii.eqb (lower_char x) (lower_char c)
         else Ascii.eqb x c).

Fixpoint lit (ci : bool) (s : pystr) : regex :=
  match s with
  | [] => Eps
  | c :: s' => Seq (chr_eq ci c) (lit ci s')
  end.

Definition Lit (ci : bool) (s : string) : regex := lit ci (str s).

Definition seqs (rs : list regex) : regex := fold_right Seq Eps rs.

Fixpoint alts (r : regex) (rs : list regex) : regex :=
  match rs with
  | [] => r
  | r' :: rs' => Alt r (alts r' rs')
  end.

(** [r+], [r?], [r{n}] and [r{lo,hi}], all greedy *)
Definition Plus (r : regex) : regex := Seq r (Star true r).

Definition Opt (r : regex) : regex := Alt r Eps.

Fixpoint Times (n : nat) (r : regex) : regex :=
  match n with
  | O => Eps
  | S n' => Seq r (Times n' r)
  end.

Fixpoint UpTo (n : nat) (r : regex) : regex :=
  match n with
  | O => Eps
  | S n' => Opt (Seq r (UpTo n' r))
  end.

Definition Rep (lo hi : nat) (r : regex) : regex :=
  Seq (Times lo r) (UpTo (hi - lo) r).

(** [\d], [\s], [.] and bracketed classes *)
Definition digit : regex := Chr isdecimal.
Definition space : regex := Chr isspace.
Definition newline : ascii := ascii_of_nat 10.
Definition anychar : regex := Chr (fun c => negb (Ascii.eqb c newline)).

Definition AZ : ascii -> bool := in_range 65 90.
Definition az : ascii -> bool := in_range 97 122.
Definition one (c : string) : ascii -> bool :=
  fun x => existsb (Ascii.eqb x) (str c).

Definition class (ps : list (ascii -> bool)) : regex :=
  Chr (fun c => existsb (fun p => p c) ps).

(* ================================================================== *)
(** ** [class Patterns] (config.py) *)
(* ================================================================== *)

Module Patterns.

(** [January|February|...|December] *)
Definition months (ci : bool) : regex :=
  alts (Lit ci "January")
    [Lit ci "February"; Lit ci "March"; Lit ci "April"; Lit ci "May";
     Lit ci "June"; Lit ci "July"; Lit ci "August"; Lit ci "September";
     Lit ci "October"; Lit ci "November"; Lit ci "December"].

(** [(January|...)\s+\d{1,2},\s+\d{4}] *)
Definition DATE_FULL : regex :=
  seqs [Group 1 (months false); Plus space; Rep 1 2 digit; Lit false ",";
        Plus space; Rep 4 4 digit].

(** [(January|...)\s+\d{4}] *)
Definition DATE_MONTH_YEAR : regex :=
  seqs [Group 1 (months false); Plus space; Rep 4 4 digit].

(** [\b(19|20)\d{2}\b] *)
Definition DATE_YEAR : regex :=
  seqs [WordB; Group 1 (Alt (Lit false "19") (Lit false "20"));
        Rep 2 2 digit; WordB].

Definition DATE_PATTERNS : list regex :=
  [DATE_FULL; DATE_MONTH_YEAR; DATE_YEAR].

(** [\$\d{1,3}(?:,\d{3})*(?:\.\d{2})?] *)
Definition AMOUNT_PATTERN : regex :=
  seqs [Lit false "$"; Rep 1 3 digit;
        Star true (seqs [Lit false ","; Rep 3 3 digit]);
        Opt (seqs [Lit false "."; Rep 2 2 digit])].

(** [\d+(?:st|nd|rd|th)?\s+Floor,\s+\d+\s+[A-Za-z\s]+Street,\s+[A-Za-z\s,]+,\s+[A-Z]\d[A-Z]\s+\d[A-Z]\d] *)
Definition ADDRESS_PATTERN : regex :=
  seqs [Plus digit;
        Opt (alts (Lit false "st")
               [Lit false "nd"; Lit false "rd"; Lit false "th"]);
        Plus space; Lit false "Floor,"; Plus space; Plus digit; Plus space;
        Plus (class [AZ; az; isspace]); Lit false "Street,"; Plus space;
        Plus (class [AZ; az; isspace; one ","]); Lit false ","; Plus space;
        Chr AZ; digit; Chr AZ; Plus space; digit; Chr AZ; digit].

(** [under the symbol\s+[Q1]([A-Z]{2,5})[Q2]] where the class [Q1] holds
    the plain quotation mark and U+201C, and [Q2] the plain quotation
    mark and U+201D.  The typographic marks lie outside the code points
    of [ascii], which leaves the plain quotation mark in both classes. *)
Definition TRADING_SYMBOL_PATTERN : regex :=
  seqs [Lit false "under the symbol"; Plus space;
        class [Ascii.eqb dquote];
        Group 1 (Rep 2 5 (Chr AZ));
        class [Ascii.eqb dquote]].

(** [was incorporated.*?on\s+((?:January|...)\s+\d{1,2},\s+\d{4})]; the
    one caller compiles it with [re.IGNORECASE]. *)
Definition INCORPORATION_CONTEXT : regex :=
  seqs [Lit true "was incorporated"; Star false anychar; Lit true "on";
        Plus space;
        Group 1 (seqs [months true; Plus space; Rep 1 2 digit;
                       Lit true ","; Plus space; Rep 4 4 digit])].

End Patterns.

(** [^([A-Z][a-zA-Z]+\s+Ltd\.)], the pattern written out in
    [_extract_company_names_regex] *)
Definition COMPANY_START_PATTERN : regex :=
  seqs [Bol;
        Group 1 (seqs [Chr AZ; Plus (class [az; AZ]); Plus space;
                       Lit false "Ltd."])].

(** [r'\b' + re.escape(concept) + r'\b'], compiled with [re.IGNORECASE];
    the escaped phrase matches the phrase character by character. *)
Definition concept_pattern (concept : string) : regex :=
  seqs [WordB; Lit true concept; WordB].

(** [^\d+\.], the pattern of [SubsectionRules.is_header] *)
Definition HEADER_PREFIX_PATTERN : regex :=
  seqs [Bol; Plus digit; Lit false "."].

(** [FINANCIAL_CONCEPTS], in the insertion order of the dict *)
Definition FINANCIAL_CONCEPTS : list (string * string) :=
  [("working capital deficiency", "Financial_Concept_Placeholder");
   ("accumulated deficit", "Financial_Concept_Placeholder");
   ("loss", "Financial_Concept_Placeholder");
   ("operating activities", "Financial_Concept_Placeholder")].

(* ================================================================== *)
(** ** Exceptions *)
(* ================================================================== *)

Inductive exn :=
| AttributeError (type_name attribute : string).

Inductive result (A : Type) :=
| Ok (a : A)
| Raise (e : exn).

Arguments Ok {A} a.
Arguments Raise {A} e.

Definition bind {A B : Type} (x : result A) (f : A -> result B) : result B :=
  match x with
  | Ok a => f a
  | Raise e => Raise e
  end.

Notation "x <- c1 ;; c2" := (bind c1 (fun x => c2))
  (at level 61, c1 at next level, right associativity).
Notation "' pat <- c1 ;; c2" := (bind c1 (fun x => match x with pat => c2 end))
  (at level 61, pat pattern, c1 at next level, right associativity).

(* ================================================================== *)
(** ** ner_module.py

    spaCy is an external library.  A loaded pipeline is taken as the
    function from a text to the entities of its document ([doc.ents]),
    each with the attributes the module reads. *)
(* ================================================================== *)

Record SpacyEnt := mkSpacyEnt {
  ent_text : pystr;
  label_ : pystr;
  start_char : Z;
  end_char : Z
}.

Definition Language := pystr -> list SpacyEnt.

(** [class NEREntity]; [confidence] is the float the module stores in every
    entity, [1.0], kept as an integer. *)
Record NEREntity := mkNEREntity {
  ne_text : pystr;
  ne_label : pystr;
  ne_start : Z;
  ne_end : Z;
  ne_confidence : Z
}.

(** The value of an attribute. *)
Inductive pyval :=
| PyStr (s : pystr)
| PyInt (z : Z).

Definition pyval_eqb (a b : pyval) : bool :=
  match a, b with
  | PyStr x, PyStr y => if list_eq_dec ascii_dec x y then true else false
  | PyInt x, PyInt y => (x =? y)
  | _, _ => false
  end.

(** Attribute access [e.name] on an instance of the dataclass: the
    declared fields, and [AttributeError] for every other name. *)
Definition NEREntity_getattr (e : NEREntity) (name : string) : result pyval :=
  if String.eqb name "text" then Ok (PyStr (ne_text e))
  else if String.eqb name "label" then Ok (PyStr (ne_label e))
  else if String.eqb name "start" then Ok (PyInt (ne_start e))
  else if String.eqb name "end" then Ok (PyInt (ne_end e))
  else if String.eqb name "confidence" then Ok (PyInt (ne_confidence e))
  else Raise (AttributeError "NEREntity" name).

(** [class FinancialNER]: the two instance attributes. *)
Record FinancialNER := mkFinancialNER {
  ner_use_ner : bool;
  nlp : option Language
}.

Module NER.

Definition RELEVANT_LABELS : list pystr :=
  [str "ORG"; str "GPE"; str "LOC"; str "PERSON"; str "STOCK_SYMBOL";
   str "FINANCIAL_CONCEPT"].

Definition pystr_eqb (a b : pystr) : bool :=
  if list_eq_dec ascii_dec a b then true else false.

(** [FinancialNER.extract_entities] *)
Definition extract_entities (self : FinancialNER) (txt : pystr)
  : list NEREntity :=
  match ner_use_ner self, nlp self with
  | true, Some pipeline =>
      let ents := pipeline txt in
      map (fun ent =>
             mkNEREntity (ent_text ent) (label_ ent) (start_char ent)
               (end_char ent) 1)
        (filter (fun ent => existsb (pystr_eqb (label_ ent)) RELEVANT_LABELS)
           ents)
  | _, _ => []
  end.

(** The list comprehension [[e for e in entities if e.<attr> == value]],
    elements visited left to right. *)
Fixpoint select_by_attr (attr : string) (value : pyval)
    (entities : list NEREntity) : result (list NEREntity) :=
  match entities with
  | [] => Ok []
  | e :: rest =>
      v <- NEREntity_getattr e attr ;;
      kept <- select_by_attr attr value rest ;;
      Ok (if pyval_eqb v value then e :: kept else kept)
  end.

(** [FinancialNER.extract_organizations]; the comprehension reads the
    attribute [label_] of each [NEREntity]. *)
Definition extract_organizations (self : FinancialNER) (txt : pystr)
  : result (list NEREntity) :=
  let entities := extract_entities self txt in
  select_by_attr "label_" (PyStr (str "ORG")) entities.

(** [FinancialNER.is_available] *)
Definition is_available (self : FinancialNER) : bool :=
  ner_use_ner self && match nlp self with Some _ => true | None => false end.

End NER.

(* ================================================================== *)
(** ** The span extractors of [FinancialNoteTagger] (tagger.py) *)
(* ================================================================== *)

(** [self.stats] *)
Record Stats := mkStats {
  regex_extractions : Z;
  ner_extractions : Z;
  dictionary_extractions : Z
}.

(** The instance attributes of a [FinancialNoteTagger]; [ner] is [None]
    when the tagger was built with [use_ner=False]. *)
Record FinancialNoteTagger := mkTagger {
  use_ner : bool;
  ner : option FinancialNER;
  stats : Stats
}.

Definition set_stats (self : FinancialNoteTagger) (s : Stats)
  : FinancialNoteTagger :=
  mkTagger (use_ner self) (ner self) s.

(** [Entity(start=s, end=e, tag_id=tag, text=txt[s:e], priority=prio)],
    for the offsets of a match or of one of its groups. *)
Definition entity_of (txt : pystr) (s e : nat) (tag : string) (prio : Z)
  : Entity :=
  mkEntity (Z.of_nat s) (Z.of_nat e) tag (substr txt s e) prio.

(** The entity of group 1 of a match.  The group takes part in every match
    of the three patterns it is read from ([patterns_bind_group_1] below),
    so its span is always there. *)
Definition entity_of_group1 (txt : pystr) (mo : re_match_obj)
    (tag : string) (prio : Z) : list Entity :=
  let '(_, _, g) := mo in
  match group_span g 1 with
  | Some (s, e) => [entity_of txt s e tag prio]
  | None => []
  end.

(** The entity of a whole match. *)
Definition entity_of_match (txt : pystr) (mo : re_match_obj)
    (tag : string) (prio : Z) : Entity :=
  let '(s, e, _) := mo in entity_of txt s e tag prio.

Definition _extract_incorporation_dates (txt : pystr) : list Entity :=
  match re_search txt Patterns.INCORPORATION_CONTEXT with
  | Some mo =>
      entity_of_group1 txt mo TAG_IDS.incorporation_date
        ENTITY_PRIORITIES.IncorporationDate
  | None => []
  end.

Definition _extract_addresses (txt : pystr) : list Entity :=
  map (fun mo =>
         entity_of_match txt mo TAG_IDS.address
           ENTITY_PRIORITIES.AddressOfRegisteredOfficeOfEntity)
    (re_finditer txt Patterns.ADDRESS_PATTERN).

Definition _extract_trading_symbols (txt : pystr) : list Entity :=
  flat_map (fun mo =>
              entity_of_group1 txt mo TAG_IDS.trading_symbol
                ENTITY_PRIORITIES.EntityPrimaryTradingSymbol)
    (re_finditer txt Patterns.TRADING_SYMBOL_PATTERN).

Definition COMPANY_SUFFIXES : list pystr :=
  [str "Ltd."; str "Inc."; str "Corp."; str "Limited"; str "Corporation"].

Definition _extract_company_names_ner (self : FinancialNoteTagger)
    (txt : pystr) : result (list Entity) :=
  match ner self with
  | None => Ok []
  | Some provider =>
      if negb (NER.is_available provider) then Ok []
      else
        orgs <- NER.extract_organizations provider txt ;;
        Ok (map (fun org =>
                   mkEntity (ne_start org) (ne_end org) TAG_IDS.company_name
                     (ne_text org)
                     ENTITY_PRIORITIES.NameOfReportingEntityOrOtherMeansOfIdentification)
              (filter (fun org =>
                         existsb (fun suffix => contains suffix (ne_text org))
                           COMPANY_SUFFIXES)
                 orgs))
  end.

Definition _extract_company_names_regex (txt : pystr) : list Entity :=
  match re_match txt COMPANY_START_PATTERN with
  | Some mo =>
      entity_of_group1 txt mo TAG_IDS.company_name
        ENTITY_PRIORITIES.NameOfReportingEntityOrOtherMeansOfIdentification
  | None => []
  end.

(** [if xs: counter += len(xs)] *)
Definition bump (counter : Z) (xs : list Entity) : Z :=
  match xs with
  | [] => counter
  | _ => counter + Z.of_nat (List.length xs)
  end.

Definition _extract_company_names_hybrid (self : FinancialNoteTagger)
    (txt : pystr) : result (list Entity * FinancialNoteTagger) :=
  '(entities, self) <-
    (if use_ner self
        && match ner self with
           | Some provider => NER.is_available provider
           | None => false
           end
     then
       ner_entities <- _extract_company_names_ner self txt ;;
       let st := stats self in
       Ok (ner_entities,
           set_stats self
             (mkStats (regex_extractions st)
                (bump (ner_extractions st) ner_entities)
                (dictionary_extractions st)))
     else Ok ([], self)) ;;
  let regex_entities := _extract_company_names_regex txt in
  let st := stats self in
  Ok (entities ++ regex_entities,
      set_stats self
        (mkStats (bump (regex_extractions st) regex_entities)
           (ner_extractions st) (dictionary_extractions st))).

Definition _extract_amounts (txt : pystr) : list Entity :=
  map (fun mo =>
         entity_of_match txt mo TAG_IDS.financial_amount
           ENTITY_PRIORITIES.Financial_Amount_Placeholder)
    (re_finditer txt Patterns.AMOUNT_PATTERN).

Definition _extract_financial_concepts (self : FinancialNoteTagger)
    (txt : pystr) : list Entity * FinancialNoteTagger :=
  let entities :=
    flat_map (fun '(concept, _) =>
                map (fun mo =>
                       entity_of_match txt mo TAG_IDS.financial_concept
                         ENTITY_PRIORITIES.Financial_Concept_Placeholder)
                  (re_finditer txt (concept_pattern concept)))
      FINANCIAL_CONCEPTS in
  let st := stats self in
  (entities,
   set_stats self
     (mkStats (regex_extractions st) (ner_extractions st)
        (bump (dictionary_extractions st) entities))).

Definition _extract_dates (txt : pystr) : list Entity :=
  flat_map (fun pattern =>
              map (fun mo =>
                     entity_of_match txt mo TAG_IDS.date
                       ENTITY_PRIORITIES.Date_Placeholder)
                (re_finditer txt pattern))
    Patterns.DATE_PATTERNS.

(** [FinancialNoteTagger.extract_entities]: the candidate pool in the
    order of the [extend] calls, resolved and sorted by start. *)
Definition extract_entities (self : FinancialNoteTagger) (txt : pystr)
  : result (list Entity * FinancialNoteTagger) :=
  let entities :=
    _extract_incorporation_dates txt ++ _extract_addresses txt
      ++ _extract_trading_symbols txt in
  '(companies, self) <- _extract_company_names_hybrid self txt ;;
  let entities := entities ++ companies in
  let entities := entities ++ _extract_amounts txt in
  let '(concepts, self) := _extract_financial_concepts self txt in
  let entities := entities ++ concepts in
  let entities := entities ++ _extract_dates txt in
  let entities := _remove_overlaps entities in
  Ok (py_sorted Z.ltb start entities, self).

(** [FinancialNoteTagger.tag_paragraph] *)
Definition tag_paragraph (self : FinancialNoteTagger) (txt : pystr)
  : result (pystr * FinancialNoteTagger) :=
  '(entities, self) <- extract_entities self txt ;;
  Ok (tag_text txt entities, self).

(* ================================================================== *)
(** ** [SubsectionRules.is_header] (config.py) *)
(* ================================================================== *)

(** [uppercase / max(len(content), 1) > 0.5].  Both operands are integers
    below 2^53 for any string that fits in memory, so the float quotient is
    the correctly rounded rational and the nearest float to a ratio above
    one half is itself above one half: the comparison is the one of the
    rationals, [2 * uppercase > max(len(content), 1)]. *)
Definition ratio_above_half (uppercase total : Z) : bool :=
  Z.max total 1 <? 2 * uppercase.

Definition is_header (paragraph_text : pystr) : bool :=
  let txt := strip paragraph_text in
  match re_match txt HEADER_PREFIX_PATTERN with
  | None => false
  | Some _ =>
      let content :=
        if contains (str ".") txt
        then strip (nth 1 (split1 "." txt) [])
        else txt in
      ratio_above_half (count_if isupper content) (len content)
  end.

(* ================================================================== *)
(** ** [FinancialNoteTagger.detect_subsections] *)
(* ================================================================== *)

(** A paragraph dict: the keys [text] and [block_index]. *)
Record Paragraph := mkParagraph {
  p_text : pystr;
  block_index : pystr
}.

(** A subsection dict; [skip_tagging] is [None] when the key is absent. *)
Record Subsection := mkSubsection {
  s_tag_id : string;
  paragraphs : list Paragraph;
  skip_tagging : option bool
}.

Definition should_start_going_concern (txt : pystr) : bool :=
  contains (str "going concern") (lower txt)
  || contains (str "material uncertainty") (lower txt)
  || contains (str "These consolidated financial statements") txt.

(** [subsections.append(current_section)] under [if current_section:] *)
Definition close_section (subsections : list Subsection)
    (current_section : option Subsection) : list Subsection :=
  match current_section with
  | Some cs => subsections ++ [cs]
  | None => subsections
  end.

(** One iteration of the loop over the paragraphs; the loop state is
    [(subsections, current_section)]. *)
Definition subsection_step (st : list Subsection * option Subsection)
    (para : Paragraph) : list Subsection * option Subsection :=
  let '(subsections, current_section) := st in
  let txt := p_text para in
  if is_header txt then
    (close_section subsections current_section
       ++ [mkSubsection TAG_IDS.header [para] (Some true)],
     None)
  else if should_start_going_concern txt
          && match current_section with
             | None => true
             | Some cs =>
                 negb (String.eqb (s_tag_id cs) TAG_IDS.going_concern_description)
             end
  then
    (close_section subsections current_section,
     Some (mkSubsection TAG_IDS.going_concern_description [para] None))
  else
    match current_section with
    | None =>
        (subsections,
         Some (mkSubsection TAG_IDS.operations_description [para] None))
    | Some cs =>
        (subsections,
         Some (mkSubsection (s_tag_id cs) (paragraphs cs ++ [para])
                 (skip_tagging cs)))
    end.

Definition detect_subsections (paras : list Paragraph) : list Subsection :=
  let '(subsections, current_section) :=
    fold_left subsection_step paras ([], None) in
  close_section subsections current_section.

(* ================================================================== *)
(** ** The vocabulary of the specification *)
(* ================================================================== *)

(** A span of the data model: [0 <= start < end]. *)
Definition span_ok (e : Entity) : Prop := 0 <= start e < end_ e.

(** Two spans do not overlap; touching is allowed. *)
Definition no_overlap (a b : Entity) : Prop :=
  end_ a <= start b \/ end_ b <= start a.

Definition overlapping (a b : Entity) : Prop :=
  start a < end_ b /\ start b < end_ a.

Definition start_le (a b : Entity) : Prop := start a <= start b.

(** The text field of a span is the substring of the paragraph. *)
Definition text_ok (txt : pystr) (e : Entity) : Prop :=
  text e = py_slice txt (start e) (end_ e).

Definition whitespace_only (txt : pystr) : Prop :=
  Forall (fun c => isspace c = true) txt.

Module Spec.

(** The resolver as the specification words it.  Candidate [a] is sorted
    before candidate [b]: start ascending, then priority descending, then
    span length descending. *)
Definition before (a b : Entity) : bool :=
  (start a <? start b)
  || ((start a =? start b)
      && ((priority a >? priority b)
          || ((priority a =? priority b)
              && (end_ a - start a >? end_ b - start b)))).

Definition sort_candidates (pool : list Entity) : list Entity :=
  py_sorted before (fun e => e) pool.

(** One scan: a candidate is accepted iff its start is not before
    [last_end], which then becomes the end of the accepted candidate. *)
Fixpoint scan (last_end : Z) (candidates : list Entity) : list Entity :=
  match candidates with
  | [] => []
  | c :: rest =>
      if start c >=? last_end then c :: scan (end_ c) rest
      else scan last_end rest
  end.

Definition resolve (pool : list Entity) : list Entity :=
  scan (-1) (sort_candidates pool).

(** The priority table, highest first: incorporation date, address,
    trading symbol, company name, amount, concept, general date. *)
Definition ranking : list Z :=
  [ENTITY_PRIORITIES.IncorporationDate;
   ENTITY_PRIORITIES.AddressOfRegisteredOfficeOfEntity;
   ENTITY_PRIORITIES.EntityPrimaryTradingSymbol;
   ENTITY_PRIORITIES.NameOfReportingEntityOrOtherMeansOfIdentification;
   ENTITY_PRIORITIES.Financial_Amount_Placeholder;
   ENTITY_PRIORITIES.Financial_Concept_Placeholder;
   ENTITY_PRIORITIES.Date_Placeholder].

(** [t] starts with one or more digits and a full stop; [rest] is what
    follows that prefix. *)
Definition number_prefix (t rest : pystr) : Prop :=
  exists ds, ds <> [] /\ forallb isdecimal ds = true
             /\ t = ds ++ "."%char :: rest.

(** The ratio of upper-case characters of [content] is strictly greater
    than one half. *)
Definition mostly_upper (content : pystr) : Prop :=
  len content < 2 * count_if isupper content.

(** Header detection with the ratio taken over everything that follows
    the prefix. *)
Definition header_untrimmed (paragraph_text : pystr) : Prop :=
  exists rest, number_prefix (strip paragraph_text) rest /\ mostly_upper rest.

(** Header detection with the ratio taken over what follows the prefix
    once the white space around it is removed. *)
Definition header_trimmed (paragraph_text : pystr) : Prop :=
  exists rest,
    number_prefix (strip paragraph_text) rest /\ mostly_upper (strip rest).

(** The subsection a header paragraph becomes. *)
Definition header_subsection (p : Paragraph) : Subsection :=
  mkSubsection TAG_IDS.header [p] (Some true).

(** A currency literal: the dollar sign, one to three digits, any number
    of groups of a comma and three digits, and optionally a full stop and
    two digits. *)
Definition digits (n : nat) (w : pystr) : Prop :=
  List.length w = n /\ forallb isdecimal w = true.

Definition comma_group (w : pystr) : Prop :=
  exists ds, digits 3 ds /\ w = ","%char :: ds.

Definition fraction (w : pystr) : Prop :=
  w = [] \/ exists ds, digits 2 ds /\ w = "."%char :: ds.

Definition amount_literal (w : pystr) : Prop :=
  exists lead grouped frac,
    (1 <= List.length lead <= 3)%nat /\ forallb isdecimal lead = true
    /\ Forall comma_group grouped
    /\ fraction frac
    /\ w = "$"%char :: lead ++ List.concat grouped ++ frac.

End Spec.


(* ================================================================== *)
(** ** Auxiliary definitions of the proofs *)
(* ================================================================== *)

(** In the order of [sorted]: [x] does not have to move behind [y]. *)
Definition in_order {A K : Type} (ltb : K -> K -> bool) (key : A -> K)
    (x y : A) : Prop :=
  ltb (key y) (key x) = false.

(** The value of [last_end] after the scan of [candidates]. *)
Fixpoint scan_end (last_end : Z) (candidates : list Entity) : Z :=
  match candidates with
  | [] => last_end
  | c :: rest =>
      scan_end (if start c >=? last_end then end_ c else last_end) rest
  end.

(** What the matcher searches for, as a relation: [matches t r i j] when
    [r] matches the characters of [t] from offset [i] up to offset [j]. *)
Inductive matches (t : pystr) : regex -> nat -> nat -> Prop :=
| M_Eps i : matches t Eps i i
| M_Chr p i c :
    nth_error t i = Some c -> p c = true -> matches t (Chr p) i (S i)
| M_Seq r1 r2 i j k :
    matches t r1 i j -> matches t r2 j k -> matches t (Seq r1 r2) i k
| M_AltL r1 r2 i j : matches t r1 i j -> matches t (Alt r1 r2) i j
| M_AltR r1 r2 i j : matches t r2 i j -> matches t (Alt r1 r2) i j
| M_Star0 greedy r i : matches t (Star greedy r) i i
| M_StarS greedy r i j k :
    matches t r i j -> (i < j)%nat -> matches t (Star greedy r) j k ->
    matches t (Star greedy r) i k
| M_Group n r i j : matches t r i j -> matches t (Group n r) i j
| M_Bol : matches t Bol 0 0
| M_WordB i : at_boundary t i = true -> matches t WordB i i.

(** The words of a pattern, the assertions taken as the empty word. *)
Inductive lang : regex -> pystr -> Prop :=
| L_Eps : lang Eps []
| L_Chr (p : ascii -> bool) c : p c = true -> lang (Chr p) [c]
| L_Seq r1 r2 w1 w2 : lang r1 w1 -> lang r2 w2 -> lang (Seq r1 r2) (w1 ++ w2)
| L_AltL r1 r2 w : lang r1 w -> lang (Alt r1 r2) w
| L_AltR r1 r2 w : lang r2 w -> lang (Alt r1 r2) w
| L_Star0 greedy r : lang (Star greedy r) []
| L_StarS greedy r w1 w2 :
    lang r w1 -> lang (Star greedy r) w2 -> lang (Star greedy r) (w1 ++ w2)
| L_Group n r w : lang r w -> lang (Group n r) w
| L_Bol : lang Bol []
| L_WordB : lang WordB [].

(** All characters. *)
Definition all_ascii : list ascii := map ascii_of_nat (seq 0 256).

(** [p c] implies [q c] for every character [c]. *)
Definition class_within (p q : ascii -> bool) : bool :=
  forallb (fun c => implb (p c) (q c)) all_ascii.

(** [r] consumes no character. *)
Fixpoint zero_width (r : regex) : bool :=
  match r with
  | Eps | Bol | WordB => true
  | Chr _ | Star _ _ => false
  | Seq r1 r2 | Alt r1 r2 => zero_width r1 && zero_width r2
  | Group _ r' => zero_width r'
  end.

(** Every match of [r] begins by consuming a character of the class [q]. *)
Fixpoint first_in (q : ascii -> bool) (r : regex) : bool :=
  match r with
  | Eps | Bol | WordB | Star _ _ => false
  | Chr p => class_within p q
  | Seq r1 r2 => first_in q r1 || (zero_width r1 && first_in q r2)
  | Alt r1 r2 => first_in q r1 && first_in q r2
  | Group _ r' => first_in q r'
  end.

Definition nonspace (c : ascii) : bool := negb (isspace c).

(** Every match of [r] passes through the capturing group [n]. *)
Fixpoint binds (n : nat) (r : regex) : bool :=
  match r with
  | Group n' r' => (n' =? n)%nat || binds n r'
  | Seq r1 r2 => binds n r1 || binds n r2
  | Alt r1 r2 => binds n r1 && binds n r2
  | Eps | Chr _ | Star _ _ | Bol | WordB => false
  end.

Definition bound (n : nat) (g : groups) : Prop := group_span g n <> None.

(** The paragraphs the segmenter has placed so far, the open section
    included, and the invariant that no section is empty. *)
Definition covered (st : list Subsection * option Subsection)
  : list Paragraph :=
  List.concat (map paragraphs (close_section (fst st) (snd st))).

Definition all_nonempty (st : list Subsection * option Subsection) : Prop :=
  Forall (fun s => paragraphs s <> []) (close_section (fst st) (snd st)).

(** The spans met by the loop when it stands at [pos]: each starts at
    [pos] or later, is a span of the data model with the substring as its
    text, and the next ones follow its end. *)
Inductive chained (txt : pystr) : Z -> list Entity -> Prop :=
| chained_nil pos : chained txt pos []
| chained_cons pos e es :
    0 <= pos <= start e -> span_ok e -> text_ok txt e ->
    chained txt (end_ e) es -> chained txt pos (e :: es).

(* ================================================================== *)
(** ** Sample inputs *)
(* ================================================================== *)

Definition pool_C2 : list Entity :=
  [mkEntity 28 32 TAG_IDS.date (str "2011") 50;
   mkEntity 16 32 TAG_IDS.date (str "January 24, 2011") 50;
   mkEntity 16 32 TAG_IDS.incorporation_date (str "January 24, 2011") 100;
   mkEntity 30 40 TAG_IDS.financial_amount (str "11 in the ") 70].

Definition txt_C1 : pystr := str "The loss was $11,459 in 2023.".

Definition spans_C1 : list Entity :=
  [mkEntity 13 20 TAG_IDS.financial_amount (str "$11,459") 70;
   mkEntity 24 28 TAG_IDS.date (str "2023") 50].

(** A paragraph in which a general date starts in front of the address
    it overlaps, with the two candidates the extractors produce for it. *)
Definition txt_C4 : pystr :=
  str "March 2020th Floor, 1313 Lucky Street, Vancouver, British Columbia, Canada, V1C 2D3".

Definition date_C4 : Entity := mkEntity 0 10 TAG_IDS.date (str "March 2020") 50.

Definition address_C4 : Entity :=
  mkEntity 6 83 TAG_IDS.address
    (str "2020th Floor, 1313 Lucky Street, Vancouver, British Columbia, Canada, V1C 2D3")
    90.

(** The candidates for the date of [incorporated on January 24, 2011]. *)
Definition incorporation_C4 : Entity :=
  mkEntity 16 32 TAG_IDS.incorporation_date (str "January 24, 2011") 100.

Definition full_date_C4 : Entity :=
  mkEntity 16 32 TAG_IDS.date (str "January 24, 2011") 50.

Definition year_C4 : Entity := mkEntity 28 32 TAG_IDS.date (str "2011") 50.

(** A stand-in for a loaded pipeline: it reports the organisation at the
    start of a paragraph that begins with [BestCo Ltd.], together with the
    region named after it, and nothing for any other text. *)
Definition sample_pipeline : Language :=
  fun txt =>
    if startswith (str "BestCo Ltd.") txt
    then [mkSpacyEnt (str "BestCo Ltd.") (str "ORG") 0 11;
          mkSpacyEnt (str "British Columbia") (str "GPE") 32 48]
    else [].

Definition sample_ner : FinancialNER := mkFinancialNER true (Some sample_pipeline).


Definition regex_only_tagger (st : Stats) : FinancialNoteTagger :=
  mkTagger false None st.

Definition txt_C8 : pystr := str "BestCo Ltd. was incorporated in British Columbia.".

Definition tab : ascii := ascii_of_nat 9.


Definition txt_C5 : pystr :=
  str "incorporated on January 24, 2011 in the year 2011".

(** The two spans the engine accepts for [txt_C5]. *)
Definition accepted_C5 : list Entity :=
  [mkEntity 16 32 TAG_IDS.date (str "January 24, 2011") 50;
   mkEntity 45 49 TAG_IDS.date (str "2011") 50].

Definition entities_C8 : list NEREntity :=
  [mkNEREntity (str "BestCo Ltd.") (str "ORG") 0 11 1;
   mkNEREntity (str "British Columbia") (str "GPE") 32 48 1].

(** A numbered paragraph whose remainder is mostly upper case only once
    the blank after the number is left out. *)
Definition txt_C7 : pystr := str "1. ABc".

Definition header_C7 (block : pystr) : Paragraph :=
  mkParagraph (str "1. NATURE OF OPERATIONS") block.

Definition FALLBACK_MODE : string := "FALLBACK (Regex + Dictionary only)".
Definition HYBRID_MODE : string := "HYBRID (Regex + NER + Dictionary)".

(** The paragraph of the module's quick test. *)
Definition txt_quick : pystr :=
  str "BestCo Ltd. (formerly GoodCo Ltd.) was incorporated on January 24, 2011. As at December 31, 2023, the Company has a working capital deficiency of $19,821.".

(* ================================================================== *)
(** ** The rest of ner_module.py *)
(* ================================================================== *)

(** What the module finds of spaCy when it is imported and when a model is
    loaded: whether the import succeeds, the pipeline [spacy.load] returns
    for a model name ([None] when it raises [OSError]), and the pipeline
    after [_setup_custom_patterns] has added its entity ruler. *)
Record SpacyEnv := mkSpacyEnv {
  SPACY_AVAILABLE : bool;
  spacy_load : pystr -> option Language;
  with_custom_patterns : Language -> Language
}.

(** [FinancialNER.__init__] *)
Definition FinancialNER_init (env : SpacyEnv) (model_name : pystr)
    (use_ner : bool) : FinancialNER :=
  if use_ner && SPACY_AVAILABLE env then
    match spacy_load env model_name with
    | Some pipeline =>
        mkFinancialNER true (Some (with_custom_patterns env pipeline))
    | None => mkFinancialNER false None
    end
  else mkFinancialNER false None.

(** [get_ner]; the state is the module global [_ner_instance]. *)
Definition get_ner (env : SpacyEnv) (_ner_instance : option FinancialNER)
  : FinancialNER * option FinancialNER :=
  match _ner_instance with
  | None =>
      let instance := FinancialNER_init env (str "en_core_web_sm") true in
      (instance, Some instance)
  | Some instance => (instance, Some instance)
  end.

(** The list comprehension [[e for e in entities if e.<attr> in values]] *)
Fixpoint select_by_attr_in (attr : string) (values : list pyval)
    (entities : list NEREntity) : result (list NEREntity) :=
  match entities with
  | [] => Ok []
  | e :: rest =>
      v <- NEREntity_getattr e attr ;;
      kept <- select_by_attr_in attr values rest ;;
      Ok (if existsb (pyval_eqb v) values then e :: kept else kept)
  end.

(** [FinancialNER.extract_locations] *)
Definition extract_locations (self : FinancialNER) (txt : pystr)
  : result (list NEREntity) :=
  let entities := NER.extract_entities self txt in
  select_by_attr_in "label_" [PyStr (str "GPE"); PyStr (str "LOC")] entities.

(* ================================================================== *)
(** ** The rest of tagger.py *)
(* ================================================================== *)

(** [FinancialNoteTagger.__init__] *)
Definition FinancialNoteTagger_init (env : SpacyEnv) (use_ner : bool)
    (_ner_instance : option FinancialNER)
  : FinancialNoteTagger * option FinancialNER :=
  if use_ner then
    let '(instance, _ner_instance) := get_ner env _ner_instance in
    (mkTagger use_ner (Some instance) (mkStats 0 0 0), _ner_instance)
  else (mkTagger use_ner None (mkStats 0 0 0), _ner_instance).

(** [self.use_ner and self.ner and self.ner.is_available()], the test of
    [get_extraction_mode] and of [_extract_company_names_hybrid] *)
Definition hybrid_mode (self : FinancialNoteTagger) : bool :=
  use_ner self
  && match ner self with
     | Some provider => NER.is_available provider
     | None => false
     end.

(** [FinancialNoteTagger.get_extraction_mode] *)
Definition get_extraction_mode (self : FinancialNoteTagger) : string :=
  if hybrid_mode self then "HYBRID (Regex + NER + Dictionary)"
  else "FALLBACK (Regex + Dictionary only)".

(** [FinancialNoteTagger._extract_company_names], the deprecated alias *)
Definition _extract_company_names (txt : pystr) : list Entity :=
  _extract_company_names_regex txt.

(* ================================================================== *)
(** ** [SubsectionRules.determine_subsection_tag] (config.py) *)
(* ================================================================== *)


(* ================================================================== *)
(** ** xml_handler.py: paragraph content and the output tree *)
(* ================================================================== *)

(** [t.find(sub, start)]: the lowest index at or after [start] where [sub]
    occurs, or [-1]. *)
Fixpoint find_from (sub suffix : pystr) (i : Z) : Z :=
  if startswith sub suffix then i
  else match suffix with
       | [] => -1
       | _ :: suffix' => find_from sub suffix' (i + 1)
       end.

Definition find (t sub : pystr) (start : Z) : Z :=
  let s := clamp_index (len t) start in
  if len t <? start then -1
  else find_from sub (skipn (Z.to_nat s) t) s.

(** The entries of [parts]: [('text', s)] and [('tag', tag_id, content)]. *)
Inductive part :=
| TextPart (s : pystr)
| TagPart (tag_id content : pystr).

Definition TAG_OPEN : pystr := str "<Tag id=" ++ [dquote].
Definition TAG_CLOSE : pystr := str "</Tag>".

(** The [while True] loop of [_set_paragraph_content]; the loop state is
    [(parts, current_pos)].  An iteration that goes round again moves
    [current_pos] forward, so the loop ends within [len(tagged_text) + 1]
    iterations ([parse_loop_total] below); [None] stands for more. *)
Fixpoint parse_loop (tagged_text : pystr) (fuel : nat) (parts : list part)
    (current_pos : Z) : option (list part) :=
  match fuel with
  | O => None
  | S fuel' =>
      let tag_start := find tagged_text TAG_OPEN current_pos in
      if tag_start =? -1 then
        Some (if current_pos <? len tagged_text
              then parts ++ [TextPart (py_slice_from tagged_text current_pos)]
              else parts)
      else
        let parts :=
          if tag_start >? current_pos
          then parts ++ [TextPart (py_slice tagged_text current_pos tag_start)]
          else parts in
        let tag_open_end := find tagged_text (str ">") tag_start in
        if tag_open_end =? -1 then Some parts
        else
          let tag_id_start := tag_start + 9 in
          let tag_id_end := find tagged_text [dquote] tag_id_start in
          let tag_id := py_slice tagged_text tag_id_start tag_id_end in
          let tag_close := find tagged_text TAG_CLOSE tag_open_end in
          if tag_close =? -1 then Some parts
          else
            let tag_content :=
              py_slice tagged_text (tag_open_end + 1) tag_close in
            parse_loop tagged_text fuel'
              (parts ++ [TagPart tag_id tag_content]) (tag_close + 6)
  end.

Definition parse_parts (tagged_text : pystr) : option (list part) :=
  parse_loop tagged_text (S (List.length tagged_text)) [] 0.

(** A [Tag] sub-element of a paragraph: its [id] attribute, its text and
    its tail. *)
Record TagElem := mkTagElem {
  te_id : pystr;
  te_text : pystr;
  te_tail : pystr
}.

(** [last_elem.tail = s]: the tail of the element appended last. *)
Fixpoint set_last_tail (children : list TagElem) (s : pystr)
  : list TagElem :=
  match children with
  | [] => []
  | [c] => [mkTagElem (te_id c) (te_text c) s]
  | c :: rest => c :: set_last_tail rest s
  end.

(** One iteration of the [for part in parts] loop; the loop state is the
    text of the paragraph element and its sub-elements, [last_elem] being
    the last of them. *)
Definition build_step (st : pystr * list TagElem) (p : part)
  : pystr * list TagElem :=
  let '(elem_text, children) := st in
  match p with
  | TagPart tag_id content =>
      (elem_text, children ++ [mkTagElem tag_id content []])
  | TextPart s =>
      match children with
      | _ :: _ => (elem_text, set_last_tail children s)
      | [] =>
          (match elem_text with
           | _ :: _ => elem_text ++ s
           | [] => s
           end,
           children)
      end
  end.

(** The paragraph element after [_set_paragraph_content]: its text and its
    sub-elements. *)
Definition build_content (tagged_text : pystr) (parts : list part)
  : pystr * list TagElem :=
  match parts with
  | [] => (tagged_text, [])
  | TextPart s :: rest => fold_left build_step rest (s, [])
  | TagPart _ _ :: _ => fold_left build_step parts ([], [])
  end.

Definition _set_paragraph_content (tagged_text : pystr)
  : option (pystr * list TagElem) :=
  match parse_parts tagged_text with
  | Some parts => Some (build_content tagged_text parts)
  | None => None
  end.

(** The output tree of [generate_output_xml]: under the root [Tag] and its
    [note], one [Tag] per subsection with its [paragraph] elements. *)
Record ParagraphElem := mkParagraphElem {
  pe_block_index : pystr;
  pe_text : pystr;
  pe_children : list TagElem
}.

Record SectionElem := mkSectionElem {
  se_id : string;
  se_paragraphs : list ParagraphElem
}.

Record OutputTree := mkOutputTree {
  root_id : string;
  note_sections : list SectionElem
}.

(** The [paragraph] element made for [para] and filled from [tagged_text];
    the parts loop always ends ([parse_loop_total]), which leaves the
    second branch unused. *)
Definition paragraph_elem (para : Paragraph) (tagged_text : pystr)
  : ParagraphElem :=
  match _set_paragraph_content tagged_text with
  | Some (elem_text, children) =>
      mkParagraphElem (block_index para) elem_text children
  | None => mkParagraphElem (block_index para) [] []
  end.

(** The loop over the paragraphs of one subsection; the tagger is threaded
    through for its counters. *)
Fixpoint section_paragraphs (self : FinancialNoteTagger) (skip : bool)
    (paras : list Paragraph)
  : result (list ParagraphElem * FinancialNoteTagger) :=
  match paras with
  | [] => Ok ([], self)
  | para :: rest =>
      '(tagged_text, self) <-
        (if skip then Ok (p_text para, self)
         else tag_paragraph self (p_text para)) ;;
      let elem := paragraph_elem para tagged_text in
      '(elems, self) <- section_paragraphs self skip rest ;;
      Ok (elem :: elems, self)
  end.

(** The loop over the subsections. *)
Fixpoint output_sections (self : FinancialNoteTagger)
    (subsections : list Subsection)
  : result (list SectionElem * FinancialNoteTagger) :=
  match subsections with
  | [] => Ok ([], self)
  | subsection :: rest =>
      let skip :=
        match skip_tagging subsection with
        | Some b => b
        | None => false
        end in
      '(elems, self) <- section_paragraphs self skip (paragraphs subsection) ;;
      '(sections, self) <- output_sections self rest ;;
      Ok (mkSectionElem (s_tag_id subsection) elems :: sections, self)
  end.

(** [XMLHandler.generate_output_xml], from the paragraphs of [note_info] *)
Definition generate_output_xml (self : FinancialNoteTagger)
    (paras : list Paragraph) : result (OutputTree * FinancialNoteTagger) :=
  let subsections := detect_subsections paras in
  '(sections, self) <- output_sections self subsections ;;
  Ok (mkOutputTree TAG_IDS.note_root sections, self).

(* ================================================================== *)
(** ** Auxiliary definitions of the further properties *)
(* ================================================================== *)

(** A span of the text [txt]: [0 <= start < end <= len(txt)] with the
    substring as its text. *)
Definition span_in (txt : pystr) (e : Entity) : Prop :=
  span_ok e /\ end_ e <= len txt /\ text_ok txt e.

(** The span of a group lies in the text and is not empty. *)
Definition good_span (t : pystr) (entry : nat * (nat * nat)) : Prop :=
  (fst (snd entry) < snd (snd entry) <= List.length t)%nat.

(** Every capturing group of [r] consumes a character when it matches. *)
Fixpoint groups_ok (r : regex) : bool :=
  match r with
  | Group _ r' => first_in (fun _ => true) r' && groups_ok r'
  | Seq r1 r2 | Alt r1 r2 => groups_ok r1 && groups_ok r2
  | Star _ r' => groups_ok r'
  | Eps | Chr _ | Bol | WordB => true
  end.

(** The entity classes: tag identifier and priority. *)
Definition ENTITY_CLASSES : list (string * Z) :=
  [(TAG_IDS.incorporation_date, ENTITY_PRIORITIES.IncorporationDate);
   (TAG_IDS.address, ENTITY_PRIORITIES.AddressOfRegisteredOfficeOfEntity);
   (TAG_IDS.trading_symbol, ENTITY_PRIORITIES.EntityPrimaryTradingSymbol);
   (TAG_IDS.company_name,
    ENTITY_PRIORITIES.NameOfReportingEntityOrOtherMeansOfIdentification);
   (TAG_IDS.financial_amount, ENTITY_PRIORITIES.Financial_Amount_Placeholder);
   (TAG_IDS.financial_concept, ENTITY_PRIORITIES.Financial_Concept_Placeholder);
   (TAG_IDS.date, ENTITY_PRIORITIES.Date_Placeholder)].

Definition class_ok (e : Entity) : Prop :=
  In (tag_id e, priority e) ENTITY_CLASSES.

(** The candidates of the dictionary extractor. *)
Definition concept_spans (txt : pystr) : list Entity :=
  flat_map (fun '(concept, _) =>
              map (fun mo =>
                     entity_of_match txt mo TAG_IDS.financial_concept
                       ENTITY_PRIORITIES.Financial_Concept_Placeholder)
                (re_finditer txt (concept_pattern concept)))
    FINANCIAL_CONCEPTS.

(** The candidate pool of [extract_entities] without the provider, in the
    order of the [extend] calls. *)
Definition regex_candidates (txt : pystr) : list Entity :=
  _extract_incorporation_dates txt ++ _extract_addresses txt
    ++ _extract_trading_symbols txt ++ _extract_company_names_regex txt
    ++ _extract_amounts txt ++ concept_spans txt ++ _extract_dates txt.


(** What [extract_entities] of the provider returns in hybrid mode, and
    nothing otherwise. *)
Definition ner_candidates (self : FinancialNoteTagger) (txt : pystr)
  : list NEREntity :=
  if hybrid_mode self then
    match ner self with
    | Some provider => NER.extract_entities provider txt
    | None => []
    end
  else [].

(** The tagger after a call of [extract_entities] that found no provider
    entity. *)
Definition counted (self : FinancialNoteTagger) (txt : pystr)
  : FinancialNoteTagger :=
  set_stats self
    (mkStats
       (regex_extractions (stats self)
        + Z.of_nat (List.length (_extract_company_names_regex txt)))
       (ner_extractions (stats self))
       (dictionary_extractions (stats self)
        + Z.of_nat (List.length (concept_spans txt)))).

(** A match object: the pattern matches between its offsets, and its
    groups have spans of the text. *)
Definition match_ok (t : pystr) (r : regex) (mo : re_match_obj) : Prop :=
  let '(s, e, g) := mo in matches t r s e /\ Forall (good_span t) g.

(** The exception of the comprehensions that read [label_]. *)
Definition label_error : exn := AttributeError "NEREntity" "label_".

(** The three shapes of a subsection of the segmenter. *)
Definition header_shape (s : Subsection) : Prop :=
  s_tag_id s = TAG_IDS.header /\ skip_tagging s = Some true
  /\ exists p, paragraphs s = [p] /\ is_header (p_text p) = true.

Definition operations_shape (s : Subsection) : Prop :=
  s_tag_id s = TAG_IDS.operations_description /\ skip_tagging s = None
  /\ paragraphs s <> []
  /\ Forall (fun p => is_header (p_text p) = false
                      /\ should_start_going_concern (p_text p) = false)
       (paragraphs s).

Definition going_concern_shape (s : Subsection) : Prop :=
  s_tag_id s = TAG_IDS.going_concern_description /\ skip_tagging s = None
  /\ (exists p rest, paragraphs s = p :: rest
                     /\ should_start_going_concern (p_text p) = true)
  /\ Forall (fun p => is_header (p_text p) = false) (paragraphs s).

Definition subsection_shape (s : Subsection) : Prop :=
  header_shape s \/ operations_shape s \/ going_concern_shape s.

(** What may follow what: next to a header anything, and otherwise only a
    going-concern subsection after an operations subsection. *)
Definition may_follow (s1 s2 : Subsection) : Prop :=
  s_tag_id s1 = TAG_IDS.header \/ s_tag_id s2 = TAG_IDS.header
  \/ (s_tag_id s1 = TAG_IDS.operations_description
      /\ s_tag_id s2 = TAG_IDS.going_concern_description).

(** The invariant of the loop of [detect_subsections]. *)
Definition segmenter_inv (st : list Subsection * option Subsection) : Prop :=
  Forall subsection_shape (fst st)
  /\ match snd st with
     | None => forall s, Sorted may_follow (fst st ++ [s])
     | Some cs =>
         (operations_shape cs \/ going_concern_shape cs)
         /\ Sorted may_follow (fst st ++ [cs])
     end.

(** One subsection of the given class for a non-empty run of paragraphs. *)
Definition section_of (tag : string) (paras : list Paragraph)
  : list Subsection :=
  match paras with
  | [] => []
  | _ :: _ => [mkSubsection tag paras None]
  end.

(** The paragraphs in front of the first going-concern trigger, and the
    paragraphs from it on. *)
Fixpoint before_trigger (paras : list Paragraph) : list Paragraph :=
  match paras with
  | [] => []
  | p :: rest =>
      if should_start_going_concern (p_text p) then []
      else p :: before_trigger rest
  end.

Fixpoint from_trigger (paras : list Paragraph) : list Paragraph :=
  match paras with
  | [] => []
  | p :: rest =>
      if should_start_going_concern (p_text p) then paras
      else from_trigger rest
  end.

(** The segments of the overlay of a chain of spans, from [pos] on. *)
Fixpoint segments_from (txt : pystr) (pos : Z) (es : list Entity)
  : list segment :=
  match es with
  | [] => [Plain (py_slice_from txt pos)]
  | e :: es' =>
      Plain (py_slice txt pos (start e)) :: Tagged (tag_id e) (text e)
        :: segments_from txt (end_ e) es'
  end.

(** The parts the loop of [_set_paragraph_content] is to recover from the
    rendering of segments: no part for an empty piece of text. *)
Fixpoint parts_of (segs : list segment) : list part :=
  match segs with
  | [] => []
  | Plain [] :: rest => parts_of rest
  | Plain s :: rest => TextPart s :: parts_of rest
  | Tagged id inner :: rest => TagPart (str id) inner :: parts_of rest
  end.

(** The text between [pos] and the next span of a chain, or the end of
    the paragraph. *)
Definition tail_to (txt : pystr) (pos : Z) (es : list Entity) : pystr :=
  match es with
  | [] => py_slice_from txt pos
  | e :: _ => py_slice txt pos (start e)
  end.

(** The sub-elements for a chain of spans: each span with the text up to
    the next span, or to the end of the paragraph, as its tail. *)
Fixpoint children_from (txt : pystr) (es : list Entity) : list TagElem :=
  match es with
  | [] => []
  | e :: es' =>
      mkTagElem (str (tag_id e)) (text e) (tail_to txt (end_ e) es')
        :: children_from txt es'
  end.

(** The identifier and the text of a span, and of a sub-element. *)
Definition span_label (e : Entity) : pystr * pystr :=
  (str (tag_id e), text e).

Definition elem_label (c : TagElem) : pystr * pystr := (te_id c, te_text c).

(** The character does not occur in the string. *)
Definition lacks (c : ascii) (s : pystr) : bool :=
  forallb (fun x => negb (Ascii.eqb x c)) s.

Definition LT : ascii := "<"%char.
Definition GT : ascii := ">"%char.

(** A tag identifier that can stand between the quotation marks of the
    opening marker. *)
Definition safe_id (id : string) : bool :=
  lacks dquote (str id) && lacks GT (str id).

(** The text stream of a paragraph element: its text, then the text and
    the tail of each sub-element. *)
Definition elem_stream (content : pystr * list TagElem) : pystr :=
  fst content
    ++ List.concat (map (fun c => te_text c ++ te_tail c) (snd content)).

Definition paragraph_stream (pe : ParagraphElem) : pystr :=
  elem_stream (pe_text pe, pe_children pe).

(** The spans [extract_entities] accepts without the provider. *)
Definition accepted (txt : pystr) : list Entity :=
  _remove_overlaps (regex_candidates txt).

(** The paragraph element of a paragraph: the text alone when tagging is
    skipped, else its accepted spans as sub-elements. *)
Definition expected_elem (skip : bool) (para : Paragraph) : ParagraphElem :=
  if skip then mkParagraphElem (block_index para) (p_text para) []
  else mkParagraphElem (block_index para)
         (tail_to (p_text para) 0 (accepted (p_text para)))
         (children_from (p_text para) (accepted (p_text para))).

Definition skipped (subsection : Subsection) : bool :=
  match skip_tagging subsection with
  | Some b => b
  | None => false
  end.

Definition expected_section (subsection : Subsection) : SectionElem :=
  mkSectionElem (s_tag_id subsection)
    (map (expected_elem (skipped subsection)) (paragraphs subsection)).

(** What identifies a paragraph in the input and in the output: its block
    index and its text. *)
Definition para_key (p : Paragraph) : pystr * pystr :=
  (block_index p, p_text p).

Definition elem_key (pe : ParagraphElem) : pystr * pystr :=
  (pe_block_index pe, paragraph_stream pe).

Definition tree_paragraphs (tree : OutputTree) : list ParagraphElem :=
  flat_map se_paragraphs (note_sections tree).

Definition markup_free (p : Paragraph) : Prop := lacks LT (p_text p) = true.

(** The loop over the parts takes its last branch, for a text part when no
    sub-element has been made yet. *)
Definition stray_text (st : pystr * list TagElem) (p : part) : bool :=
  match p, snd st with
  | TextPart _, [] => true
  | _, _ => false
  end.

Fixpoint meets_stray_text (parts : list part) (st : pystr * list TagElem)
  : bool :=
  match parts with
  | [] => false
  | p :: rest => stray_text st p || meets_stray_text rest (build_step st p)
  end.

(** The same for the whole of the building, which takes a leading text
    part for the text of the paragraph before the loop. *)
Definition content_meets_stray_text (parts : list part) : bool :=
  match parts with
  | [] => false
  | TextPart s :: rest => meets_stray_text rest (s, [])
  | TagPart _ _ :: _ => meets_stray_text parts ([], [])
  end.

(** No text part follows a text part; [prev_text] tells whether the part
    in front of the list is one. *)
Fixpoint no_text_pair_after (prev_text : bool) (parts : list part) : bool :=
  match parts with
  | [] => true
  | TextPart _ :: rest => negb prev_text && no_text_pair_after true rest
  | TagPart _ _ :: rest => no_text_pair_after false rest
  end.

Definition is_text (p : part) : bool :=
  match p with
  | TextPart _ => true
  | TagPart _ _ => false
  end.

Definition last_is_text (prev_text : bool) (parts : list part) : bool :=
  fold_left (fun _ p => is_text p) parts prev_text.

(** The keys of the dictionary. *)
Definition concept_keys : list pystr :=
  map (fun kv => str (fst kv)) FINANCIAL_CONCEPTS.

(** A whole-word occurrence of a dictionary phrase, in any case. *)
Definition concept_occurrence (txt : pystr) (e : Entity) : Prop :=
  In (lower (text e)) concept_keys
  /\ at_boundary txt (Z.to_nat (start e)) = true
  /\ at_boundary txt (Z.to_nat (end_ e)) = true.

Definition is_some {A : Type} (o : option A) : bool :=
  match o with
  | Some _ => true
  | None => false
  end.

(** The vocabulary of the date patterns. *)
Definition MONTH_NAMES : list string :=
  ["January"; "February"; "March"; "April"; "May"; "June"; "July"; "August";
   "September"; "October"; "November"; "December"].

(** A month name, in any case when [ci] is set. *)
Definition month_in (ci : bool) (w : pystr) : Prop :=
  if ci then In (lower w) (map (fun name => lower (str name)) MONTH_NAMES)
  else In w (map str MONTH_NAMES).

(** A non-empty run of white space. *)
Definition blank (w : pystr) : Prop := w <> [] /\ forallb isspace w = true.

(** Month, day of one or two digits, comma, year of four digits. *)
Definition full_date_literal (ci : bool) (w : pystr) : Prop :=
  exists month ws1 day ws2 year,
    w = month ++ ws1 ++ day ++ str "," ++ ws2 ++ year
    /\ month_in ci month /\ blank ws1
    /\ (1 <= List.length day <= 2)%nat /\ forallb isdecimal day = true
    /\ blank ws2 /\ Spec.digits 4 year.

(** Month and year of four digits. *)
Definition month_year_literal (w : pystr) : Prop :=
  exists month ws year,
    w = month ++ ws ++ year
    /\ month_in false month /\ blank ws /\ Spec.digits 4 year.

(** A year of the twentieth or twenty-first century. *)
Definition year_literal (w : pystr) : Prop :=
  exists century rest,
    w = century ++ rest
    /\ (century = str "19" \/ century = str "20") /\ Spec.digits 2 rest.

(** The vocabulary of the address pattern. *)
Definition numeral (w : pystr) : Prop :=
  w <> [] /\ forallb isdecimal w = true.

Definition street_char (c : ascii) : bool :=
  existsb (fun p => p c) [AZ; az; isspace].

Definition city_char (c : ascii) : bool :=
  existsb (fun p => p c) [AZ; az; isspace; one ","].

Definition ORDINAL_SUFFIXES : list string := ["st"; "nd"; "rd"; "th"].

(** Letter, digit, letter, white space, digit, letter, digit. *)
Definition postal_code (w : pystr) : Prop :=
  exists a d1 b ws d2 c d3,
    w = [a; d1; b] ++ ws ++ [d2; c; d3]
    /\ AZ a = true /\ isdecimal d1 = true /\ AZ b = true /\ blank ws
    /\ isdecimal d2 = true /\ AZ c = true /\ isdecimal d3 = true.

(** Floor number with an optional ordinal suffix, [Floor,], street number,
    street name, [Street,], the city and region, a comma, and the postal
    code. *)
Definition address_literal (w : pystr) : Prop :=
  exists floor ordinal ws1 ws2 number ws3 street ws4 city ws5 code,
    w = floor ++ ordinal ++ ws1 ++ str "Floor," ++ ws2 ++ number ++ ws3
          ++ street ++ str "Street," ++ ws4 ++ city ++ str "," ++ ws5 ++ code
    /\ numeral floor
    /\ (ordinal = [] \/ In ordinal (map str ORDINAL_SUFFIXES))
    /\ blank ws1 /\ blank ws2 /\ numeral number /\ blank ws3
    /\ (street <> [] /\ forallb street_char street = true)
    /\ blank ws4
    /\ (city <> [] /\ forallb city_char city = true)
    /\ blank ws5 /\ postal_code code.

(** Further sample inputs *)

Definition header_quick : Paragraph :=
  mkParagraph (str "1. NATURE OF OPERATIONS AND GOING CONCERN") (str "0").

Definition body_quick : list Paragraph :=
  [mkParagraph txt_quick (str "1");
   mkParagraph
     (str "These factors indicate a material uncertainty about the loss.")
     (str "2")].

Definition note_quick : list Paragraph := header_quick :: body_quick.

Definition padding_left : pystr := [tab; " "%char].
Definition padding_right : pystr := [" "%char].

Definition spacy_missing : SpacyEnv :=
  mkSpacyEnv false (fun _ => None) (fun pipeline => pipeline).

Definition txt_symbol : pystr :=
  str "The shares trade under the symbol " ++ [dquote] ++ str "BCL"
    ++ [dquote] ++ str ".".





(* ================================================================== *)
(** * Properties *)
(* ================================================================== *)

(** ** The stable sort *)

Section PySortedFacts.
Context {A K : Type}.
Variable ltb : K -> K -> bool.
Variable key : A -> K.


Lemma insert_stable_In x y l :
  In y (insert_stable ltb key x l) <-> y = x \/ In y l.
Proof.
  induction l as [|z l IH]; simpl.
  - intuition congruence.
  - destruct (ltb (key z) (key x)); simpl; rewrite ?IH; intuition congruence.
Qed.

Lemma py_sorted_In y l : In y (py_sorted ltb key l) <-> In y l.
Proof.
  induction l as [|x l IH]; simpl; [tauto|].
  rewrite insert_stable_In, IH. intuition congruence.
Qed.

Lemma py_sorted_Forall (P : A -> Prop) l :
  Forall P l -> Forall P (py_sorted ltb key l).
Proof.
  rewrite !Forall_forall. intros H y Hy. apply H, py_sorted_In, Hy.
Qed.

(** A list that is in order already is left as it is. *)
Lemma py_sorted_id l : Sorted (in_order ltb key) l -> py_sorted ltb key l = l.
Proof.
  induction 1 as [|x l Hs IH Hd]; simpl; [reflexivity|].
  rewrite IH. destruct Hd as [|y l' Hxy]; simpl; [reflexivity|].
  unfold in_order in Hxy. now rewrite Hxy.
Qed.

(** The result is in order when the comparison is a strict total order
    on the keys: asymmetric and transitive, with transitive
    incomparability. *)
Hypothesis ltb_asym : forall a b, ltb a b = true -> ltb b a = false.
Hypothesis nlt_trans :
  forall a b c, ltb b a = false -> ltb c b = false -> ltb c a = false.

Lemma insert_stable_sorted x l :
  StronglySorted (in_order ltb key) l -> StronglySorted (in_order ltb key) (insert_stable ltb key x l).
Proof.
  induction 1 as [|y l Hs IH Hall]; simpl.
  - repeat constructor.
  - destruct (ltb (key y) (key x)) eqn:E.
    + constructor; [exact IH|].
      rewrite Forall_forall in *. intros z Hz.
      apply insert_stable_In in Hz as [->|Hz]; [|now apply Hall].
      unfold in_order. now apply ltb_asym.
    + constructor; [now constructor|].
      constructor; [exact E|].
      rewrite Forall_forall in *. intros z Hz.
      unfold in_order. apply nlt_trans with (b := key y); [exact E|].
      now apply Hall.
Qed.

Lemma py_sorted_sorted l : StronglySorted (in_order ltb key) (py_sorted ltb key l).
Proof.
  induction l as [|x l IH]; simpl; [constructor|].
  now apply insert_stable_sorted.
Qed.
End PySortedFacts.

(** Two comparisons that agree on the keys sort alike. *)
Lemma py_sorted_ext {A K K' : Type} (ltb : K -> K -> bool)
    (ltb' : K' -> K' -> bool) (key : A -> K) (key' : A -> K') :
  (forall a b, ltb (key a) (key b) = ltb' (key' a) (key' b)) ->
  forall l, py_sorted ltb key l = py_sorted ltb' key' l.
Proof.
  intros H l. induction l as [|x l IH]; simpl; [reflexivity|].
  rewrite IH. generalize (py_sorted ltb' key' l) as s.
  induction s as [|y s IHs]; simpl; [reflexivity|].
  now rewrite H, IHs.
Qed.

(** ** The sort keys of the resolver *)

Lemma tuple3_ltb_before a b :
  tuple3_ltb (overlap_key a) (overlap_key b) = Spec.before a b.
Proof.
  unfold tuple3_ltb, overlap_key, Spec.before.
  destruct (start a <? start b) eqn:E1; simpl; [reflexivity|].
  destruct (start a =? start b) eqn:E2; simpl; [|reflexivity].
  rewrite Z.gtb_ltb.
  replace (- priority a <? - priority b) with (priority b <? priority a)
    by (apply Bool.eq_true_iff_eq; rewrite !Z.ltb_lt; lia).
  destruct (priority b <? priority a); simpl; [reflexivity|].
  replace (- priority a =? - priority b) with (priority a =? priority b)
    by (apply Bool.eq_true_iff_eq; rewrite !Z.eqb_eq; lia).
  destruct (priority a =? priority b); simpl; [|reflexivity].
  rewrite Z.gtb_ltb.
  apply Bool.eq_true_iff_eq; rewrite !Z.ltb_lt; lia.
Qed.

Lemma before_asym a b : Spec.before a b = true -> Spec.before b a = false.
Proof.
  unfold Spec.before. rewrite !Z.gtb_ltb. intros H.
  apply Bool.not_true_iff_false. intros H'.
  repeat (rewrite ?Bool.orb_true_iff, ?Bool.andb_true_iff, ?Z.ltb_lt,
           ?Z.eqb_eq in H, H').
  lia.
Qed.

Lemma before_nlt_trans a b c :
  Spec.before b a = false -> Spec.before c b = false ->
  Spec.before c a = false.
Proof.
  unfold Spec.before. rewrite !Z.gtb_ltb. intros H1 H2.
  apply Bool.not_true_iff_false. intros H3.
  apply Bool.not_true_iff_false in H1, H2. apply H1. clear H1.
  repeat (rewrite ?Bool.orb_true_iff, ?Bool.andb_true_iff, ?Z.ltb_lt,
           ?Z.eqb_eq in H2, H3 |- *).
  lia.
Qed.

Lemma before_false_start_le a b : Spec.before b a = false -> start a <= start b.
Proof.
  unfold Spec.before. intros H.
  apply Bool.orb_false_iff in H as [H _]. apply Z.ltb_ge in H. exact H.
Qed.

Lemma sort_candidates_eq pool :
  py_sorted tuple3_ltb overlap_key pool = Spec.sort_candidates pool.
Proof.
  unfold Spec.sort_candidates. apply py_sorted_ext.
  intros a b. apply tuple3_ltb_before.
Qed.

Lemma sort_candidates_sorted pool :
  StronglySorted (fun a b => Spec.before b a = false)
    (Spec.sort_candidates pool).
Proof.
  unfold Spec.sort_candidates.
  apply (py_sorted_sorted Spec.before (fun e : Entity => e)).
  - intros a b. apply before_asym.
  - intros a b c. apply before_nlt_trans.
Qed.

(** ** The scan of the resolver *)

Lemma overlap_loop_scan l : forall acc last_end,
  fst (fold_left overlap_step l (acc, last_end)) = acc ++ Spec.scan last_end l.
Proof.
  induction l as [|c l IH]; intros acc last_end; simpl.
  - now rewrite app_nil_r.
  - destruct (start c >=? last_end).
    + rewrite IH, <- app_assoc. reflexivity.
    + apply IH.
Qed.

Lemma remove_overlaps_resolve pool : _remove_overlaps pool = Spec.resolve pool.
Proof.
  unfold _remove_overlaps, Spec.resolve.
  destruct pool as [|e pool]; [reflexivity|].
  cbv zeta. rewrite overlap_loop_scan, sort_candidates_eq. reflexivity.
Qed.

Lemma scan_In c l : forall last_end, In c (Spec.scan last_end l) -> In c l.
Proof.
  induction l as [|x l IH]; intros last_end; simpl; [tauto|].
  destruct (start x >=? last_end); simpl; intros H.
  - destruct H as [H|H]; eauto.
  - eauto.
Qed.

(** Every accepted span starts at [last_end] or later, and each accepted
    span ends before the later accepted ones start. *)
Lemma scan_chain l : forall last_end,
  Forall span_ok l ->
  Forall (fun c => last_end <= start c) (Spec.scan last_end l)
  /\ StronglySorted (fun a b => end_ a <= start b) (Spec.scan last_end l).
Proof.
  induction l as [|x l IH]; intros last_end Hok; simpl.
  - split; constructor.
  - inversion Hok as [|? ? Hx Hl]; subst.
    destruct (start x >=? last_end) eqn:E.
    + apply Z.geb_le in E. destruct (IH (end_ x) Hl) as [Hge Hs].
      split.
      * constructor; [exact E|].
        eapply Forall_impl; [|exact Hge]. unfold span_ok in Hx.
        intros c Hc. simpl in Hc. lia.
      * constructor; assumption.
    + apply IH, Hl.
Qed.

Lemma py_sorted_Permutation {A K : Type} (ltb : K -> K -> bool)
    (key : A -> K) l :
  Permutation l (py_sorted ltb key l).
Proof.
  induction l as [|x l IH]; simpl; [constructor|].
  transitivity (x :: py_sorted ltb key l); [now constructor|].
  generalize (py_sorted ltb key l) as s. clear.
  induction s as [|y s IHs]; simpl; [reflexivity|].
  destruct (ltb (key y) (key x)); [|reflexivity].
  transitivity (y :: x :: s); [apply perm_swap|now constructor].
Qed.

Lemma StronglySorted_pairs {A : Type} (R Q : A -> A -> Prop) l :
  (forall a b, In a l -> In b l -> R a b -> Q a b) ->
  StronglySorted R l -> ForallOrdPairs Q l /\ StronglySorted Q l.
Proof.
  intros HRQ Hs. induction Hs as [|x l Hs IH Hall].
  - split; constructor.
  - destruct IH as [IH1 IH2].
    { intros a b Ha Hb. apply HRQ; now right. }
    assert (HQ : Forall (Q x) l).
    { rewrite Forall_forall in *. intros b Hb.
      apply HRQ; [now left|now right|now apply Hall]. }
    split; constructor; assumption.
Qed.

(** ** C2 *)

(** C2 (non-overlap invariant).  For every candidate pool of spans with
    [0 <= start < end], overlapping or not, any two spans at different
    places of the resolver's output satisfy [a.end <= b.start] or
    [b.end <= a.start], and the output is sorted by start. *)
Theorem C2_non_overlap (pool : list Entity) :
  Forall span_ok pool ->
  ForallOrdPairs no_overlap (_remove_overlaps pool)
  /\ (forall a b, In a (_remove_overlaps pool) -> In b (_remove_overlaps pool) ->
                  a <> b -> no_overlap a b)
  /\ StronglySorted start_le (_remove_overlaps pool).
Proof.
  intros Hok. rewrite remove_overlaps_resolve. unfold Spec.resolve.
  assert (Hok' : Forall span_ok (Spec.sort_candidates pool))
    by (apply py_sorted_Forall, Hok).
  destruct (scan_chain (-1) Hok') as [_ Hchain].
  assert (Hin : forall a, In a (Spec.scan (-1) (Spec.sort_candidates pool)) ->
                          span_ok a).
  { intros a Ha. apply scan_In in Ha.
    rewrite Forall_forall in Hok'. now apply Hok'. }
  assert (Hpairs : ForallOrdPairs no_overlap
                     (Spec.scan (-1) (Spec.sort_candidates pool))).
  { eapply StronglySorted_pairs; [|exact Hchain].
    intros a b _ _ H. now left. }
  split; [exact Hpairs|]. split.
  - intros a b Ha Hb Hab.
    destruct (ForallOrdPairs_In Hpairs a b Ha Hb) as [H|[H|H]].
    + contradiction.
    + exact H.
    + destruct H as [H|H]; [now right|now left].
  - eapply StronglySorted_pairs; [|exact Hchain].
    intros a b Ha _ H. apply Hin in Ha. unfold span_ok in Ha.
    unfold start_le. cbv beta in H. lia.
Qed.

Lemma C2_non_overlap_witness :
  Forall span_ok pool_C2
  /\ ForallOrdPairs no_overlap (_remove_overlaps pool_C2)
  /\ (forall a b, In a (_remove_overlaps pool_C2) ->
                  In b (_remove_overlaps pool_C2) -> a <> b -> no_overlap a b)
  /\ StronglySorted start_le (_remove_overlaps pool_C2).
Proof.
  assert (H : Forall span_ok pool_C2)
    by (repeat constructor; unfold span_ok; simpl; lia).
  split; [exact H|]. exact (C2_non_overlap H).
Defined.

(** ** C3 *)

(** C3 (resolver algorithm and tie-break precedence).  For every candidate
    pool the resolver's output is the scan with [last_end = -1] -- accept a
    candidate iff its start is not before [last_end], then set [last_end]
    to its end -- of the candidates sorted by start ascending, priority
    descending, span length descending; that sorted sequence is a
    rearrangement of the pool in which no candidate has to come before an
    earlier one; and the priority table ranks incorporation date, address,
    trading symbol, company name, amount, concept and general date in
    strictly descending order. *)
Theorem C3_resolver_algorithm :
  (forall pool, _remove_overlaps pool
                = Spec.scan (-1) (Spec.sort_candidates pool))
  /\ (forall pool, Permutation pool (Spec.sort_candidates pool)
                   /\ StronglySorted (fun a b => Spec.before b a = false)
                        (Spec.sort_candidates pool))
  /\ StronglySorted Z.gt Spec.ranking.
Proof.
  split; [exact remove_overlaps_resolve|]. split.
  - intros pool. split.
    + apply py_sorted_Permutation.
    + apply sort_candidates_sorted.
  - unfold Spec.ranking. repeat constructor.
Qed.

(** ** Slices *)

Lemma py_slice_from_0 t : py_slice_from t 0 = t.
Proof.
  unfold py_slice_from, clamp_index, len. simpl.
  rewrite Z.min_l by lia. reflexivity.
Qed.

(** [t[a:b] + t[b:] = t[a:]] for [0 <= a <= b]. *)
Lemma py_slice_app t a b :
  0 <= a <= b -> py_slice t a b ++ py_slice_from t b = py_slice_from t a.
Proof.
  intros H. unfold py_slice, py_slice_from, clamp_index.
  destruct (a <? 0) eqn:Ea; [apply Z.ltb_lt in Ea; lia|].
  destruct (b <? 0) eqn:Eb; [apply Z.ltb_lt in Eb; lia|].
  set (lo := Z.min a (len t)). set (hi := Z.min b (len t)).
  assert (Hlo : 0 <= lo <= hi) by (unfold lo, hi, len; lia).
  replace (Z.to_nat hi) with (Z.to_nat (hi - lo) + Z.to_nat lo)%nat by lia.
  rewrite <- skipn_skipn. apply firstn_skipn.
Qed.

(** ** The overlay loop *)

Lemma text_stream_app a b : text_stream (a ++ b) = text_stream a ++ text_stream b.
Proof. unfold text_stream, join. now rewrite map_app, concat_app. Qed.

Lemma tag_loop_stream txt es : forall acc pos,
  chained txt pos es ->
  let '(result, last_pos) := fold_left (tag_step txt) es (acc, pos) in
  text_stream result ++ py_slice_from txt last_pos
  = text_stream acc ++ py_slice_from txt pos.
Proof.
  induction es as [|e es IH]; intros acc pos Hc; simpl.
  - reflexivity.
  - inversion Hc as [|? ? ? Hpos Hok Htxt Hrest]; subst.
    specialize (IH (acc ++ [Plain (py_slice txt pos (start e));
                            Tagged (tag_id e) (text e)]) (end_ e) Hrest).
    destruct (fold_left (tag_step txt) es _) as [result last_pos].
    rewrite IH, text_stream_app. unfold text_stream at 2, join. simpl.
    rewrite app_nil_r, Htxt, <- !app_assoc. f_equal.
    unfold span_ok in Hok.
    rewrite (@py_slice_app txt (start e) (end_ e)) by lia.
    apply py_slice_app. lia.
Qed.

Lemma sorted_disjoint_chained txt es :
  Forall span_ok es -> Sorted start_le es -> ForallOrdPairs no_overlap es ->
  Forall (text_ok txt) es ->
  forall pos, 0 <= pos -> (forall e, In e es -> pos <= start e) ->
  chained txt pos es.
Proof.
  induction es as [|e es IH]; intros Hok Hs Hd Ht pos Hpos Hle.
  - constructor.
  - inversion Hok as [|? ? Hoke Hokes]; subst.
    inversion Ht as [|? ? Hte Htes]; subst.
    inversion Hd as [|? ? Hde Hdes]; subst.
    apply Sorted_StronglySorted in Hs;
      [|intros x y z; unfold start_le; lia].
    inversion Hs as [|? ? Hss Hse]; subst.
    constructor; try assumption.
    + split; [exact Hpos|]. apply Hle. now left.
    + apply IH; try assumption.
      * now apply StronglySorted_Sorted.
      * unfold span_ok in Hoke. lia.
      * intros x Hx. rewrite Forall_forall in Hde, Hse, Hokes.
        specialize (Hde x Hx). specialize (Hse x Hx). specialize (Hokes x Hx).
        unfold no_overlap, start_le, span_ok in *. lia.
Qed.

(** ** C1 *)

(** C1 (round trip).  For every paragraph text and every list of spans
    that is sorted by start, pairwise non-overlapping and made of spans of
    the data model ([0 <= start < end]) whose text field is
    [text[start:end]]: the string [tag_text] returns is the rendering of
    its segments, and the text stream of these segments -- the plain pieces
    and the inner texts of the tags, in order, without the markers -- is the
    paragraph text.  With no span, [tag_text] returns the text unchanged. *)
Theorem C1_round_trip (txt : pystr) (spans : list Entity) :
  Forall span_ok spans ->
  Sorted start_le spans ->
  ForallOrdPairs no_overlap spans ->
  Forall (text_ok txt) spans ->
  tag_text txt spans = join (map render (tag_segments txt spans))
  /\ text_stream (tag_segments txt spans) = txt
  /\ tag_text txt [] = txt.
Proof.
  intros Hok Hs Hd Ht.
  assert (Hid : py_sorted Z.ltb start spans = spans).
  { apply py_sorted_id. eapply Sorted_ind with (P := Sorted _);
      [constructor| |exact Hs].
    intros a l _ IH Hhd. constructor; [exact IH|].
    destruct Hhd as [|b l' Hab]; constructor.
    unfold start_le in Hab. apply Z.ltb_ge. exact Hab. }
  assert (Hstream : text_stream (tag_segments txt spans) = txt).
  { unfold tag_segments. rewrite Hid.
    assert (Hc : chained txt 0 spans).
    { apply sorted_disjoint_chained; try assumption; [lia|].
      intros e He. rewrite Forall_forall in Hok. apply Hok in He.
      unfold span_ok in He. lia. }
    pose proof (tag_loop_stream [] Hc) as H.
    destruct (fold_left (tag_step txt) spans ([], 0)) as [result last_pos].
    rewrite text_stream_app. unfold text_stream at 2, join. simpl.
    rewrite app_nil_r, H. unfold text_stream, join. simpl.
    apply py_slice_from_0. }
  split; [|split; [exact Hstream|reflexivity]].
  destruct spans as [|e spans']; [|reflexivity].
  unfold tag_text, tag_segments, join. simpl.
  now rewrite py_slice_from_0, app_nil_r.
Qed.

Lemma C1_round_trip_witness :
  text_stream (tag_segments txt_C1 spans_C1) = txt_C1
  /\ tag_text txt_C1 spans_C1
     = str "The loss was <Tag id=" ++ [dquote]
         ++ str "Financial_Amount_Placeholder" ++ [dquote]
         ++ str ">$11,459</Tag> in <Tag id=" ++ [dquote]
         ++ str "Date_Placeholder" ++ [dquote] ++ str ">2023</Tag>.".
Proof.
  assert (Hok : Forall span_ok spans_C1)
    by (repeat constructor; unfold span_ok; simpl; lia).
  assert (Hs : Sorted start_le spans_C1)
    by (repeat constructor; unfold start_le; simpl; lia).
  assert (Hd : ForallOrdPairs no_overlap spans_C1)
    by (repeat constructor; unfold no_overlap; simpl; lia).
  assert (Ht : Forall (text_ok txt_C1) spans_C1)
    by (repeat constructor).
  destruct (C1_round_trip Hok Hs Hd Ht) as (_ & H & _).
  split; [exact H|reflexivity].
Defined.

(** ** The state of the scan *)

Lemma scan_app l1 l2 : forall last_end,
  Spec.scan last_end (l1 ++ l2)
  = Spec.scan last_end l1 ++ Spec.scan (scan_end last_end l1) l2.
Proof.
  induction l1 as [|x l1 IH]; intros last_end; simpl; [reflexivity|].
  destruct (start x >=? last_end); simpl; now rewrite IH.
Qed.

(** [last_end] never decreases, and it ends up behind the start of every
    candidate that was scanned. *)
Lemma scan_end_covers l : forall last_end,
  Forall span_ok l ->
  last_end <= scan_end last_end l
  /\ forall x, In x l -> start x < scan_end last_end l.
Proof.
  induction l as [|c l IH]; intros last_end Hok; simpl.
  - split; [lia|tauto].
  - inversion Hok as [|? ? Hc Hl]; subst. unfold span_ok in Hc.
    destruct (IH (if start c >=? last_end then end_ c else last_end) Hl)
      as [Hmono Hcov].
    destruct (start c >=? last_end) eqn:E.
    + apply Z.geb_le in E. split; [lia|].
      intros x [->|Hx]; [lia|now apply Hcov].
    + rewrite Z.geb_leb in E. apply Z.leb_gt in E. split; [lia|].
      intros x [->|Hx]; [lia|now apply Hcov].
Qed.

(** [last_end] is the initial value or the end of an accepted span that
    covers up to it. *)
Lemma scan_end_origin l : forall last_end,
  scan_end last_end l = last_end
  \/ exists c, In c (Spec.scan last_end l) /\ scan_end last_end l = end_ c.
Proof.
  induction l as [|x l IH]; intros last_end; simpl; [now left|].
  destruct (start x >=? last_end).
  - right. destruct (IH (end_ x)) as [H|(c & Hc & H)].
    + exists x. split; [now left|exact H].
    + exists c. split; [now right|exact H].
  - apply IH.
Qed.

(** An accepted span was accepted somewhere: [last_end] was not behind its
    start when the scan reached it. *)
Lemma scan_In_split b l : forall last_end,
  In b (Spec.scan last_end l) ->
  exists l1 l2, l = l1 ++ b :: l2 /\ scan_end last_end l1 <= start b.
Proof.
  induction l as [|x l IH]; intros last_end; simpl; [tauto|].
  destruct (start x >=? last_end) eqn:E.
  - intros [->|H].
    + exists [], l. split; [reflexivity|]. simpl. now apply Z.geb_le.
    + destruct (IH _ H) as (l1 & l2 & -> & Hle).
      exists (x :: l1), l2. split; [reflexivity|]. simpl. now rewrite E.
  - intros H. destruct (IH _ H) as (l1 & l2 & -> & Hle).
    exists (x :: l1), l2. split; [reflexivity|]. simpl. now rewrite E.
Qed.

Lemma StronglySorted_app_inv {A : Type} (R : A -> A -> Prop) l1 x l2 :
  StronglySorted R (l1 ++ x :: l2) ->
  (forall y, In y l1 -> R y x) /\ (forall y, In y l2 -> R x y).
Proof.
  induction l1 as [|z l1 IH]; simpl; intros H.
  - inversion H as [|? ? _ Hall]; subst. rewrite Forall_forall in Hall.
    split; [tauto|exact Hall].
  - inversion H as [|? ? Hs Hall]; subst. destruct (IH Hs) as [IH1 IH2].
    split; [|exact IH2].
    intros y [->|Hy]; [|now apply IH1].
    rewrite Forall_forall in Hall. apply Hall, in_elt.
Qed.

(** Of two candidates with the same start, the one of lower priority is
    never accepted. *)
Lemma same_start_lower_rejected pool a b :
  Forall span_ok pool -> In a pool -> In b pool ->
  start a = start b -> priority b < priority a ->
  ~ In b (_remove_overlaps pool).
Proof.
  intros Hok Ha Hb Hstart Hprio Hout.
  rewrite remove_overlaps_resolve in Hout. unfold Spec.resolve in Hout.
  destruct (scan_In_split _ _ _ Hout) as (l1 & l2 & Hl & Hle).
  pose proof (sort_candidates_sorted pool) as Hs. rewrite Hl in Hs.
  assert (Hok' : Forall span_ok (l1 ++ b :: l2)).
  { rewrite <- Hl. apply py_sorted_Forall, Hok. }
  assert (Ha' : In a (l1 ++ b :: l2)).
  { rewrite <- Hl. apply py_sorted_In, Ha. }
  assert (Hab : Spec.before a b = true).
  { unfold Spec.before. rewrite Hstart, Z.ltb_irrefl, Z.eqb_refl. simpl.
    apply Bool.orb_true_iff. left. rewrite Z.gtb_ltb. now apply Z.ltb_lt. }
  apply in_app_or in Ha' as [Ha'|[Ha'|Ha']].
  - apply Forall_app in Hok' as [Hok1 _].
    destruct (scan_end_covers (-1) Hok1) as [_ Hcov].
    specialize (Hcov a Ha'). lia.
  - subst b. lia.
  - destruct (StronglySorted_app_inv _ _ _ Hs) as [_ H2].
    specialize (H2 a Ha'). cbv beta in H2. congruence.
Qed.

(** A candidate is accepted unless an accepted span covers its start. *)
Lemma accepted_or_covered pool a :
  Forall span_ok pool -> In a pool ->
  In a (_remove_overlaps pool)
  \/ exists c, In c (_remove_overlaps pool)
               /\ start c <= start a < end_ c.
Proof.
  intros Hok Ha. rewrite remove_overlaps_resolve. unfold Spec.resolve.
  pose proof (sort_candidates_sorted pool) as Hs.
  assert (Hok' : Forall span_ok (Spec.sort_candidates pool))
    by (apply py_sorted_Forall, Hok).
  assert (Ha' : In a (Spec.sort_candidates pool))
    by (apply py_sorted_In, Ha).
  destruct (in_split _ _ Ha') as (l1 & l2 & Hl). rewrite Hl in *.
  rewrite scan_app. simpl.
  destruct (start a >=? scan_end (-1) l1) eqn:E.
  - left. apply in_or_app. right. now left.
  - right. rewrite Z.geb_leb in E. apply Z.leb_gt in E.
    assert (Hsa : span_ok a).
    { rewrite Forall_forall in Hok'. apply Hok', in_elt. }
    unfold span_ok in Hsa.
    destruct (scan_end_origin l1 (-1)) as [H|(c & Hc & H)]; [lia|].
    exists c. split; [apply in_or_app; now left|].
    destruct (StronglySorted_app_inv _ _ _ Hs) as [H1 _].
    specialize (H1 c (scan_In _ _ _ Hc)). cbv beta in H1.
    apply before_false_start_le in H1. lia.
Qed.

(** A pool of two overlapping candidates in which the one of higher
    priority starts first or at the same place. *)
Lemma two_candidates a b :
  span_ok a -> span_ok b -> overlapping a b ->
  priority b < priority a -> start a <= start b ->
  _remove_overlaps [a; b] = [a] /\ _remove_overlaps [b; a] = [a].
Proof.
  unfold span_ok, overlapping. intros Ha Hb Hov Hprio Hstart.
  assert (Hab : Spec.before a b = true).
  { unfold Spec.before. rewrite Z.gtb_ltb.
    destruct (Z.eq_dec (start a) (start b)) as [E|E].
    - rewrite E, Z.ltb_irrefl, Z.eqb_refl. simpl.
      apply Bool.orb_true_iff. left. now apply Z.ltb_lt.
    - apply Bool.orb_true_iff. left. apply Z.ltb_lt. lia. }
  pose proof (before_asym _ _ Hab) as Hba.
  assert (Hacc : (start a >=? -1) = true) by (apply Z.geb_le; lia).
  assert (Hrej : (start b >=? end_ a) = false)
    by (rewrite Z.geb_leb; apply Z.leb_gt; lia).
  rewrite !remove_overlaps_resolve.
  unfold Spec.resolve, Spec.sort_candidates. simpl.
  rewrite Hab, Hba. simpl. now rewrite Hacc, Hrej.
Qed.

(** ** C4 *)

(** C4 as stated fails.  In the pool the extractors produce for a
    paragraph in which a general date starts in front of an address, the
    two candidates overlap, the address has the higher priority, and the
    resolver keeps the date and drops the address. *)
Lemma C4_priority_dominance_counterexample :
  ~ (forall pool a b,
        Forall span_ok pool -> In a pool -> In b pool ->
        overlapping a b -> priority b < priority a ->
        In a (_remove_overlaps pool)).
Proof.
  intros H.
  assert (Hpool : _extract_addresses txt_C4 ++ _extract_dates txt_C4
                  = [address_C4; date_C4]) by (vm_compute; reflexivity).
  specialize (H (_extract_addresses txt_C4 ++ _extract_dates txt_C4)
                address_C4 date_C4).
  rewrite Hpool in H.
  assert (Hin : In address_C4 (_remove_overlaps [address_C4; date_C4])).
  { apply H.
    - repeat constructor; unfold span_ok; simpl; lia.
    - now left.
    - right. now left.
    - unfold overlapping. simpl. lia.
    - simpl. lia. }
  vm_compute in Hin. destruct Hin as [Hin|[]]. discriminate Hin.
Qed.

(** C4, amended (priority dominance).  In every candidate pool of spans
    with [0 <= start < end], whatever the insertion order: of two
    candidates of different priority with the same start the one of lower
    priority is never in the output; every candidate is in the output
    unless an accepted span covers its start; and from a pool of just two
    overlapping candidates of different priority, the one of higher
    priority starting first or at the same place, the output is exactly the
    candidate of higher priority. *)
Theorem C4_priority_dominance :
  (forall pool a b,
      Forall span_ok pool -> In a pool -> In b pool ->
      start a = start b -> priority b < priority a ->
      ~ In b (_remove_overlaps pool))
  /\ (forall pool a,
        Forall span_ok pool -> In a pool ->
        In a (_remove_overlaps pool)
        \/ exists c, In c (_remove_overlaps pool)
                     /\ start c <= start a < end_ c)
  /\ (forall a b,
        span_ok a -> span_ok b -> overlapping a b ->
        priority b < priority a -> start a <= start b ->
        _remove_overlaps [a; b] = [a] /\ _remove_overlaps [b; a] = [a]).
Proof.
  split; [exact same_start_lower_rejected|].
  split; [exact accepted_or_covered|exact two_candidates].
Qed.

Lemma C4_priority_dominance_witness :
  ~ In full_date_C4
      (_remove_overlaps [year_C4; full_date_C4; incorporation_C4])
  /\ (In address_C4 (_remove_overlaps [address_C4; date_C4])
      \/ exists c, In c (_remove_overlaps [address_C4; date_C4])
                   /\ start c <= start address_C4 < end_ c)
  /\ _remove_overlaps [incorporation_C4; year_C4] = [incorporation_C4]
  /\ _remove_overlaps [year_C4; incorporation_C4] = [incorporation_C4].
Proof.
  destruct C4_priority_dominance as (H1 & H2 & H3).
  split; [|split].
  - apply (H1 [year_C4; full_date_C4; incorporation_C4]
              incorporation_C4 full_date_C4).
    + repeat constructor; unfold span_ok; simpl; lia.
    + right. right. now left.
    + right. now left.
    + reflexivity.
    + simpl. lia.
  - apply (H2 [address_C4; date_C4] address_C4).
    + repeat constructor; unfold span_ok; simpl; lia.
    + now left.
  - apply (H3 incorporation_C4 year_C4).
    + unfold span_ok; simpl; lia.
    + unfold span_ok; simpl; lia.
    + unfold overlapping; simpl; lia.
    + simpl. lia.
    + simpl. lia.
Defined.

(** ** The matcher and the relation it decides *)

Section MatcherFacts.
Variable t : pystr.

Lemma matches_bounds r i j :
  matches t r i j ->
  (i <= j)%nat /\ ((i < j)%nat -> (j <= List.length t)%nat).
Proof.
  induction 1; try lia.
  assert (i < List.length t)%nat by (apply nth_error_Some; congruence).
  lia.
Qed.

Section Soundness.
Context {R : Type}.
Implicit Types (k : @cont R) (x : R).

Lemma star_loop_sound (r : regex) greedy
    (body : nat -> groups -> @cont R -> option R) :
  (forall i g k x, body i g k = Some x ->
                   exists j g', matches t r i j /\ k j g' = Some x) ->
  forall fuel i g k x,
    star_loop body greedy fuel i g k = Some x ->
    exists j g', matches t (Star greedy r) i j /\ k j g' = Some x.
Proof.
  intros Hbody. induction fuel as [|fuel IH]; intros i g k x; simpl.
  - intros H. exists i, g. split; [constructor|exact H].
  - assert (Hiter :
      body i g (fun j g' =>
                  if (i <? j)%nat
                  then star_loop body greedy fuel j g' k else None)
      = Some x ->
      exists j g', matches t (Star greedy r) i j /\ k j g' = Some x).
    { intros H. apply Hbody in H as (j & g' & Hm & H).
      destruct (i <? j)%nat eqn:E; [|discriminate].
      apply Nat.ltb_lt in E.
      apply IH in H as (j' & g'' & Hm' & H).
      exists j', g''. split; [|exact H].
      eapply M_StarS; eassumption. }
    assert (Hstop : k i g = Some x ->
      exists j g', matches t (Star greedy r) i j /\ k j g' = Some x).
    { intros H. exists i, g. split; [constructor|exact H]. }
    destruct greedy.
    + destruct (body i g _) eqn:E; intros H.
      * inversion H; subst. now apply Hiter.
      * now apply Hstop.
    + destruct (k i g) eqn:E; intros H.
      * inversion H; subst. now apply Hstop.
      * now apply Hiter.
Qed.

(** A result of the matcher comes from a match of the pattern. *)
Lemma m_sound r : forall i g k x,
  m t r i g k = Some x ->
  exists j g', matches t r i j /\ k j g' = Some x.
Proof.
  induction r as [|p|r1 IH1 r2 IH2|r1 IH1 r2 IH2|greedy r IH|n r IH| |];
    intros i g k x; simpl.
  - intros H. exists i, g. split; [constructor|exact H].
  - destruct (nth_error t i) as [c|] eqn:E; [|discriminate].
    destruct (p c) eqn:Ep; [|discriminate].
    intros H. exists (S i), g. split; [|exact H].
    econstructor; eassumption.
  - intros H. apply IH1 in H as (j & g' & Hm1 & H).
    apply IH2 in H as (j' & g'' & Hm2 & H).
    exists j', g''. split; [|exact H]. econstructor; eassumption.
  - destruct (m t r1 i g k) eqn:E; intros H.
    + inversion H; subst. apply IH1 in E as (j & g' & Hm & E).
      exists j, g'. split; [|exact E]. now apply M_AltL.
    + apply IH2 in H as (j & g' & Hm & H).
      exists j, g'. split; [|exact H]. now apply M_AltR.
  - apply star_loop_sound. exact IH.
  - intros H. apply IH in H as (j & g' & Hm & H).
    exists j, ((n, (i, j)) :: g'). split; [|exact H]. now constructor.
  - destruct (i =? 0)%nat eqn:E; [|discriminate].
    apply Nat.eqb_eq in E. subst i.
    intros H. exists 0%nat, g. split; [constructor|exact H].
  - destruct (at_boundary t i) eqn:E; [|discriminate].
    intros H. exists i, g. split; [now constructor|exact H].
Qed.

Lemma star_loop_complete (r : regex) greedy
    (body : nat -> groups -> @cont R -> option R) :
  (forall i j, matches t r i j ->
               forall g k, (forall g', k j g' <> None) -> body i g k <> None) ->
  forall fuel i j,
    matches t (Star greedy r) i j ->
    (List.length t - i <= fuel)%nat ->
    forall g k, (forall g', k j g' <> None) ->
                star_loop body greedy fuel i g k <> None.
Proof.
  intros Hbody. induction fuel as [|fuel IH]; intros i j Hm Hfuel g k Hk.
  - simpl. inversion Hm as [| | | | |? ? ?|? ? ? j' ? Hr Hlt Hrest| | |];
      subst; [apply Hk|].
    apply matches_bounds in Hr. lia.
  - simpl.
    inversion Hm as [| | | | |? ? ?|? ? ? j' ? Hr Hlt Hrest| | |]; subst.
    + destruct greedy.
      * destruct (body j g _); [discriminate|apply Hk].
      * destruct (k j g) eqn:E; [discriminate|]. now apply Hk in E.
    + assert (Hiter :
        body i g (fun j0 g' =>
                    if (i <? j0)%nat
                    then star_loop body greedy fuel j0 g' k else None)
        <> None).
      { apply (Hbody i j' Hr). intros g'.
        apply Nat.ltb_lt in Hlt as Hlt'. rewrite Hlt'.
        apply (IH j' j Hrest); [lia|exact Hk]. }
      destruct greedy.
      * destruct (body i g _); [discriminate|contradiction].
      * destruct (k i g); [discriminate|exact Hiter].
Qed.

(** Where the pattern has a match after which the rest succeeds, the
    matcher finds a result. *)
Lemma m_complete r : forall i j,
  matches t r i j ->
  forall g k, (forall g', k j g' <> None) -> m t r i g k <> None.
Proof.
  induction r as [|p|r1 IH1 r2 IH2|r1 IH1 r2 IH2|greedy r IH|n r IH| |];
    intros i j Hm g k Hk; simpl.
  - inversion Hm; subst. apply Hk.
  - inversion Hm as [|? ? c Hc Hp| | | | | | | |]; subst.
    rewrite Hc, Hp. apply Hk.
  - inversion Hm as [| |? ? ? j' ? H1 H2| | | | | | |]; subst.
    apply (IH1 i j' H1). intros g'. now apply (IH2 j' j H2).
  - inversion Hm as [| | |? ? ? ? H1|? ? ? ? H2| | | | |]; subst.
    + specialize (IH1 i j H1 g k Hk).
      destruct (m t r1 i g k); [discriminate|contradiction].
    + destruct (m t r1 i g k); [discriminate|].
      now apply (IH2 i j H2).
  - apply (@star_loop_complete r greedy (m t r) IH _ i j Hm);
      [lia|exact Hk].
  - inversion Hm as [| | | | | | |? ? ? ? H1| |]; subst.
    apply (IH i j H1). intros g'. apply Hk.
  - inversion Hm; subst. simpl. apply Hk.
  - inversion Hm as [| | | | | | | | |? Hb]; subst. rewrite Hb. apply Hk.
Qed.
End Soundness.

(** [match_at] yields a match object exactly where the pattern matches. *)
Lemma match_at_sound r i s e g :
  match_at t r i = Some (s, e, g) -> s = i /\ matches t r i e.
Proof.
  unfold match_at. intros H. apply m_sound in H as (j & g' & Hm & H).
  inversion H; subst. now split.
Qed.

Lemma match_at_complete r i j :
  matches t r i j -> match_at t r i <> None.
Proof.
  intros Hm. unfold match_at. eapply m_complete; [exact Hm|]. discriminate.
Qed.

Lemma match_at_None r i :
  (forall j, ~ matches t r i j) -> match_at t r i = None.
Proof.
  intros H. destruct (match_at t r i) as [[[s e] g]|] eqn:E; [|reflexivity].
  apply match_at_sound in E as [_ E]. now apply H in E.
Qed.

(** The search and the iteration *)

Lemma search_from_sound r : forall fuel p s e g,
  search_from t r fuel p = Some (s, e, g) ->
  (p <= s)%nat /\ matches t r s e.
Proof.
  induction fuel as [|fuel IH]; intros p s e g; simpl.
  - destruct (match_at t r p) as [[[s' e'] g']|] eqn:E; [|discriminate].
    intros H. inversion H; subst.
    apply match_at_sound in E as [-> E]. split; [lia|exact E].
  - destruct (match_at t r p) as [[[s' e'] g']|] eqn:E.
    + intros H. inversion H; subst.
      apply match_at_sound in E as [-> E]. split; [lia|exact E].
    + intros H. apply IH in H as [H1 H2]. split; [lia|exact H2].
Qed.

Lemma search_from_hit r fuel p x :
  match_at t r p = Some x -> search_from t r fuel p = Some x.
Proof. intros H. destruct fuel; simpl; now rewrite H. Qed.

Lemma search_from_None_from r lo :
  (forall i j, (lo <= i)%nat -> ~ matches t r i j) ->
  forall fuel p, (lo <= p)%nat -> search_from t r fuel p = None.
Proof.
  intros H. induction fuel as [|fuel IH]; intros p Hp; simpl;
    rewrite match_at_None by (intros j; now apply H);
    [reflexivity|apply IH; lia].
Qed.


Lemma finditer_from_None_from r lo :
  (forall i j, (lo <= i)%nat -> ~ matches t r i j) ->
  forall fuel p, (lo <= p)%nat -> finditer_from t r fuel p = [].
Proof.
  intros H fuel p Hp. destruct fuel as [|fuel]; simpl; [reflexivity|].
  destruct (List.length t <? p)%nat; [reflexivity|].
  now rewrite search_from_None_from with (lo := lo) by assumption.
Qed.

Lemma finditer_from_sound r : forall fuel p,
  Forall (fun '(s, e, _) => (p <= s)%nat /\ matches t r s e)
    (finditer_from t r fuel p).
Proof.
  induction fuel as [|fuel IH]; intros p; simpl; [constructor|].
  destruct (List.length t <? p)%nat; [constructor|].
  destruct (search_from t r (List.length t - p) p) as [[[s e] g]|] eqn:E;
    [|constructor].
  apply search_from_sound in E as [Hps Hm]. constructor; [now split|].
  eapply Forall_impl; [|apply IH].
  intros [[s' e'] g'] [Hle Hm']. split; [|exact Hm'].
  apply matches_bounds in Hm as [Hse _].
  destruct (s <? e)%nat; lia.
Qed.

Lemma re_finditer_sound r :
  Forall (fun '(s, e, _) => matches t r s e) (re_finditer t r).
Proof.
  unfold re_finditer. eapply Forall_impl; [|apply finditer_from_sound].
  intros [[s e] g] [_ H]. exact H.
Qed.

End MatcherFacts.

(** ** What a pattern can begin with *)

Lemma In_all_ascii c : In c all_ascii.
Proof.
  unfold all_ascii. rewrite <- (ascii_nat_embedding c).
  apply in_map, in_seq. pose proof (nat_ascii_bounded c). lia.
Qed.

Lemma class_within_spec p q c :
  class_within p q = true -> p c = true -> q c = true.
Proof.
  unfold class_within. rewrite forallb_forall. intros H Hp.
  specialize (H c (In_all_ascii c)). now rewrite Hp in H.
Qed.

Lemma zero_width_matches t r i j :
  matches t r i j -> zero_width r = true -> j = i.
Proof.
  induction 1; simpl; intros Hz; try discriminate; try reflexivity;
    try (apply Bool.andb_true_iff in Hz as [Hz1 Hz2]); auto.
  rewrite IHmatches2 by assumption. auto.
Qed.

Lemma first_in_matches q t r i j :
  matches t r i j -> first_in q r = true ->
  (i < j)%nat /\ exists c, nth_error t i = Some c /\ q c = true.
Proof.
  induction 1 as [|p i c Hc Hp|r1 r2 i j k H1 IH1 H2 IH2|r1 r2 i j H1 IH1
                  |r1 r2 i j H2 IH2| | |n r i j H1 IH1| |];
    simpl; intros Hf; try discriminate.
  - split; [lia|]. exists c. split; [exact Hc|].
    eapply class_within_spec; eassumption.
  - apply Bool.orb_true_iff in Hf as [Hf|Hf].
    + destruct (IH1 Hf) as [Hlt Hc]. split; [|exact Hc].
      apply matches_bounds in H2. lia.
    + apply Bool.andb_true_iff in Hf as [Hz Hf].
      rewrite (zero_width_matches H1 Hz) in *. now apply IH2.
  - apply Bool.andb_true_iff in Hf as [Hf _]. now apply IH1.
  - apply Bool.andb_true_iff in Hf as [_ Hf]. now apply IH2.
  - now apply IH1.
Qed.

(** A pattern that has to begin with a character of [q] has no match in a
    text without such a character from [lo] on. *)
Lemma first_in_no_match q t r lo :
  first_in q r = true ->
  (forall i c, (lo <= i)%nat -> nth_error t i = Some c -> q c = false) ->
  forall i j, (lo <= i)%nat -> ~ matches t r i j.
Proof.
  intros Hf Ht i j Hi Hm.
  destruct (first_in_matches q Hm Hf) as (_ & c & Hc & Hq).
  rewrite (Ht i c Hi Hc) in Hq. discriminate.
Qed.


(** ** Substrings and the words of a pattern *)

Lemma substr_nil t i : substr t i i = [].
Proof. unfold substr. now rewrite Nat.sub_diag. Qed.

Lemma skipn_nth_error {A : Type} (l : list A) : forall i c,
  nth_error l i = Some c -> skipn i l = c :: skipn (S i) l.
Proof.
  induction l as [|x l IH]; intros [|i] c H; simpl in *; try discriminate.
  - now inversion H.
  - now apply IH.
Qed.

Lemma substr_one t i c : nth_error t i = Some c -> substr t i (S i) = [c].
Proof.
  intros H. unfold substr. rewrite (skipn_nth_error _ _ H).
  replace (S i - i)%nat with 1%nat by lia. reflexivity.
Qed.

Lemma firstn_plus {A : Type} (l : list A) : forall a b,
  firstn (a + b) l = firstn a l ++ firstn b (skipn a l).
Proof.
  induction l as [|x l IH]; intros [|a] b; simpl;
    rewrite ?firstn_nil; try reflexivity.
  now rewrite IH.
Qed.

Lemma substr_app t i j k :
  (i <= j <= k)%nat -> substr t i k = substr t i j ++ substr t j k.
Proof.
  intros H. unfold substr.
  replace (k - i)%nat with ((j - i) + (k - j))%nat by lia.
  rewrite firstn_plus, skipn_skipn.
  now replace (j - i + i)%nat with j by lia.
Qed.

Lemma matches_lang t r i j : matches t r i j -> lang r (substr t i j).
Proof.
  induction 1 as [|p i c Hc Hp|r1 r2 i j k H1 IH1 H2 IH2| | | |
                  greedy r i j k H1 IH1 Hlt H2 IH2| | |].
  - rewrite substr_nil. constructor.
  - rewrite (substr_one _ _ Hc). now constructor.
  - apply matches_bounds in H1 as [? _]. apply matches_bounds in H2 as [? _].
    rewrite (@substr_app t i j k) by lia. now constructor.
  - now apply L_AltL.
  - now apply L_AltR.
  - rewrite substr_nil. constructor.
  - apply matches_bounds in H1 as [? _]. apply matches_bounds in H2 as [? _].
    rewrite (@substr_app t i j k) by lia. now apply L_StarS.
  - now constructor.
  - rewrite substr_nil. constructor.
  - rewrite substr_nil. constructor.
Qed.

(** ** The capturing groups of a match *)

Section GroupFacts.
Variable t : pystr.
Context {R : Type}.
Implicit Types (k : @cont R) (x : R).

(** What a successful run hands to its continuation: groups that keep
    every earlier binding. *)
Lemma star_loop_groups greedy (body : nat -> groups -> @cont R -> option R) :
  (forall i g k x, body i g k = Some x ->
     exists j g', k j g' = Some x
                  /\ forall n, bound n g -> bound n g') ->
  forall fuel i g k x,
    star_loop body greedy fuel i g k = Some x ->
    exists j g', k j g' = Some x /\ forall n, bound n g -> bound n g'.
Proof.
  intros Hbody. induction fuel as [|fuel IH]; intros i g k x; simpl.
  - intros H. exists i, g. split; [exact H|auto].
  - assert (Hiter :
      body i g (fun j g' =>
                  if (i <? j)%nat
                  then star_loop body greedy fuel j g' k else None)
      = Some x ->
      exists j g', k j g' = Some x /\ forall n, bound n g -> bound n g').
    { intros H. apply Hbody in H as (j & g' & H & Hg).
      destruct (i <? j)%nat; [|discriminate].
      apply IH in H as (j' & g'' & H & Hg').
      exists j', g''. split; [exact H|]. auto. }
    assert (Hstop : k i g = Some x ->
      exists j g', k j g' = Some x /\ forall n, bound n g -> bound n g').
    { intros H. exists i, g. split; [exact H|auto]. }
    destruct greedy.
    + destruct (body i g _) eqn:E; intros H.
      * inversion H; subst. now apply Hiter.
      * now apply Hstop.
    + destruct (k i g) eqn:E; intros H.
      * inversion H; subst. now apply Hstop.
      * now apply Hiter.
Qed.

Lemma bound_push n n' sp g : bound n g -> bound n ((n', sp) :: g).
Proof.
  unfold bound. simpl. destruct (n' =? n)%nat; [discriminate|auto].
Qed.

Lemma m_groups r : forall i g k x,
  m t r i g k = Some x ->
  exists j g', k j g' = Some x
               /\ (forall n, bound n g -> bound n g')
               /\ (forall n, binds n r = true -> bound n g').
Proof.
  induction r as [|p|r1 IH1 r2 IH2|r1 IH1 r2 IH2|greedy r IH|n0 r IH| |];
    intros i g k x; simpl.
  - intros H. exists i, g. repeat split; [exact H|auto|discriminate].
  - destruct (nth_error t i) as [c|]; [|discriminate].
    destruct (p c); [|discriminate].
    intros H. exists (S i), g. repeat split; [exact H|auto|discriminate].
  - intros H. apply IH1 in H as (j & g' & H & Hk1 & Hb1).
    apply IH2 in H as (j' & g'' & H & Hk2 & Hb2).
    exists j', g''. split; [exact H|]. split; [auto|].
    intros n Hn. apply Bool.orb_true_iff in Hn as [Hn|Hn]; auto.
  - destruct (m t r1 i g k) eqn:E; intros H.
    + inversion H; subst. apply IH1 in E as (j & g' & E & Hk & Hb).
      exists j, g'. split; [exact E|]. split; [exact Hk|].
      intros n Hn. apply Bool.andb_true_iff in Hn as [Hn _]. auto.
    + apply IH2 in H as (j & g' & H & Hk & Hb).
      exists j, g'. split; [exact H|]. split; [exact Hk|].
      intros n Hn. apply Bool.andb_true_iff in Hn as [_ Hn]. auto.
  - intros H. apply star_loop_groups in H as (j & g' & H & Hk).
    + exists j, g'. repeat split; [exact H|exact Hk|discriminate].
    + intros i' g0 k' x' H'. apply IH in H' as (j & g' & H' & Hk & _).
      exists j, g'. now split.
  - intros H. apply IH in H as (j & g' & H & Hk & Hb).
    exists j, ((n0, (i, j)) :: g'). split; [exact H|]. split.
    + intros n Hn. apply bound_push. auto.
    + intros n Hn. apply Bool.orb_true_iff in Hn as [Hn|Hn].
      * unfold bound. simpl. now rewrite Hn.
      * apply bound_push. auto.
  - destruct (i =? 0)%nat; [|discriminate].
    intros H. exists i, g. repeat split; [exact H|auto|discriminate].
  - destruct (at_boundary t i); [|discriminate].
    intros H. exists i, g. repeat split; [exact H|auto|discriminate].
Qed.
End GroupFacts.

(** A match object of a pattern that passes through group [n] has a span
    for it. *)
Lemma match_at_bound t r n i s e g :
  binds n r = true -> match_at t r i = Some (s, e, g) -> bound n g.
Proof.
  unfold match_at. intros Hb H.
  apply m_groups in H as (j & g' & H & _ & Hn). inversion H; subst. auto.
Qed.

Lemma search_from_bound t r n : forall fuel p s e g,
  binds n r = true -> search_from t r fuel p = Some (s, e, g) -> bound n g.
Proof.
  induction fuel as [|fuel IH]; intros p s e g Hb; simpl;
    destruct (match_at t r p) as [[[s' e'] g']|] eqn:E; intros H.
  - inversion H; subst. eapply match_at_bound; eassumption.
  - discriminate.
  - inversion H; subst. eapply match_at_bound; eassumption.
  - eapply IH; eassumption.
Qed.

Lemma finditer_from_bound t r n :
  binds n r = true ->
  forall fuel p, Forall (fun '(_, _, g) => bound n g) (finditer_from t r fuel p).
Proof.
  intros Hb. induction fuel as [|fuel IH]; intros p; simpl; [constructor|].
  destruct (List.length t <? p)%nat; [constructor|].
  destruct (search_from t r (List.length t - p) p) as [[[s e] g]|] eqn:E;
    [|constructor].
  constructor; [|apply IH]. eapply search_from_bound; eassumption.
Qed.

(** Group 1 takes part in every match of the three patterns whose
    extractors read it, and no pattern of the extractors matches the empty
    string. *)
Lemma patterns_bind_group_1 :
  binds 1 Patterns.INCORPORATION_CONTEXT = true
  /\ binds 1 Patterns.TRADING_SYMBOL_PATTERN = true
  /\ binds 1 COMPANY_START_PATTERN = true.
Proof. repeat split. Qed.

Lemma nonspace_pattern_consumes t r i j :
  first_in nonspace r = true -> matches t r i j -> (i < j)%nat.
Proof. intros Hf Hm. now destruct (first_in_matches nonspace Hm Hf). Qed.

(** ** Empty and white-space input: the regex and dictionary extractors *)


(** Every pattern of the extractors has to begin with a character that is
    not white space. *)
Lemma patterns_start_nonspace :
  first_in nonspace Patterns.INCORPORATION_CONTEXT = true
  /\ first_in nonspace Patterns.ADDRESS_PATTERN = true
  /\ first_in nonspace Patterns.TRADING_SYMBOL_PATTERN = true
  /\ first_in nonspace COMPANY_START_PATTERN = true
  /\ first_in nonspace Patterns.AMOUNT_PATTERN = true
  /\ forallb (fun '(concept, _) => first_in nonspace (concept_pattern concept))
       FINANCIAL_CONCEPTS = true
  /\ forallb (first_in nonspace) Patterns.DATE_PATTERNS = true.
Proof. vm_compute. repeat split. Qed.


(** ** C5 *)

(** C5, the code on the input of scenario 1.  The text has no
    [was incorporated], so the incorporation-date extractor finds nothing;
    the general-date extractor finds the full date, the year inside it and
    the year at the end; the resolver suppresses the year inside the date,
    and two spans of class general date are accepted, by the two extractors
    of the edge-case test and by [extract_entities] alike. *)
Theorem C5_scenario_1_evaluation :
  _extract_incorporation_dates txt_C5 = []
  /\ _extract_dates txt_C5
     = [mkEntity 16 32 TAG_IDS.date (str "January 24, 2011") 50;
        mkEntity 28 32 TAG_IDS.date (str "2011") 50;
        mkEntity 45 49 TAG_IDS.date (str "2011") 50]
  /\ _remove_overlaps (_extract_incorporation_dates txt_C5 ++ _extract_dates txt_C5)
     = accepted_C5
  /\ (forall st, extract_entities (regex_only_tagger st) txt_C5
                 = Ok (accepted_C5, regex_only_tagger st)).
Proof.
  split; [vm_compute; reflexivity|].
  split; [vm_compute; reflexivity|].
  split; [vm_compute; reflexivity|].
  intros [a b c]. vm_compute. reflexivity.
Qed.

(** ** C8 *)

Lemma select_by_missing_attr value entities :
  NER.select_by_attr "label_" value entities
  = match entities with
    | [] => Ok []
    | _ :: _ => Raise (AttributeError "NEREntity" "label_")
    end.
Proof. destruct entities; reflexivity. Qed.

(** C8, the code on any input.  [extract_organizations] returns the empty
    list when [extract_entities] finds nothing, and raises
    [AttributeError] for the attribute [label_] as soon as
    [extract_entities] returns an entity, whatever its label: with the
    sample pipeline, the paragraph of the module's own test has an
    organisation and a region, and the call raises instead of returning the
    organisation. *)
Theorem C8_extract_organizations_evaluation :
  (forall provider txt,
      NER.extract_organizations provider txt
      = match NER.extract_entities provider txt with
        | [] => Ok []
        | _ :: _ => Raise (AttributeError "NEREntity" "label_")
        end)
  /\ NER.extract_entities sample_ner txt_C8 = entities_C8
  /\ NER.extract_organizations sample_ner txt_C8
     = Raise (AttributeError "NEREntity" "label_")
  /\ NER.select_by_attr "label" (PyStr (str "ORG")) entities_C8
     = Ok [mkNEREntity (str "BestCo Ltd.") (str "ORG") 0 11 1].
Proof.
  split; [|repeat split].
  intros provider txt. unfold NER.extract_organizations.
  apply select_by_missing_attr.
Qed.


(** ** C6 *)

Lemma covered_closed subs cur :
  covered (subs, cur)
  = List.concat (map paragraphs subs)
      ++ match cur with Some cs => paragraphs cs | None => [] end.
Proof.
  unfold covered. simpl. destruct cur as [cs|]; simpl.
  - rewrite map_app, concat_app. simpl. now rewrite app_nil_r.
  - now rewrite app_nil_r.
Qed.

Lemma all_nonempty_closed subs cur :
  all_nonempty (subs, cur)
  <-> Forall (fun s => paragraphs s <> []) subs
      /\ match cur with Some cs => paragraphs cs <> [] | None => True end.
Proof.
  unfold all_nonempty. simpl. destruct cur as [cs|]; simpl.
  - rewrite Forall_app. split; intros [H1 H2]; split; auto.
    now inversion H2.
  - tauto.
Qed.

Lemma covered_after_close subs cur extra next :
  covered (close_section subs cur ++ extra, next)
  = covered (subs, cur) ++ List.concat (map paragraphs extra)
      ++ match next with Some cs => paragraphs cs | None => [] end.
Proof.
  rewrite covered_closed, map_app, concat_app, <- app_assoc. reflexivity.
Qed.

Lemma subsection_step_covered st para :
  covered (subsection_step st para) = covered st ++ [para].
Proof.
  destruct st as [subs cur]. unfold subsection_step.
  destruct (is_header (p_text para)).
  - rewrite covered_after_close. simpl. now rewrite ?app_nil_r.
  - destruct (should_start_going_concern (p_text para) && _).
    + rewrite <- (app_nil_r (close_section subs cur)), covered_after_close.
      reflexivity.
    + destruct cur as [cs|]; rewrite !covered_closed; simpl;
        now rewrite ?app_assoc, ?app_nil_r.
Qed.

Lemma subsection_step_nonempty st para :
  all_nonempty st -> all_nonempty (subsection_step st para).
Proof.
  destruct st as [subs cur]. intros H. unfold subsection_step.
  destruct (is_header (p_text para)).
  - apply all_nonempty_closed. split; [|exact I].
    apply Forall_app. split; [exact H|].
    constructor; [discriminate|constructor].
  - destruct (should_start_going_concern (p_text para) && _).
    + apply all_nonempty_closed. split; [exact H|discriminate].
    + apply all_nonempty_closed in H as [H1 H2].
      destruct cur as [cs|]; apply all_nonempty_closed;
        (split; [exact H1|]); simpl; [|discriminate].
      intros E. now apply app_eq_nil in E as [_ E].
Qed.

Lemma subsection_loop paras : forall st,
  covered (fold_left subsection_step paras st) = covered st ++ paras
  /\ (all_nonempty st -> all_nonempty (fold_left subsection_step paras st)).
Proof.
  induction paras as [|p paras IH]; intros st; simpl.
  - now rewrite app_nil_r.
  - destruct (IH (subsection_step st p)) as [IH1 IH2]. split.
    + now rewrite IH1, subsection_step_covered, <- app_assoc.
    + intros H. now apply IH2, subsection_step_nonempty.
Qed.

Lemma detect_subsections_state paras :
  detect_subsections paras
  = close_section (fst (fold_left subsection_step paras ([], None)))
      (snd (fold_left subsection_step paras ([], None))).
Proof.
  unfold detect_subsections.
  now destruct (fold_left subsection_step paras ([], None)).
Qed.

(** C6 (segmentation: total coverage and order).  For every sequence of
    paragraphs, the paragraph sequences of the emitted subsections, put
    one after the other in emission order, are the input sequence -- each
    paragraph sits in one subsection, at its place; every emitted
    subsection has at least one paragraph; and no paragraph gives no
    subsection. *)
Theorem C6_segmentation_coverage (paras : list Paragraph) :
  List.concat (map paragraphs (detect_subsections paras)) = paras
  /\ Forall (fun s => paragraphs s <> []) (detect_subsections paras)
  /\ detect_subsections [] = [].
Proof.
  rewrite detect_subsections_state.
  destruct (subsection_loop paras ([], None)) as [H1 H2].
  split; [exact H1|]. split; [|reflexivity].
  apply H2. constructor.
Qed.

(** ** Header detection *)

Lemma digit_not_stop c : isdecimal c = true -> Ascii.eqb c "."%char = false.
Proof.
  intros H. destruct (Ascii.eqb_spec c "."%char) as [->|]; [|reflexivity].
  vm_compute in H. discriminate.
Qed.

Lemma split1_number ds rest :
  forallb isdecimal ds = true ->
  split1 "."%char (ds ++ "."%char :: rest) = [ds; rest].
Proof.
  induction ds as [|d ds IH]; simpl; intros H; [reflexivity|].
  apply Bool.andb_true_iff in H as [Hd Hds].
  now rewrite (digit_not_stop _ Hd), (IH Hds).
Qed.

Lemma contains_stop ds rest :
  contains (str ".") (ds ++ "."%char :: rest) = true.
Proof.
  induction ds as [|d ds IH]; simpl in *.
  - reflexivity.
  - rewrite IH. apply Bool.orb_true_r.
Qed.

Lemma lang_star_digits greedy w :
  lang (Star greedy digit) w -> forallb isdecimal w = true.
Proof.
  intros H. remember (Star greedy digit) as r eqn:Er.
  induction H as [| | | | | |g r' w1 w2 H1 _ H2 IH2| | |];
    try discriminate; [reflexivity|].
  inversion Er; subst. inversion H1; subst. simpl.
  rewrite IH2 by reflexivity. unfold digit in *.
  match goal with H : isdecimal _ = true |- _ => now rewrite H end.
Qed.

Lemma lang_lit s w : lang (lit false s) w -> w = s.
Proof.
  revert w. induction s as [|c s IH]; intros w H; simpl in H.
  - now inversion H.
  - inversion H as [| |? ? w1 w2 H1 H2| | | | | | |]; subst.
    inversion H1 as [|? x Hx| | | | | | | |]; subst.
    apply Ascii.eqb_eq in Hx. subst x. simpl. f_equal. now apply IH.
Qed.

Lemma header_prefix_lang w :
  lang HEADER_PREFIX_PATTERN w ->
  exists ds, ds <> [] /\ forallb isdecimal ds = true /\ w = ds ++ ["."%char].
Proof.
  unfold HEADER_PREFIX_PATTERN, seqs, Plus. simpl. intros H.
  inversion H as [| |? ? w1 w2 Hbol H2| | | | | | |]; subst.
  inversion Hbol; subst.
  inversion H2 as [| |? ? w3 w4 Hplus H3| | | | | | |]; subst.
  inversion Hplus as [| |? ? w5 w6 Hd Hstar| | | | | | |]; subst.
  inversion Hd as [|? d Hdec| | | | | | | |]; subst.
  inversion H3 as [| |? ? w7 w8 Hlit Heps| | | | | | |]; subst.
  inversion Heps; subst.
  apply (@lang_lit (str ".")) in Hlit. subst w7.
  exists (d :: w6). split; [discriminate|]. split.
  - simpl. now rewrite Hdec, (lang_star_digits Hstar).
  - simpl. now rewrite ?app_nil_r, <- ?app_assoc.
Qed.

Lemma matches_star_digits ds : forall pre rest,
  forallb isdecimal ds = true ->
  matches (pre ++ ds ++ rest) (Star true digit)
    (List.length pre) (List.length pre + List.length ds).
Proof.
  induction ds as [|d ds IH]; intros pre rest H; simpl.
  - rewrite Nat.add_0_r. constructor.
  - apply Bool.andb_true_iff in H as [Hd Hds].
    apply M_StarS with (j := S (List.length pre)); [|lia|].
    + apply M_Chr with (c := d); [|exact Hd].
      rewrite nth_error_app2 by lia. now rewrite Nat.sub_diag.
    + replace (pre ++ d :: ds ++ rest) with ((pre ++ [d]) ++ ds ++ rest)
        by (now rewrite <- app_assoc).
      replace (S (List.length pre)) with (List.length (pre ++ [d]))
        by (rewrite length_app; simpl; lia).
      replace (List.length pre + S (List.length ds))%nat
        with (List.length (pre ++ [d]) + List.length ds)%nat
        by (rewrite length_app; simpl; lia).
      now apply IH.
Qed.

Lemma header_prefix_matches ds rest :
  ds <> [] -> forallb isdecimal ds = true ->
  matches (ds ++ "."%char :: rest) HEADER_PREFIX_PATTERN 0
    (S (List.length ds)).
Proof.
  intros Hne Hds. destruct ds as [|d ds]; [contradiction|].
  simpl in Hds. apply Bool.andb_true_iff in Hds as [Hd Hds].
  unfold HEADER_PREFIX_PATTERN, seqs, Plus. simpl.
  apply M_Seq with (j := 0%nat); [constructor|].
  apply M_Seq with (j := S (List.length ds)).
  - apply M_Seq with (j := 1%nat).
    + apply M_Chr with (c := d); [reflexivity|exact Hd].
    + apply (@matches_star_digits ds [d] ("."%char :: rest) Hds).
  - apply M_Seq with (j := S (S (List.length ds))); [|constructor].
    apply M_Seq with (j := S (S (List.length ds))); [|constructor].
    apply M_Chr with (c := "."%char); [|reflexivity].
    change (d :: ds ++ "."%char :: rest)
      with ((d :: ds) ++ "."%char :: rest).
    rewrite nth_error_app2 by (simpl; lia).
    simpl. now rewrite Nat.sub_diag.
Qed.

Lemma count_if_le p t : 0 <= count_if p t <= len t.
Proof.
  unfold count_if, len. pose proof (filter_length_le p t). lia.
Qed.

Lemma ratio_above_half_spec content :
  ratio_above_half (count_if isupper content) (len content) = true
  <-> Spec.mostly_upper content.
Proof.
  unfold ratio_above_half, Spec.mostly_upper. rewrite Z.ltb_lt.
  pose proof (count_if_le isupper content). lia.
Qed.

(** The prefix test of [is_header] and what it leaves as content. *)
Lemma is_header_number txt ds rest :
  strip txt = ds ++ "."%char :: rest ->
  ds <> [] -> forallb isdecimal ds = true ->
  is_header txt
  = ratio_above_half (count_if isupper (strip rest)) (len (strip rest)).
Proof.
  intros Hs Hne Hds. unfold is_header. rewrite Hs.
  destruct (re_match _ HEADER_PREFIX_PATTERN) eqn:E.
  - now rewrite contains_stop, split1_number.
  - exfalso. revert E. apply match_at_complete with (j := S (List.length ds)).
    now apply header_prefix_matches.
Qed.

Lemma is_header_prefix txt :
  is_header txt = true -> exists rest, Spec.number_prefix (strip txt) rest.
Proof.
  unfold is_header.
  destruct (re_match (strip txt) HEADER_PREFIX_PATTERN) as [[[s e] g]|] eqn:E;
    [|discriminate].
  intros _. apply match_at_sound in E as [_ E].
  apply matches_lang, header_prefix_lang in E as (ds & Hne & Hds & Hw).
  exists (skipn e (strip txt)), ds. repeat split; try assumption.
  rewrite <- (firstn_skipn e (strip txt)) at 1.
  unfold substr in Hw. rewrite Nat.sub_0_r in Hw. simpl in Hw.
  rewrite Hw, <- app_assoc. reflexivity.
Qed.

Lemma is_header_trimmed txt :
  is_header txt = true <-> Spec.header_trimmed txt.
Proof.
  split.
  - intros H. destruct (is_header_prefix _ H) as (rest & ds & Hne & Hds & Hs).
    exists rest. split; [now exists ds|].
    rewrite (is_header_number _ _ Hs Hne Hds) in H.
    now apply ratio_above_half_spec.
  - intros (rest & (ds & Hne & Hds & Hs) & Hup).
    rewrite (is_header_number _ _ Hs Hne Hds).
    now apply ratio_above_half_spec.
Qed.

(** ** A header paragraph in the segmenter *)

Lemma close_section_app acc subs cur :
  close_section (acc ++ subs) cur = acc ++ close_section subs cur.
Proof. destruct cur; simpl; now rewrite ?app_assoc. Qed.

Lemma subsection_step_prefix acc subs cur para :
  subsection_step (acc ++ subs, cur) para
  = (acc ++ fst (subsection_step (subs, cur) para),
     snd (subsection_step (subs, cur) para)).
Proof.
  unfold subsection_step.
  destruct (is_header (p_text para)); simpl.
  - now rewrite close_section_app, app_assoc.
  - destruct (should_start_going_concern (p_text para) && _); simpl.
    + now rewrite close_section_app.
    + now destruct cur.
Qed.

Lemma subsection_loop_prefix paras : forall acc subs cur,
  fold_left subsection_step paras (acc ++ subs, cur)
  = (acc ++ fst (fold_left subsection_step paras (subs, cur)),
     snd (fold_left subsection_step paras (subs, cur))).
Proof.
  induction paras as [|p paras IH]; intros acc subs cur; cbn [fold_left].
  - reflexivity.
  - rewrite subsection_step_prefix.
    destruct (subsection_step (subs, cur) p) as [subs' cur']. apply IH.
Qed.

(** A header paragraph closes what was open before it, stands alone in a
    subsection of class header with [skip_tagging] set, and leaves no
    section open for what follows. *)
Lemma header_splits pre p post :
  is_header (p_text p) = true ->
  detect_subsections (pre ++ p :: post)
  = detect_subsections pre ++ [Spec.header_subsection p]
      ++ detect_subsections post.
Proof.
  intros Hh. rewrite !detect_subsections_state, fold_left_app. simpl.
  destruct (fold_left subsection_step pre ([], None)) as [subs cur].
  unfold subsection_step at 2 4. rewrite Hh. simpl.
  rewrite <- (app_nil_r (close_section subs cur ++ _)).
  rewrite subsection_loop_prefix. simpl.
  now rewrite close_section_app, <- app_assoc.
Qed.

(** ** C7 *)

(** C7 as stated fails.  The trimmed paragraph [1. ABc] starts with a
    digit and a full stop; what follows that prefix, the blank included,
    has two upper-case characters out of four, which is not more than one
    half; yet [is_header] accepts the paragraph, because it takes the ratio
    over the remainder without its surrounding white space, two out of
    three. *)
Lemma C7_header_handling_counterexample :
  ~ (forall paragraph_text,
        is_header paragraph_text = true
        <-> Spec.header_untrimmed paragraph_text).
Proof.
  intros H. destruct (H txt_C7) as [H1 _].
  destruct (H1 eq_refl) as (rest & (ds & Hne & Hds & Hs) & Hup).
  change (strip txt_C7) with (str "1. ABc") in Hs.
  destruct ds as [|d [|d' ds]]; [contradiction| |].
  - simpl in Hs. inversion Hs; subst. vm_compute in Hup. discriminate.
  - simpl in Hs. inversion Hs; subst. vm_compute in Hds. discriminate.
Qed.

(** C7, amended (header handling).  A paragraph is classified as a header
    iff its trimmed text starts with digits followed by a full stop and the
    content after that prefix, with the white space around it removed, has
    an upper-case ratio strictly greater than one half.  Every header
    paragraph becomes its own single-paragraph subsection of class header
    with [skip_tagging = true] and closes the section open before it: the
    subsections of a sequence with a header paragraph are those of the
    paragraphs before it, the header subsection, and those of the
    paragraphs after it.  The paragraph [1. NATURE OF OPERATIONS] alone
    gives one header subsection with [skip_tagging = true]. *)
Theorem C7_header_handling :
  (forall paragraph_text,
      is_header paragraph_text = true <-> Spec.header_trimmed paragraph_text)
  /\ (forall pre p post,
        is_header (p_text p) = true ->
        detect_subsections (pre ++ p :: post)
        = detect_subsections pre
            ++ [mkSubsection TAG_IDS.header [p] (Some true)]
            ++ detect_subsections post)
  /\ (forall block,
        is_header (p_text (header_C7 block)) = true
        /\ detect_subsections [header_C7 block]
           = [mkSubsection TAG_IDS.header [header_C7 block] (Some true)]).
Proof.
  split; [exact is_header_trimmed|]. split; [exact header_splits|].
  intros block. split; [reflexivity|].
  assert (Hh : is_header (p_text (header_C7 block)) = true) by reflexivity.
  apply (header_splits [] (header_C7 block) []) in Hh. exact Hh.
Qed.

Lemma C7_header_handling_witness :
  Spec.header_trimmed txt_C7
  /\ detect_subsections
       [mkParagraph (str "BestCo Ltd. was incorporated in 2011.") (str "1");
        header_C7 (str "2");
        mkParagraph (str "The Company operates in mining.") (str "3")]
     = [mkSubsection TAG_IDS.operations_description
          [mkParagraph (str "BestCo Ltd. was incorporated in 2011.") (str "1")]
          None;
        mkSubsection TAG_IDS.header [header_C7 (str "2")] (Some true);
        mkSubsection TAG_IDS.operations_description
          [mkParagraph (str "The Company operates in mining.") (str "3")]
          None].
Proof.
  destruct C7_header_handling as (H1 & H2 & _).
  split.
  - apply H1. reflexivity.
  - apply (H2 [mkParagraph (str "BestCo Ltd. was incorporated in 2011.") (str "1")]
              (header_C7 (str "2"))
              [mkParagraph (str "The Company operates in mining.") (str "3")]).
    reflexivity.
Defined.

(** ** The currency pattern *)

Lemma lang_digit w :
  lang digit w -> exists d, w = [d] /\ isdecimal d = true.
Proof. intros H. inversion H; subst. eauto. Qed.

Lemma lang_Times n : forall w, lang (Times n digit) w -> Spec.digits n w.
Proof.
  induction n as [|n IH]; intros w H; simpl in H.
  - inversion H; subst. now split.
  - inversion H as [| |? ? w1 w2 H1 H2| | | | | | |]; subst.
    apply lang_digit in H1 as (d & -> & Hd).
    destruct (IH _ H2) as [Hlen Hall]. split; simpl; [now rewrite Hlen|].
    now rewrite Hd, Hall.
Qed.

Lemma lang_UpTo n : forall w,
  lang (UpTo n digit) w ->
  (List.length w <= n)%nat /\ forallb isdecimal w = true.
Proof.
  induction n as [|n IH]; intros w H; simpl in H.
  - inversion H; subst. split; [simpl; lia|reflexivity].
  - inversion H as [| | |? ? ? H1|? ? ? H1| | | | |]; subst.
    + inversion H1 as [| |? ? w1 w2 Hd Hrest| | | | | | |]; subst.
      apply lang_digit in Hd as (d & -> & Hd).
      destruct (IH _ Hrest) as [Hlen Hall]. split; simpl; [lia|].
      now rewrite Hd, Hall.
    + inversion H1; subst. split; [simpl; lia|reflexivity].
Qed.

Lemma lang_Rep lo hi w :
  lang (Rep lo hi digit) w ->
  (lo <= List.length w <= lo + (hi - lo))%nat /\ forallb isdecimal w = true.
Proof.
  unfold Rep. intros H.
  inversion H as [| |? ? w1 w2 H1 H2| | | | | | |]; subst.
  apply lang_Times in H1 as [Hlen1 Hall1].
  apply lang_UpTo in H2 as [Hlen2 Hall2].
  rewrite length_app, forallb_app, Hall1, Hall2. split; [lia|reflexivity].
Qed.

Lemma lang_comma_group w :
  lang (seqs [Lit false ","; Rep 3 3 digit]) w -> Spec.comma_group w.
Proof.
  unfold seqs. cbn [fold_right]. intros H.
  inversion H as [| |? ? w1 w2 H1 H2| | | | | | |]; subst.
  inversion H2 as [| |? ? w3 w4 H3 H4| | | | | | |]; subst.
  inversion H4; subst.
  apply (@lang_lit (str ",")) in H1. subst w1.
  apply lang_Rep in H3 as [Hlen Hall].
  exists w3. rewrite app_nil_r. split; [|reflexivity].
  split; [lia|exact Hall].
Qed.

Lemma lang_fraction w :
  lang (Opt (seqs [Lit false "."; Rep 2 2 digit])) w -> Spec.fraction w.
Proof.
  unfold Opt, seqs. cbn [fold_right]. intros H.
  inversion H as [| | |? ? ? H1|? ? ? H1| | | | |]; subst.
  - inversion H1 as [| |? ? w1 w2 H2 H3| | | | | | |]; subst.
    inversion H3 as [| |? ? w3 w4 H4 H5| | | | | | |]; subst.
    inversion H5; subst.
    apply (@lang_lit (str ".")) in H2. subst w1.
    apply lang_Rep in H4 as [Hlen Hall].
    right. exists w3. rewrite app_nil_r. split; [|reflexivity].
    split; [lia|exact Hall].
  - inversion H1; subst. now left.
Qed.

Lemma lang_comma_groups greedy w :
  lang (Star greedy (seqs [Lit false ","; Rep 3 3 digit])) w ->
  exists grouped, Forall Spec.comma_group grouped /\ w = List.concat grouped.
Proof.
  intros H.
  remember (Star greedy (seqs [Lit false ","; Rep 3 3 digit])) as r eqn:Er.
  induction H as [| | | | | |g r' w1 w2 H1 _ H2 IH2| | |]; try discriminate.
  - exists []. split; [constructor|reflexivity].
  - inversion Er; subst. destruct (IH2 eq_refl) as (grouped & Hall & ->).
    exists (w1 :: grouped). split; [|reflexivity].
    constructor; [now apply lang_comma_group|exact Hall].
Qed.

(** Every word of the currency pattern is a currency literal. *)
Lemma amount_pattern_lang w :
  lang Patterns.AMOUNT_PATTERN w -> Spec.amount_literal w.
Proof.
  unfold Patterns.AMOUNT_PATTERN, seqs. cbn [fold_right]. intros H.
  inversion H as [| |? ? w1 wa H1 Ha| | | | | | |]; subst.
  inversion Ha as [| |? ? w2 wb H2 Hb| | | | | | |]; subst.
  inversion Hb as [| |? ? w3 wc H3 Hc| | | | | | |]; subst.
  inversion Hc as [| |? ? w4 wd H4 Hd| | | | | | |]; subst.
  inversion Hd; subst.
  apply (@lang_lit (str "$")) in H1. subst w1.
  apply lang_Rep in H2 as [Hlen Hall].
  apply lang_comma_groups in H3 as (grouped & Hgr & ->).
  apply lang_fraction in H4.
  exists w2, grouped, w4. rewrite app_nil_r.
  repeat split; try assumption; lia.
Qed.

Lemma substr_py_slice t s e :
  (s <= e)%nat -> ((s < e)%nat -> (e <= List.length t)%nat) ->
  substr t s e = py_slice t (Z.of_nat s) (Z.of_nat e).
Proof.
  intros Hse Hlen. unfold substr, py_slice, clamp_index, len.
  destruct (Z.of_nat s <? 0) eqn:Es; [apply Z.ltb_lt in Es; lia|].
  destruct (Z.of_nat e <? 0) eqn:Ee; [apply Z.ltb_lt in Ee; lia|].
  destruct (Nat.eq_dec s e) as [->|Hne].
  - now rewrite Nat.sub_diag, Z.sub_diag.
  - rewrite !Z.min_l by lia. rewrite Nat2Z.id.
    now replace (Z.to_nat (Z.of_nat e - Z.of_nat s)) with (e - s)%nat by lia.
Qed.

(** The spans of the amount extractor: currency literals, cut out of the
    text at their offsets. *)
Lemma extract_amounts_sound txt :
  Forall (fun e =>
            Spec.amount_literal (text e) /\ span_ok e /\ text_ok txt e
            /\ end_ e <= len txt
            /\ tag_id e = TAG_IDS.financial_amount
            /\ priority e = ENTITY_PRIORITIES.Financial_Amount_Placeholder)
    (_extract_amounts txt).
Proof.
  unfold _extract_amounts. apply Forall_map.
  eapply Forall_impl; [|apply re_finditer_sound].
  intros [[s e] g] Hm. simpl.
  pose proof (matches_bounds Hm) as [Hse Hlen].
  pose proof (amount_pattern_lang (matches_lang Hm)) as Hlit.
  assert (Hlt : (s < e)%nat).
  { destruct Hlit as (lead & grouped & frac & _ & _ & _ & _ & Hw).
    assert (Hl : List.length (substr txt s e) <> 0%nat)
      by (rewrite Hw; simpl; lia).
    unfold substr in Hl. destruct (e - s)%nat eqn:E; [|lia].
    now simpl in Hl. }
  split; [exact Hlit|]. unfold span_ok, text_ok, len. simpl.
  repeat split; try lia.
  now apply substr_py_slice.
Qed.

Lemma digit_not_comma c : isdecimal c = true -> Ascii.eqb c ","%char = false.
Proof.
  intros H. destruct (Ascii.eqb_spec c ","%char) as [->|]; [|reflexivity].
  vm_compute in H. discriminate.
Qed.

Lemma digit_not_dollar c : isdecimal c = true -> Ascii.eqb c "$"%char = false.
Proof.
  intros H. destruct (Ascii.eqb_spec c "$"%char) as [->|]; [|reflexivity].
  vm_compute in H. discriminate.
Qed.

(** On a dollar sign and four digits or more in a row, the match at the
    dollar sign ends behind the third digit. *)
Lemma amount_match_digit_run d1 d2 d3 d4 rest :
  isdecimal d1 = true -> isdecimal d2 = true -> isdecimal d3 = true ->
  isdecimal d4 = true ->
  match_at ("$"%char :: d1 :: d2 :: d3 :: d4 :: rest) Patterns.AMOUNT_PATTERN 0
  = Some (0%nat, 4%nat, []).
Proof.
  intros H1 H2 H3 H4.
  unfold match_at, Patterns.AMOUNT_PATTERN, seqs, Lit, Rep, Opt, digit.
  cbn -[isdecimal Ascii.eqb].
  rewrite Ascii.eqb_refl, H1, H2, H3.
  rewrite (digit_not_comma _ H4), (digit_not_stop _ H4). reflexivity.
Qed.

Lemma amount_starts_with_dollar :
  first_in (fun c => Ascii.eqb c "$"%char) Patterns.AMOUNT_PATTERN = true.
Proof. vm_compute. reflexivity. Qed.

(** A dollar sign in front of a run of four digits or more: one span, the
    dollar sign and the first three digits. *)
Lemma extract_amounts_digit_run d1 d2 d3 run :
  forallb isdecimal (d1 :: d2 :: d3 :: run) = true -> run <> [] ->
  _extract_amounts ("$"%char :: d1 :: d2 :: d3 :: run)
  = [mkEntity 0 4 TAG_IDS.financial_amount ["$"%char; d1; d2; d3]
       ENTITY_PRIORITIES.Financial_Amount_Placeholder].
Proof.
  intros Hall Hne. destruct run as [|d4 rest]; [contradiction|].
  simpl in Hall.
  apply Bool.andb_true_iff in Hall as [H1 Hall].
  apply Bool.andb_true_iff in Hall as [H2 Hall].
  apply Bool.andb_true_iff in Hall as [H3 Hall].
  apply Bool.andb_true_iff in Hall as [H4 Hrest].
  unfold _extract_amounts, re_finditer.
  set (t := "$"%char :: d1 :: d2 :: d3 :: d4 :: rest).
  cbn [finditer_from]. change (List.length t <? 0)%nat with false.
  cbv iota.
  rewrite search_from_hit with (x := (0%nat, 4%nat, []))
    by (now apply amount_match_digit_run).
  change (0 <? 4)%nat with true. cbv iota.
  rewrite (@finditer_from_None_from t Patterns.AMOUNT_PATTERN 4%nat);
    [reflexivity| |lia].
  apply (first_in_no_match _ amount_starts_with_dollar).
  intros i c Hi Hc.
  do 4 (destruct i as [|i]; [lia|]). simpl in Hc.
  apply nth_error_In in Hc. apply digit_not_dollar.
  assert (Hd : forallb isdecimal (d4 :: rest) = true)
    by (simpl; now rewrite H4, Hrest).
  rewrite forallb_forall in Hd. now apply Hd.
Qed.

(** ** C10 *)

(** C10 (the currency pattern).  Every span of the amount extractor is a
    dollar sign followed by one to three digits, then any number of groups
    of a comma and three digits, then optionally a full stop and two
    digits.  So for a dollar sign in front of an ungrouped run of four
    digits or more the extractor produces exactly one span, the dollar sign
    with the first three digits, and leaves the other digits untagged; for
    the input [$1234] the one span has the text [$123]. *)
Theorem C10_amount_pattern :
  (forall txt,
      Forall (fun e => Spec.amount_literal (text e) /\ text_ok txt e)
        (_extract_amounts txt))
  /\ (forall d1 d2 d3 d4 rest,
        forallb isdecimal (d1 :: d2 :: d3 :: d4 :: rest) = true ->
        _extract_amounts ("$"%char :: d1 :: d2 :: d3 :: d4 :: rest)
        = [mkEntity 0 4 TAG_IDS.financial_amount ["$"%char; d1; d2; d3] 70])
  /\ _extract_amounts (str "$1234")
     = [mkEntity 0 4 TAG_IDS.financial_amount (str "$123") 70].
Proof.
  split; [|split].
  - intros txt. eapply Forall_impl; [|apply extract_amounts_sound].
    intros e H. split; apply H.
  - intros d1 d2 d3 d4 rest H.
    apply extract_amounts_digit_run; [exact H|discriminate].
  - reflexivity.
Qed.

Lemma C10_amount_pattern_witness :
  _extract_amounts (str "$12345678")
  = [mkEntity 0 4 TAG_IDS.financial_amount (str "$123") 70].
Proof.
  destruct C10_amount_pattern as (_ & H & _).
  apply (H "1"%char "2"%char "3"%char "4"%char (str "5678")).
  reflexivity.
Defined.

(* ================================================================== *)
(** * Further properties of the resolver *)
(* ================================================================== *)

Lemma remove_overlaps_incl pool e :
  In e (_remove_overlaps pool) -> In e pool.
Proof.
  rewrite remove_overlaps_resolve. unfold Spec.resolve, Spec.sort_candidates.
  intros H. apply scan_In in H. now apply py_sorted_In in H.
Qed.

(** A list in which every span ends before the later ones start is
    accepted whole by the scan. *)
Lemma scan_accepts_chain l : forall last_end,
  StronglySorted (fun a b => end_ a <= start b) l ->
  Forall (fun c => last_end <= start c) l ->
  Spec.scan last_end l = l.
Proof.
  induction l as [|x l IH]; intros last_end Hs Hge; simpl; [reflexivity|].
  inversion Hs as [|? ? Hs' Hall]; subst.
  inversion Hge as [|? ? Hx Hl]; subst.
  assert (E : (start x >=? last_end) = true) by (apply Z.geb_le; exact Hx).
  rewrite E. f_equal. now apply IH.
Qed.

Lemma chain_in_order l :
  Forall span_ok l ->
  StronglySorted (fun a b => end_ a <= start b) l ->
  Sorted (in_order Spec.before (fun e : Entity => e)) l.
Proof.
  intros Hok Hs. apply StronglySorted_Sorted.
  induction Hs as [|x l Hs IH Hall]; [constructor|].
  inversion Hok as [|? ? Hx Hl]; subst.
  constructor; [now apply IH|].
  rewrite Forall_forall in *. intros y Hy.
  specialize (Hall y Hy). specialize (Hl y Hy).
  unfold in_order, Spec.before, span_ok in *.
  apply Bool.orb_false_iff. split.
  - apply Z.ltb_ge. lia.
  - apply Bool.andb_false_iff. left. apply Z.eqb_neq. lia.
Qed.

(** A chain of spans is a fixed point of the resolver. *)
Lemma remove_overlaps_chain l :
  Forall span_ok l ->
  StronglySorted (fun a b => end_ a <= start b) l ->
  _remove_overlaps l = l.
Proof.
  intros Hok Hs. rewrite remove_overlaps_resolve.
  unfold Spec.resolve, Spec.sort_candidates.
  rewrite py_sorted_id by (now apply chain_in_order).
  apply scan_accepts_chain; [exact Hs|].
  eapply Forall_impl; [|exact Hok]. unfold span_ok. intros c Hc. lia.
Qed.

Lemma remove_overlaps_is_chain pool :
  Forall span_ok pool ->
  Forall span_ok (_remove_overlaps pool)
  /\ StronglySorted (fun a b => end_ a <= start b) (_remove_overlaps pool).
Proof.
  intros Hok. split.
  - rewrite Forall_forall in *. intros e He.
    apply Hok. now apply remove_overlaps_incl.
  - rewrite remove_overlaps_resolve. unfold Spec.resolve.
    apply scan_chain. apply py_sorted_Forall, Hok.
Qed.

(** X1.  The resolver only selects, and it is idempotent: every accepted span
    is a candidate of the pool, and resolving an output again changes
    nothing. *)
Theorem remove_overlaps_selects_idempotent (pool : list Entity) :
  Forall span_ok pool ->
  (forall e, In e (_remove_overlaps pool) -> In e pool)
  /\ _remove_overlaps (_remove_overlaps pool) = _remove_overlaps pool.
Proof.
  intros Hok. split.
  - intros e. apply remove_overlaps_incl.
  - destruct (remove_overlaps_is_chain Hok) as [H1 H2].
    now apply remove_overlaps_chain.
Qed.

Lemma remove_overlaps_selects_idempotent_witness :
  _remove_overlaps (_remove_overlaps pool_C2) = _remove_overlaps pool_C2.
Proof.
  assert (H : Forall span_ok pool_C2)
    by (repeat constructor; unfold span_ok; simpl; lia).
  exact (proj2 (remove_overlaps_selects_idempotent H)).
Defined.

Lemma ForallOrdPairs_perm {A : Type} (R : A -> A -> Prop) l l' :
  (forall a b, R a b -> R b a) ->
  Permutation l l' -> ForallOrdPairs R l -> ForallOrdPairs R l'.
Proof.
  intros Hsym Hp. induction Hp as [|x l l' Hp IH|x y l|l l' l'' _ IH1 _ IH2];
    intros H.
  - exact H.
  - inversion H as [|? ? Hx Hl]; subst. constructor; [|now apply IH].
    eapply Permutation_Forall; eassumption.
  - inversion H as [|? ? Hy Hl]; subst.
    inversion Hy as [|? ? Hyx Hyl]; subst.
    inversion Hl as [|? ? Hxl Hl']; subst.
    constructor; [constructor; [now apply Hsym|exact Hxl]|].
    constructor; assumption.
  - auto.
Qed.

Lemma no_overlap_sym a b : no_overlap a b -> no_overlap b a.
Proof. unfold no_overlap. tauto. Qed.

Lemma sorted_disjoint_chain l :
  Forall span_ok l -> ForallOrdPairs no_overlap l ->
  StronglySorted (fun a b => Spec.before b a = false) l ->
  StronglySorted (fun a b => end_ a <= start b) l.
Proof.
  induction l as [|x l IH]; intros Hok Hd Hs; [constructor|].
  inversion Hok as [|? ? Hx Hl]; subst.
  inversion Hd as [|? ? Hdx Hdl]; subst.
  inversion Hs as [|? ? Hs' Hall]; subst.
  constructor; [now apply IH|].
  rewrite Forall_forall in *. intros y Hy.
  specialize (Hall y Hy). specialize (Hl y Hy). specialize (Hdx y Hy).
  cbv beta in Hall. apply before_false_start_le in Hall.
  unfold no_overlap, span_ok in *. lia.
Qed.

(** X2.  A pool without overlaps loses nothing: the output is the pool in the
    order of the sort. *)
Theorem remove_overlaps_keeps_disjoint_pool (pool : list Entity) :
  Forall span_ok pool ->
  ForallOrdPairs no_overlap pool ->
  _remove_overlaps pool = Spec.sort_candidates pool
  /\ Permutation pool (_remove_overlaps pool).
Proof.
  intros Hok Hd.
  assert (Hperm : Permutation pool (Spec.sort_candidates pool))
    by apply py_sorted_Permutation.
  assert (Hok' : Forall span_ok (Spec.sort_candidates pool))
    by (apply py_sorted_Forall, Hok).
  assert (Hd' : ForallOrdPairs no_overlap (Spec.sort_candidates pool)).
  { eapply ForallOrdPairs_perm; [apply no_overlap_sym|exact Hperm|exact Hd]. }
  assert (Hchain : StronglySorted (fun a b => end_ a <= start b)
                     (Spec.sort_candidates pool)).
  { apply sorted_disjoint_chain; try assumption.
    apply sort_candidates_sorted. }
  assert (E : _remove_overlaps pool = Spec.sort_candidates pool).
  { rewrite remove_overlaps_resolve. unfold Spec.resolve.
    apply scan_accepts_chain; [exact Hchain|].
    eapply Forall_impl; [|exact Hok']. unfold span_ok. intros c Hc. lia. }
  split; [exact E|]. now rewrite E.
Qed.

Lemma remove_overlaps_keeps_disjoint_pool_witness :
  _remove_overlaps (rev spans_C1) = spans_C1.
Proof.
  assert (Hok : Forall span_ok (rev spans_C1))
    by (repeat constructor; unfold span_ok; simpl; lia).
  assert (Hd : ForallOrdPairs no_overlap (rev spans_C1))
    by (repeat constructor; unfold no_overlap; simpl; lia).
  exact (proj1 (remove_overlaps_keeps_disjoint_pool Hok Hd)).
Defined.

(** Two lists in the same order with the same elements are the same list,
    when elements that may precede each other are equal. *)
Lemma sorted_perm_unique {A : Type} (R : A -> A -> Prop) l : forall l',
  Permutation l l' ->
  StronglySorted R l -> StronglySorted R l' ->
  (forall a b, In a l -> In b l -> R a b -> R b a -> a = b) ->
  l = l'.
Proof.
  induction l as [|x xs IH]; intros l' Hp Hs Hs' Hanti.
  - apply Permutation_nil in Hp. now subst.
  - destruct l' as [|y ys].
    { apply Permutation_sym, Permutation_nil in Hp. discriminate. }
    inversion Hs as [|? ? Hsx Hallx]; subst.
    inversion Hs' as [|? ? Hsy Hally]; subst.
    rewrite Forall_forall in Hallx, Hally.
    assert (Hxy : x = y).
    { assert (Hx : In x (y :: ys))
        by (eapply Permutation_in; [exact Hp|now left]).
      assert (Hy : In y (x :: xs))
        by (eapply Permutation_in; [apply Permutation_sym, Hp|now left]).
      destruct Hx as [Hx|Hx]; [now subst|].
      destruct Hy as [Hy|Hy]; [now subst|].
      apply Hanti; [now left|now right|now apply Hallx|now apply Hally]. }
    subst y. f_equal. apply IH; try assumption.
    + eapply Permutation_cons_inv. exact Hp.
    + intros a b Ha Hb. apply Hanti; now right.
Qed.

Lemma before_both_false_key a b :
  Spec.before a b = false -> Spec.before b a = false ->
  overlap_key a = overlap_key b.
Proof.
  unfold Spec.before, overlap_key. rewrite !Z.gtb_ltb. intros H1 H2.
  apply Bool.not_true_iff_false in H1, H2.
  assert (Hs : start a = start b).
  { destruct (Z.lt_trichotomy (start a) (start b)) as [H|[H|H]];
      [|exact H|].
    - exfalso. apply H1. apply Bool.orb_true_iff. left. now apply Z.ltb_lt.
    - exfalso. apply H2. apply Bool.orb_true_iff. left. now apply Z.ltb_lt. }
  assert (Hp : priority a = priority b).
  { destruct (Z.lt_trichotomy (priority a) (priority b)) as [H|[H|H]];
      [|exact H|].
    - exfalso. apply H2. rewrite Hs, Z.ltb_irrefl, Z.eqb_refl. simpl.
      apply Bool.orb_true_iff. left. now apply Z.ltb_lt.
    - exfalso. apply H1. rewrite Hs, Z.ltb_irrefl, Z.eqb_refl. simpl.
      apply Bool.orb_true_iff. left. now apply Z.ltb_lt. }
  assert (Hl : end_ a - start a = end_ b - start b).
  { destruct (Z.lt_trichotomy (end_ a - start a) (end_ b - start b))
      as [H|[H|H]]; [|exact H|].
    - exfalso. apply H2. rewrite Hs, Hp, !Z.ltb_irrefl, !Z.eqb_refl. simpl.
      apply Z.ltb_lt. lia.
    - exfalso. apply H1. rewrite Hs, Hp, !Z.ltb_irrefl, !Z.eqb_refl. simpl.
      apply Z.ltb_lt. lia. }
  rewrite Hl, Hs, Hp. reflexivity.
Qed.

(** X3.  The order in which the candidates were put into the pool does not
    matter, as long as candidates with the same start, priority and length
    are the same candidate. *)
Theorem remove_overlaps_insertion_order (pool pool' : list Entity) :
  Permutation pool pool' ->
  (forall a b, In a pool -> In b pool ->
               overlap_key a = overlap_key b -> a = b) ->
  _remove_overlaps pool = _remove_overlaps pool'.
Proof.
  intros Hp Hkey. rewrite !remove_overlaps_resolve. unfold Spec.resolve.
  f_equal. apply sorted_perm_unique
    with (R := fun a b => Spec.before b a = false).
  - transitivity pool; [apply Permutation_sym, py_sorted_Permutation|].
    transitivity pool'; [exact Hp|apply py_sorted_Permutation].
  - apply sort_candidates_sorted.
  - apply sort_candidates_sorted.
  - intros a b Ha Hb Hab Hba.
    apply Hkey; try (now apply py_sorted_In in Ha);
      try (now apply py_sorted_In in Hb).
    now apply before_both_false_key.
Qed.

Lemma remove_overlaps_insertion_order_witness :
  _remove_overlaps pool_C2 = _remove_overlaps (rev pool_C2).
Proof.
  apply remove_overlaps_insertion_order.
  - apply Permutation_rev.
  - intros a b Ha Hb Hk. simpl in Ha, Hb.
    repeat (destruct Ha as [Ha|Ha]; [subst a|]); try contradiction;
      repeat (destruct Hb as [Hb|Hb]; [subst b|]); try contradiction;
      try reflexivity; vm_compute in Hk; discriminate.
Defined.

(* ================================================================== *)
(** * The spans of the extractors *)
(* ================================================================== *)

Section GroupSpans.
Variable t : pystr.
Context {R : Type}.
Implicit Types (k : @cont R) (x : R).

Lemma star_loop_spans (r : regex) greedy
  (body : nat -> groups -> @cont R -> option R) :
(forall i g k x, body i g k = Some x ->
   exists j g', matches t r i j /\ k j g' = Some x
                /\ (Forall (good_span t) g -> Forall (good_span t) g')) ->
forall fuel i g k x,
  star_loop body greedy fuel i g k = Some x ->
  exists j g', matches t (Star greedy r) i j /\ k j g' = Some x
               /\ (Forall (good_span t) g -> Forall (good_span t) g').
Proof.
intros Hbody. induction fuel as [|fuel IH]; intros i g k x; simpl.
- intros H. exists i, g. repeat split; [constructor|exact H|auto].
- assert (Hiter :
    body i g (fun j g' =>
                if (i <? j)%nat
                then star_loop body greedy fuel j g' k else None)
    = Some x ->
    exists j g', matches t (Star greedy r) i j /\ k j g' = Some x
                 /\ (Forall (good_span t) g -> Forall (good_span t) g')).
  { intros H. apply Hbody in H as (j & g' & Hm & H & Hg).
    destruct (i <? j)%nat eqn:E; [|discriminate].
    apply Nat.ltb_lt in E.
    apply IH in H as (j' & g'' & Hm' & H & Hg').
    exists j', g''. repeat split;
      [eapply M_StarS; eassumption|exact H|auto]. }
  assert (Hstop : k i g = Some x ->
    exists j g', matches t (Star greedy r) i j /\ k j g' = Some x
                 /\ (Forall (good_span t) g -> Forall (good_span t) g')).
  { intros H. exists i, g. repeat split; [constructor|exact H|auto]. }
  destruct greedy.
  + destruct (body i g _) eqn:E; intros H.
    * inversion H; subst. now apply Hiter.
    * now apply Hstop.
  + destruct (k i g) eqn:E; intros H.
    * inversion H; subst. now apply Hstop.
    * now apply Hiter.
Qed.

(** The groups a run hands on have spans inside the text that are not
  empty, for a pattern whose groups all consume. *)
Lemma m_spans r :
groups_ok r = true ->
forall i g k x,
  m t r i g k = Some x ->
  exists j g', matches t r i j /\ k j g' = Some x
               /\ (Forall (good_span t) g -> Forall (good_span t) g').
Proof.
induction r as [|p|r1 IH1 r2 IH2|r1 IH1 r2 IH2|greedy r IH|n r IH| |];
  simpl; intros Hok i g k x H.
- exists i, g. repeat split; [constructor|exact H|auto].
- destruct (nth_error t i) as [c|] eqn:E; [|discriminate].
  destruct (p c) eqn:Ep; [|discriminate].
  exists (S i), g. repeat split; [econstructor; eassumption|exact H|auto].
- apply Bool.andb_true_iff in Hok as [Hok1 Hok2].
  apply (IH1 Hok1) in H as (j & g' & Hm1 & H & Hg1).
  apply (IH2 Hok2) in H as (j' & g'' & Hm2 & H & Hg2).
  exists j', g''. repeat split; [econstructor; eassumption|exact H|auto].
- apply Bool.andb_true_iff in Hok as [Hok1 Hok2].
  destruct (m t r1 i g k) eqn:E.
  + inversion H; subst. apply (IH1 Hok1) in E as (j & g' & Hm & E & Hg).
    exists j, g'. repeat split; [now apply M_AltL|exact E|exact Hg].
  + apply (IH2 Hok2) in H as (j & g' & Hm & H & Hg).
    exists j, g'. repeat split; [now apply M_AltR|exact H|exact Hg].
- eapply star_loop_spans; [|exact H]. apply (IH Hok).
- apply Bool.andb_true_iff in Hok as [Hfirst Hok].
  apply (IH Hok) in H as (j & g' & Hm & H & Hg).
  exists j, ((n, (i, j)) :: g'). repeat split; [now constructor|exact H|].
  intros Hgood. constructor; [|auto].
  unfold good_span. simpl.
  destruct (first_in_matches _ Hm Hfirst) as [Hlt _].
  pose proof (matches_bounds Hm) as [_ Hlen]. lia.
- destruct (i =? 0)%nat eqn:E; [|discriminate].
  apply Nat.eqb_eq in E. subst i.
  exists 0%nat, g. repeat split; [constructor|exact H|auto].
- destruct (at_boundary t i) eqn:E; [|discriminate].
  exists i, g. repeat split; [now constructor|exact H|auto].
Qed.
End GroupSpans.


Lemma match_at_ok t r i mo :
  groups_ok r = true -> match_at t r i = Some mo -> match_ok t r mo.
Proof.
  unfold match_at. intros Hok H.
  apply (@m_spans t _ r Hok) in H as (j & g' & Hm & H & Hg).
  inversion H; subst. split; [exact Hm|]. apply Hg. constructor.
Qed.

Lemma search_from_ok t r : forall fuel p mo,
  groups_ok r = true -> search_from t r fuel p = Some mo -> match_ok t r mo.
Proof.
  induction fuel as [|fuel IH]; intros p mo Hok; simpl;
    destruct (match_at t r p) as [mo'|] eqn:E; intros H.
  - inversion H; subst. eapply match_at_ok; eassumption.
  - discriminate.
  - inversion H; subst. eapply match_at_ok; eassumption.
  - eapply IH; eassumption.
Qed.

Lemma finditer_from_ok t r :
  groups_ok r = true ->
  forall fuel p, Forall (match_ok t r) (finditer_from t r fuel p).
Proof.
  intros Hok. induction fuel as [|fuel IH]; intros p; simpl; [constructor|].
  destruct (List.length t <? p)%nat; [constructor|].
  destruct (search_from t r (List.length t - p) p) as [[[s e] g]|] eqn:E;
    [|constructor].
  constructor; [|apply IH]. eapply search_from_ok; eassumption.
Qed.

Lemma group_span_In g n sp : group_span g n = Some sp -> In (n, sp) g.
Proof.
  induction g as [|[n' sp'] g IH]; simpl; [discriminate|].
  destruct (n' =? n)%nat eqn:E.
  - intros H. inversion H; subst. apply Nat.eqb_eq in E. subst. now left.
  - intros H. right. now apply IH.
Qed.

Lemma entity_of_span_in txt a b tag prio :
  (a < b <= List.length txt)%nat -> span_in txt (entity_of txt a b tag prio).
Proof.
  intros H. unfold span_in, span_ok, text_ok, entity_of, len. simpl.
  repeat split; try lia.
  apply substr_py_slice; lia.
Qed.

Lemma entity_of_match_span_in txt r mo tag prio :
  first_in nonspace r = true -> match_ok txt r mo ->
  span_in txt (entity_of_match txt mo tag prio).
Proof.
  destruct mo as [[s e] g]. intros Hf [Hm _]. simpl.
  apply entity_of_span_in.
  pose proof (nonspace_pattern_consumes Hf Hm).
  pose proof (matches_bounds Hm) as [_ Hlen]. lia.
Qed.

Lemma entity_of_group1_span_in txt r mo tag prio :
  match_ok txt r mo -> Forall (span_in txt) (entity_of_group1 txt mo tag prio).
Proof.
  destruct mo as [[s e] g]. intros [_ Hg]. simpl.
  destruct (group_span g 1) as [[a b]|] eqn:E; [|constructor].
  constructor; [|constructor]. apply entity_of_span_in.
  apply group_span_In in E. rewrite Forall_forall in Hg.
  exact (Hg _ E).
Qed.

Lemma patterns_groups_ok :
  groups_ok Patterns.INCORPORATION_CONTEXT = true
  /\ groups_ok Patterns.ADDRESS_PATTERN = true
  /\ groups_ok Patterns.TRADING_SYMBOL_PATTERN = true
  /\ groups_ok COMPANY_START_PATTERN = true
  /\ groups_ok Patterns.AMOUNT_PATTERN = true
  /\ forallb (fun '(concept, _) => groups_ok (concept_pattern concept))
       FINANCIAL_CONCEPTS = true
  /\ forallb groups_ok Patterns.DATE_PATTERNS = true.
Proof. vm_compute. repeat split. Qed.

Lemma whole_match_spans txt r tag prio :
  first_in nonspace r = true -> groups_ok r = true ->
  Forall (span_in txt)
    (map (fun mo => entity_of_match txt mo tag prio) (re_finditer txt r)).
Proof.
  intros Hf Hg. apply Forall_map.
  eapply Forall_impl; [|apply finditer_from_ok; exact Hg].
  intros mo Hmo. eapply entity_of_match_span_in; eassumption.
Qed.

Lemma concept_spans_eq self txt :
  _extract_financial_concepts self txt
  = (concept_spans txt,
     set_stats self
       (mkStats (regex_extractions (stats self)) (ner_extractions (stats self))
          (bump (dictionary_extractions (stats self)) (concept_spans txt)))).
Proof. reflexivity. Qed.

(** Every candidate of the regex and dictionary extractors is a span of
    the text -- inside it, not empty, with the substring as its text --
    and carries the tag and the priority of one entity class. *)
Lemma regex_candidates_span_in txt :
  Forall (span_in txt) (regex_candidates txt).
Proof.
  destruct patterns_start_nonspace as (Pi & Pa & Pt & Pc & Pm & Pf & Pd).
  destruct patterns_groups_ok as (Gi & Ga & Gt & Gc & Gm & Gf & Gd).
  unfold regex_candidates. repeat rewrite Forall_app. repeat split.
  - unfold _extract_incorporation_dates, re_search.
    destruct (search_from txt _ _ 0) as [mo|] eqn:E; [|constructor].
    eapply entity_of_group1_span_in.
    eapply search_from_ok; [exact Gi|exact E].
  - now apply whole_match_spans.
  - unfold _extract_trading_symbols. apply Forall_flat_map.
    eapply Forall_impl; [|apply finditer_from_ok; exact Gt].
    intros mo Hmo. eapply entity_of_group1_span_in. exact Hmo.
  - unfold _extract_company_names_regex, re_match.
    destruct (match_at txt COMPANY_START_PATTERN 0) as [mo|] eqn:E;
      [|constructor].
    eapply entity_of_group1_span_in.
    eapply match_at_ok; [exact Gc|exact E].
  - now apply whole_match_spans.
  - unfold concept_spans. apply Forall_flat_map.
    rewrite forallb_forall in Pf, Gf. rewrite Forall_forall.
    intros [concept tag] Hin.
    apply whole_match_spans; [apply (Pf _ Hin)|apply (Gf _ Hin)].
  - unfold _extract_dates. apply Forall_flat_map.
    rewrite forallb_forall in Pd, Gd. rewrite Forall_forall.
    intros r Hin. apply whole_match_spans; [apply (Pd _ Hin)|apply (Gd _ Hin)].
Qed.

Lemma entity_of_group1_class txt mo tag prio :
  In (tag, prio) ENTITY_CLASSES ->
  Forall class_ok (entity_of_group1 txt mo tag prio).
Proof.
  destruct mo as [[s e] g]. intros H. simpl.
  destruct (group_span g 1) as [[a b]|]; [|constructor].
  constructor; [exact H|constructor].
Qed.

Lemma regex_candidates_class txt : Forall class_ok (regex_candidates txt).
Proof.
  unfold regex_candidates. repeat rewrite Forall_app. repeat split.
  - unfold _extract_incorporation_dates.
    destruct (re_search txt _); [|constructor].
    apply entity_of_group1_class. simpl. tauto.
  - unfold _extract_addresses. apply Forall_map, Forall_forall.
    intros [[s e] g] _. unfold class_ok. simpl. tauto.
  - unfold _extract_trading_symbols. apply Forall_flat_map, Forall_forall.
    intros mo _. apply entity_of_group1_class. simpl. tauto.
  - unfold _extract_company_names_regex.
    destruct (re_match txt _); [|constructor].
    apply entity_of_group1_class. simpl. tauto.
  - unfold _extract_amounts. apply Forall_map, Forall_forall.
    intros [[s e] g] _. unfold class_ok. simpl. tauto.
  - unfold concept_spans. apply Forall_flat_map, Forall_forall.
    intros [concept tag] _. apply Forall_map, Forall_forall.
    intros [[s e] g] _. unfold class_ok. simpl. tauto.
  - unfold _extract_dates. apply Forall_flat_map, Forall_forall.
    intros r _. apply Forall_map, Forall_forall.
    intros [[s e] g] _. unfold class_ok. simpl. tauto.
Qed.

(* ================================================================== *)
(** * The pipeline of one paragraph *)
(* ================================================================== *)

Lemma bump_length counter xs :
  bump counter xs = counter + Z.of_nat (List.length xs).
Proof. destruct xs; simpl; lia. Qed.

Lemma company_names_ner_eq self txt :
  hybrid_mode self = true ->
  _extract_company_names_ner self txt
  = match ner_candidates self txt with
    | [] => Ok []
    | _ :: _ => Raise label_error
    end.
Proof.
  unfold hybrid_mode, ner_candidates, hybrid_mode, _extract_company_names_ner.
  intros H. rewrite H.
  apply Bool.andb_true_iff in H as [_ H].
  destruct (ner self) as [provider|]; [|discriminate].
  rewrite H. simpl. unfold NER.extract_organizations.
  rewrite select_by_missing_attr.
  now destruct (NER.extract_entities provider txt).
Qed.

(** The company-name extractor: it raises when the provider has an entity
    for the text, and otherwise returns the regex candidate alone. *)
Lemma company_names_hybrid_eq self txt :
  _extract_company_names_hybrid self txt
  = match ner_candidates self txt with
    | [] =>
        Ok (_extract_company_names_regex txt,
            set_stats self
              (mkStats
                 (regex_extractions (stats self)
                  + Z.of_nat (List.length (_extract_company_names_regex txt)))
                 (ner_extractions (stats self))
                 (dictionary_extractions (stats self))))
    | _ :: _ => Raise label_error
    end.
Proof.
  unfold _extract_company_names_hybrid. fold (hybrid_mode self).
  destruct (hybrid_mode self) eqn:Hm.
  - rewrite company_names_ner_eq by exact Hm.
    destruct (ner_candidates self txt); [|reflexivity].
    simpl. rewrite bump_length. destruct self as [u n [a b c]]. reflexivity.
  - unfold ner_candidates. rewrite Hm. simpl. rewrite bump_length.
    destruct self as [u n [a b c]]. reflexivity.
Qed.

Lemma chain_start_sorted l :
  Forall span_ok l -> StronglySorted (fun a b => end_ a <= start b) l ->
  Sorted (in_order Z.ltb start) l.
Proof.
  intros Hok Hs. apply StronglySorted_Sorted.
  induction Hs as [|x l Hs IH Hall]; [constructor|].
  inversion Hok as [|? ? Hx Hl]; subst.
  constructor; [now apply IH|].
  rewrite Forall_forall in *. intros y Hy.
  specialize (Hall y Hy). unfold in_order, span_ok in *.
  apply Z.ltb_ge. lia.
Qed.

Lemma regex_candidates_span_ok txt : Forall span_ok (regex_candidates txt).
Proof.
  eapply Forall_impl; [|apply regex_candidates_span_in].
  intros e He. apply He.
Qed.

(** [extract_entities] as one equation: with an entity of the provider it
    raises; without, it returns the resolved regex and dictionary
    candidates, which the final sort leaves as they are, and the tagger
    with its counters moved. *)
Lemma extract_entities_eq self txt :
  extract_entities self txt
  = match ner_candidates self txt with
    | [] => Ok (_remove_overlaps (regex_candidates txt), counted self txt)
    | _ :: _ => Raise label_error
    end.
Proof.
  unfold extract_entities. rewrite company_names_hybrid_eq.
  destruct (ner_candidates self txt); [|reflexivity].
  unfold bind. cbv beta iota. rewrite concept_spans_eq. cbv beta iota.
  rewrite bump_length.
  replace (((((_extract_incorporation_dates txt ++ _extract_addresses txt
                 ++ _extract_trading_symbols txt)
                ++ _extract_company_names_regex txt)
               ++ _extract_amounts txt) ++ concept_spans txt)
             ++ _extract_dates txt)
    with (regex_candidates txt)
    by (unfold regex_candidates; now rewrite <- !app_assoc).
  destruct (remove_overlaps_is_chain (regex_candidates_span_ok txt))
    as [Hok Hchain].
  rewrite py_sorted_id by (now apply chain_start_sorted).
  destruct self as [u n [a b c]]. reflexivity.
Qed.

Lemma chain_chained txt es : forall pos,
  Forall (span_in txt) es ->
  StronglySorted (fun a b => end_ a <= start b) es ->
  0 <= pos -> Forall (fun e => pos <= start e) es ->
  chained txt pos es.
Proof.
  induction es as [|e es IH]; intros pos Hin Hs Hpos Hge; [constructor|].
  inversion Hin as [|? ? (Hok & _ & Htxt) Hin']; subst.
  inversion Hs as [|? ? Hs' Hall]; subst.
  inversion Hge as [|? ? He Hge']; subst.
  constructor; try assumption; [lia|].
  apply IH; try assumption. unfold span_ok in Hok. lia.
Qed.

(** The overlay of a chain of spans of the text: the returned string is
    the rendering of the segments, and their text stream is the text. *)
Lemma chain_round_trip txt es :
  Forall (span_in txt) es ->
  StronglySorted (fun a b => end_ a <= start b) es ->
  tag_text txt es = join (map render (tag_segments txt es))
  /\ text_stream (tag_segments txt es) = txt.
Proof.
  intros Hin Hs.
  assert (Hok : Forall span_ok es).
  { eapply Forall_impl; [|exact Hin]. intros e He. apply He. }
  assert (Hid : py_sorted Z.ltb start es = es)
    by (apply py_sorted_id; now apply chain_start_sorted).
  assert (Hstream : text_stream (tag_segments txt es) = txt).
  { unfold tag_segments. rewrite Hid.
    assert (Hc : chained txt 0 es).
    { apply chain_chained; try assumption; [lia|].
      eapply Forall_impl; [|exact Hok]. unfold span_ok. intros e He. lia. }
    pose proof (tag_loop_stream [] Hc) as H.
    destruct (fold_left (tag_step txt) es ([], 0)) as [result last_pos].
    rewrite text_stream_app. unfold text_stream at 2, join. simpl.
    rewrite app_nil_r, H. unfold text_stream, join. simpl.
    apply py_slice_from_0. }
  split; [|exact Hstream].
  destruct es as [|e es']; [|reflexivity].
  unfold tag_text, tag_segments, join. simpl.
  now rewrite py_slice_from_0, app_nil_r.
Qed.

(** X4.  What [extract_entities] returns: spans of the text with the tag and
    priority of their class, each ending before the next one starts, all
    taken from the candidates of the regex and dictionary extractors. *)
Theorem extract_entities_spans self txt ents self' :
  extract_entities self txt = Ok (ents, self') ->
  Forall (span_in txt) ents
  /\ Forall class_ok ents
  /\ StronglySorted (fun a b => end_ a <= start b) ents
  /\ (forall e, In e ents -> In e (regex_candidates txt)).
Proof.
  rewrite extract_entities_eq.
  destruct (ner_candidates self txt); [|discriminate].
  intros H. inversion H; subst. clear H.
  pose proof (regex_candidates_span_in txt) as Hin.
  pose proof (regex_candidates_class txt) as Hcl.
  rewrite Forall_forall in Hin, Hcl.
  repeat split.
  - apply Forall_forall. intros e He. now apply Hin, remove_overlaps_incl.
  - apply Forall_forall. intros e He. now apply Hcl, remove_overlaps_incl.
  - apply remove_overlaps_is_chain, regex_candidates_span_ok.
  - intros e. apply remove_overlaps_incl.
Qed.

Lemma extract_entities_spans_witness :
  exists ents,
    extract_entities (regex_only_tagger (mkStats 0 0 0)) txt_quick
    = Ok (ents, counted (regex_only_tagger (mkStats 0 0 0)) txt_quick)
    /\ List.length ents = 5%nat
    /\ Forall (span_in txt_quick) ents.
Proof.
  assert (H : extract_entities (regex_only_tagger (mkStats 0 0 0)) txt_quick
              = Ok (_remove_overlaps (regex_candidates txt_quick),
                    counted (regex_only_tagger (mkStats 0 0 0)) txt_quick))
    by (vm_compute; reflexivity).
  exists (_remove_overlaps (regex_candidates txt_quick)).
  split; [exact H|]. split; [vm_compute; reflexivity|].
  exact (proj1 (extract_entities_spans _ _ H)).
Defined.

(** X5. The round trip of a whole paragraph: when [tag_paragraph] returns, the
    string is the rendering of segments whose text stream is the paragraph. *)
Theorem tag_paragraph_round_trip self txt tagged self' :
  tag_paragraph self txt = Ok (tagged, self') ->
  exists segs,
    tagged = join (map render segs) /\ text_stream segs = txt.
Proof.
  unfold tag_paragraph. rewrite extract_entities_eq.
  destruct (ner_candidates self txt); [|discriminate].
  simpl. intros H. inversion H; subst. clear H.
  exists (tag_segments txt (_remove_overlaps (regex_candidates txt))).
  apply chain_round_trip.
  - pose proof (regex_candidates_span_in txt) as Hin.
    rewrite Forall_forall in Hin.
    apply Forall_forall. intros e He. now apply Hin, remove_overlaps_incl.
  - apply remove_overlaps_is_chain, regex_candidates_span_ok.
Qed.

Lemma tag_paragraph_round_trip_witness :
  exists tagged segs,
    tag_paragraph (regex_only_tagger (mkStats 0 0 0)) txt_quick
    = Ok (tagged, counted (regex_only_tagger (mkStats 0 0 0)) txt_quick)
    /\ tagged = join (map render segs) /\ text_stream segs = txt_quick.
Proof.
  assert (H : exists tagged,
             tag_paragraph (regex_only_tagger (mkStats 0 0 0)) txt_quick
             = Ok (tagged,
                   counted (regex_only_tagger (mkStats 0 0 0)) txt_quick)).
  { eexists. vm_compute. reflexivity. }
  destruct H as [tagged H].
  destruct (tag_paragraph_round_trip _ _ H) as (segs & H1 & H2).
  exists tagged, segs. repeat split; assumption.
Defined.

Lemma get_extraction_mode_hybrid self :
  get_extraction_mode self = HYBRID_MODE <-> hybrid_mode self = true.
Proof.
  unfold get_extraction_mode. destruct (hybrid_mode self); split;
    try reflexivity; discriminate.
Qed.

Lemma get_extraction_mode_fallback self :
  get_extraction_mode self = FALLBACK_MODE <-> hybrid_mode self = false.
Proof.
  unfold get_extraction_mode. destruct (hybrid_mode self); split;
    try reflexivity; discriminate.
Qed.

(** X6.  In fallback mode neither [extract_entities] nor [tag_paragraph]
    raises. *)
Theorem fallback_mode_never_raises self txt :
  get_extraction_mode self = FALLBACK_MODE ->
  extract_entities self txt
  = Ok (_remove_overlaps (regex_candidates txt), counted self txt)
  /\ tag_paragraph self txt
     = Ok (tag_text txt (_remove_overlaps (regex_candidates txt)),
           counted self txt).
Proof.
  intros Hmode. apply get_extraction_mode_fallback in Hmode.
  assert (E : extract_entities self txt
              = Ok (_remove_overlaps (regex_candidates txt),
                    counted self txt)).
  { rewrite extract_entities_eq. unfold ner_candidates. now rewrite Hmode. }
  split; [exact E|]. unfold tag_paragraph. now rewrite E.
Qed.

Lemma fallback_mode_never_raises_witness :
  exists ents,
    extract_entities (regex_only_tagger (mkStats 0 0 0)) txt_C8
    = Ok (ents, counted (regex_only_tagger (mkStats 0 0 0)) txt_C8).
Proof.
  eexists.
  exact (proj1 (fallback_mode_never_raises
                  (regex_only_tagger (mkStats 0 0 0)) txt_C8 eq_refl)).
Defined.



Lemma company_regex_at_most_one txt :
  (List.length (_extract_company_names_regex txt) <= 1)%nat.
Proof.
  unfold _extract_company_names_regex.
  destruct (re_match txt COMPANY_START_PATTERN) as [[[s e] g]|]; simpl;
    [|lia].
  destruct (group_span g 1) as [[a b]|]; simpl; lia.
Qed.

(** X8.  The counters after a call that returned: the regex counter moved by
    the company name found at the start of the paragraph (at most one), the
    dictionary counter by the number of concept candidates, accepted or
    not, the provider counter not at all; nothing else of the tagger
    changed. *)
Theorem extract_entities_counters self txt ents self' :
  extract_entities self txt = Ok (ents, self') ->
  use_ner self' = use_ner self /\ ner self' = ner self
  /\ regex_extractions (stats self')
     = regex_extractions (stats self)
       + Z.of_nat (List.length (_extract_company_names_regex txt))
  /\ regex_extractions (stats self) <= regex_extractions (stats self')
     <= regex_extractions (stats self) + 1
  /\ ner_extractions (stats self') = ner_extractions (stats self)
  /\ dictionary_extractions (stats self')
     = dictionary_extractions (stats self)
       + Z.of_nat (List.length (concept_spans txt)).
Proof.
  rewrite extract_entities_eq.
  destruct (ner_candidates self txt); [|discriminate].
  intros H. inversion H; subst. clear H.
  pose proof (company_regex_at_most_one txt).
  unfold counted, set_stats. simpl. repeat split; lia.
Qed.

Lemma extract_entities_counters_witness :
  exists ents self',
    extract_entities (regex_only_tagger (mkStats 0 0 0)) txt_quick
    = Ok (ents, self')
    /\ regex_extractions (stats self') = 1
    /\ ner_extractions (stats self') = 0
    /\ dictionary_extractions (stats self') = 1.
Proof.
  assert (H : extract_entities (regex_only_tagger (mkStats 0 0 0)) txt_quick
              = Ok (_remove_overlaps (regex_candidates txt_quick),
                    counted (regex_only_tagger (mkStats 0 0 0)) txt_quick))
    by (vm_compute; reflexivity).
  destruct (extract_entities_counters _ _ H)
    as (_ & _ & Hr & _ & Hn & Hd).
  eexists. eexists. split; [exact H|].
  rewrite Hr, Hn, Hd. vm_compute. repeat split.
Defined.

(* ================================================================== *)
(** * Empty and white-space input *)
(* ================================================================== *)





(* ================================================================== *)
(** * The shape of the segmenter's output *)
(* ================================================================== *)

Lemma Sorted_snoc {A : Type} (R : A -> A -> Prop) l a b :
  Sorted R (l ++ [a]) -> R a b -> Sorted R ((l ++ [a]) ++ [b]).
Proof.
  induction l as [|x l IH]; simpl; intros Hs Hab.
  - repeat constructor. exact Hab.
  - inversion Hs as [|? ? Hs' Hhd]; subst. constructor; [now apply IH|].
    destruct l; simpl in *; inversion Hhd; subst; now constructor.
Qed.

Lemma Sorted_replace_last {A : Type} (R : A -> A -> Prop) l a a' :
  Sorted R (l ++ [a]) -> (forall x, R x a -> R x a') -> Sorted R (l ++ [a']).
Proof.
  induction l as [|x l IH]; simpl; intros Hs Himp.
  - repeat constructor.
  - inversion Hs as [|? ? Hs' Hhd]; subst. constructor; [now apply IH|].
    destruct l; simpl in *; inversion Hhd; subst; constructor; auto.
Qed.

Lemma Sorted_drop_last {A : Type} (R : A -> A -> Prop) l a :
  Sorted R (l ++ [a]) -> Sorted R l.
Proof.
  induction l as [|x l IH]; simpl; intros Hs; [constructor|].
  inversion Hs as [|? ? Hs' Hhd]; subst. constructor; [now apply IH|].
  destruct l; simpl in *; [constructor|].
  inversion Hhd; subst. now constructor.
Qed.

Lemma subsection_step_inv st para :
  segmenter_inv st -> segmenter_inv (subsection_step st para).
Proof.
  destruct st as [subs cur]. unfold segmenter_inv. simpl.
  intros [Hsh Hcur]. unfold subsection_step.
  destruct (is_header (p_text para)) eqn:Eh.
  - (* a header paragraph *)
    assert (Hh : header_shape (mkSubsection TAG_IDS.header [para] (Some true))).
    { repeat split. exists para. now split. }
    assert (Hclosed : Sorted may_follow
                        (close_section subs cur
                           ++ [mkSubsection TAG_IDS.header [para] (Some true)])).
    { destruct cur as [cs|]; simpl.
      - destruct Hcur as [_ Hs]. apply Sorted_snoc; [exact Hs|].
        right. now left.
      - apply Hcur. }
    simpl. split.
    + apply Forall_app. split; [|constructor; [left; exact Hh|constructor]].
      destruct cur as [cs|]; simpl; [|exact Hsh].
      apply Forall_app. split; [exact Hsh|].
      constructor; [|constructor]. right. apply Hcur.
    + intros s. apply Sorted_snoc; [exact Hclosed|]. now left.
  - destruct (should_start_going_concern (p_text para)) eqn:Et; simpl.
    + destruct cur as [cs|]; simpl.
      * destruct Hcur as [Hcs Hs].
        destruct (String.eqb (s_tag_id cs) TAG_IDS.going_concern_description)
          eqn:Etag; simpl.
        -- (* the going-concern section goes on *)
           split; [exact Hsh|]. split.
           ++ right. destruct Hcs as [(Ht & _)|(Ht & Hsk & (p & rest & Hp & Hpt) & Hall)].
              ** apply String.eqb_eq in Etag. rewrite Ht in Etag. discriminate.
              ** repeat split; simpl; try assumption.
                 --- exists p, (rest ++ [para]). rewrite Hp. now split.
                 --- apply Forall_app. split; [exact Hall|]. now repeat constructor.
           ++ eapply Sorted_replace_last; [exact Hs|].
              intros x Hx. exact Hx.
        -- (* a going-concern section starts after an operations section *)
           assert (Hops : operations_shape cs).
           { destruct Hcs as [H|(Ht & _)]; [exact H|].
             rewrite Ht in Etag. discriminate. }
           split.
           ++ apply Forall_app. split; [exact Hsh|].
              constructor; [|constructor]. right. now left.
           ++ split.
              ** right. repeat split; simpl; [|now repeat constructor].
                 exists para, []. now split.
              ** apply Sorted_snoc; [exact Hs|].
                 right. right. split; [apply Hops|reflexivity].
      * (* a going-concern section starts with nothing open *)
        split; [exact Hsh|]. split.
        -- right. repeat split; simpl; [|now repeat constructor].
           exists para, []. now split.
        -- apply Hcur.
    + destruct cur as [cs|]; simpl.
      * (* the open section goes on *)
        destruct Hcur as [Hcs Hs]. split; [exact Hsh|]. split.
        -- destruct Hcs as [(Ht & Hsk & Hne & Hall)|(Ht & Hsk & (p & rest & Hp & Hpt) & Hall)].
           ++ left. repeat split; simpl; try assumption.
              ** intros E. now apply app_eq_nil in E as [_ E].
              ** apply Forall_app. split; [exact Hall|]. now repeat constructor.
           ++ right. repeat split; simpl; try assumption.
              ** exists p, (rest ++ [para]). rewrite Hp. now split.
              ** apply Forall_app. split; [exact Hall|]. now repeat constructor.
        -- eapply Sorted_replace_last; [exact Hs|].
           intros x Hx. exact Hx.
      * (* an operations section starts *)
        split; [exact Hsh|]. split.
        -- left. repeat split; simpl; [discriminate|now repeat constructor].
        -- apply Hcur.
Qed.

Lemma subsection_loop_inv paras : forall st,
  segmenter_inv st -> segmenter_inv (fold_left subsection_step paras st).
Proof.
  induction paras as [|p paras IH]; intros st H; simpl; [exact H|].
  now apply IH, subsection_step_inv.
Qed.

(** X9. Every subsection of the segmenter is a header subsection of one header
    paragraph with [skip_tagging] set, or an operations subsection of
    paragraphs that are neither headers nor triggers, or a going-concern
    subsection of non-header paragraphs that starts with a trigger paragraph;
    the last two carry no [skip_tagging]. Of two neighbouring subsections one
    is a header, or the first is an operations and the second a going-concern
    subsection. *)
Theorem detect_subsections_shape (paras : list Paragraph) :
  Forall subsection_shape (detect_subsections paras)
  /\ Sorted may_follow (detect_subsections paras).
Proof.
  rewrite detect_subsections_state.
  assert (H0 : segmenter_inv ([], None)).
  { split; [constructor|]. intros s. repeat constructor. }
  pose proof (subsection_loop_inv paras H0) as H.
  destruct (fold_left subsection_step paras ([], None)) as [subs cur].
  destruct H as [Hsh Hcur]. simpl in *.
  destruct cur as [cs|]; simpl.
  - destruct Hcur as [Hcs Hs]. split; [|exact Hs].
    apply Forall_app. split; [exact Hsh|].
    constructor; [|constructor]. now right.
  - split; [exact Hsh|].
    apply Sorted_drop_last with (a := mkSubsection TAG_IDS.header [] None).
    apply Hcur.
Qed.

(** ** Paragraphs between two headers *)

Lemma going_concern_absorbs paras : forall subs ps,
  Forall (fun p => is_header (p_text p) = false) paras ->
  fold_left subsection_step paras
    (subs, Some (mkSubsection TAG_IDS.going_concern_description ps None))
  = (subs,
     Some (mkSubsection TAG_IDS.going_concern_description (ps ++ paras) None)).
Proof.
  induction paras as [|p paras IH]; intros subs ps Hh; cbn [fold_left].
  - now rewrite app_nil_r.
  - inversion Hh as [|? ? Hp Hrest]; subst.
    unfold subsection_step at 2. rewrite Hp. simpl.
    rewrite Bool.andb_false_r. rewrite (IH _ _ Hrest).
    now rewrite <- app_assoc.
Qed.

Lemma operations_until_trigger paras : forall subs ps,
  Forall (fun p => is_header (p_text p) = false) paras ->
  fold_left subsection_step paras
    (subs, Some (mkSubsection TAG_IDS.operations_description ps None))
  = match from_trigger paras with
    | [] =>
        (subs,
         Some (mkSubsection TAG_IDS.operations_description
                 (ps ++ before_trigger paras) None))
    | _ :: _ =>
        (subs ++ [mkSubsection TAG_IDS.operations_description
                    (ps ++ before_trigger paras) None],
         Some (mkSubsection TAG_IDS.going_concern_description
                 (from_trigger paras) None))
    end.
Proof.
  induction paras as [|p paras IH]; intros subs ps Hh; cbn [fold_left].
  - simpl. now rewrite app_nil_r.
  - inversion Hh as [|? ? Hp Hrest]; subst.
    unfold subsection_step at 2. rewrite Hp.
    cbn [from_trigger before_trigger].
    destruct (should_start_going_concern (p_text p)) eqn:Et; simpl.
    + rewrite (going_concern_absorbs _ _ Hrest). now rewrite app_nil_r.
    + rewrite (IH _ _ Hrest). now rewrite <- !app_assoc.
Qed.

(** X10.  Without a header paragraph the segmenter makes at most two
    subsections: an operations subsection of the paragraphs in front of
    the first going-concern trigger, and a going-concern subsection of all
    the paragraphs from that trigger on. *)
Theorem detect_subsections_without_headers (paras : list Paragraph) :
  Forall (fun p => is_header (p_text p) = false) paras ->
  detect_subsections paras
  = section_of TAG_IDS.operations_description (before_trigger paras)
      ++ section_of TAG_IDS.going_concern_description (from_trigger paras).
Proof.
  intros Hh. unfold detect_subsections.
  destruct paras as [|p paras]; [reflexivity|].
  inversion Hh as [|? ? Hp Hrest]; subst.
  cbn [fold_left]. unfold subsection_step at 2. rewrite Hp.
  cbn [from_trigger before_trigger].
  destruct (should_start_going_concern (p_text p)) eqn:Et; simpl.
  - now rewrite (going_concern_absorbs _ _ Hrest).
  - rewrite (operations_until_trigger _ _ Hrest).
    destruct (from_trigger paras); reflexivity.
Qed.

Lemma detect_subsections_without_headers_witness :
  detect_subsections body_quick
  = section_of TAG_IDS.operations_description (before_trigger body_quick)
      ++ section_of TAG_IDS.going_concern_description
           (from_trigger body_quick).
Proof.
  apply detect_subsections_without_headers. unfold body_quick.
  constructor; [vm_compute; reflexivity|].
  constructor; [vm_compute; reflexivity|constructor].
Defined.

(* ================================================================== *)
(** * Header detection and white space *)
(* ================================================================== *)

Lemma lstrip_whitespace ws t :
  whitespace_only ws -> lstrip (ws ++ t) = lstrip t.
Proof.
  induction 1 as [|c ws Hc _ IH]; simpl; [reflexivity|].
  now rewrite Hc.
Qed.

Lemma lstrip_app t u :
  lstrip (t ++ u)
  = match lstrip t with
    | [] => lstrip u
    | _ :: _ => lstrip t ++ u
    end.
Proof.
  induction t as [|c t IH]; simpl; [now destruct (lstrip u)|].
  destruct (isspace c); [exact IH|reflexivity].
Qed.

Lemma whitespace_only_rev ws : whitespace_only ws -> whitespace_only (rev ws).
Proof. unfold whitespace_only. apply Forall_rev. Qed.

Lemma rstrip_whitespace t ws :
  whitespace_only ws -> rstrip (t ++ ws) = rstrip t.
Proof.
  intros H. unfold rstrip. rewrite rev_app_distr.
  now rewrite lstrip_whitespace by (now apply whitespace_only_rev).
Qed.

Lemma lstrip_all_whitespace ws : whitespace_only ws -> lstrip ws = [].
Proof.
  intros H. rewrite <- (app_nil_r ws). now rewrite lstrip_whitespace.
Qed.

(** [strip] removes white space put around a text. *)
Lemma strip_padding ws1 t ws2 :
  whitespace_only ws1 -> whitespace_only ws2 ->
  strip (ws1 ++ t ++ ws2) = strip t.
Proof.
  intros H1 H2. unfold strip.
  rewrite lstrip_whitespace by exact H1. rewrite lstrip_app.
  destruct (lstrip t) as [|c s] eqn:E.
  - now rewrite lstrip_all_whitespace.
  - now apply rstrip_whitespace.
Qed.

Lemma lstrip_no_leading_space t :
  match lstrip t with
  | [] => True
  | c :: _ => isspace c = false
  end.
Proof.
  induction t as [|c t IH]; simpl; [exact I|].
  destruct (isspace c) eqn:E; [exact IH|exact E].
Qed.

Lemma lstrip_fixed t :
  match t with [] => True | c :: _ => isspace c = false end ->
  lstrip t = t.
Proof. destruct t as [|c t]; simpl; [reflexivity|]. now intros ->. Qed.

Lemma lstrip_idempotent t : lstrip (lstrip t) = lstrip t.
Proof. apply lstrip_fixed, lstrip_no_leading_space. Qed.

Lemma lstrip_suffix t : exists ws, whitespace_only ws /\ t = ws ++ lstrip t.
Proof.
  induction t as [|c t (ws & Hws & IH)]; simpl.
  - exists []. split; [constructor|reflexivity].
  - destruct (isspace c) eqn:E.
    + exists (c :: ws). split; [now constructor|]. simpl. now f_equal.
    + exists []. split; [constructor|reflexivity].
Qed.

Lemma rstrip_prefix t : exists ws, whitespace_only ws /\ t = rstrip t ++ ws.
Proof.
  unfold rstrip. destruct (lstrip_suffix (rev t)) as (ws & Hws & E).
  exists (rev ws). split; [now apply whitespace_only_rev|].
  rewrite <- rev_app_distr, <- E. now rewrite rev_involutive.
Qed.

(** A text differs from its [strip] by white space at both ends only, and
    stripping twice is stripping once. *)
Lemma strip_decompose t :
  exists ws1 ws2,
    whitespace_only ws1 /\ whitespace_only ws2 /\ t = ws1 ++ strip t ++ ws2.
Proof.
  destruct (lstrip_suffix t) as (ws1 & H1 & E1).
  destruct (rstrip_prefix (lstrip t)) as (ws2 & H2 & E2).
  exists ws1, ws2. split; [exact H1|]. split; [exact H2|].
  unfold strip. now rewrite <- E2.
Qed.

Lemma strip_idempotent t : strip (strip t) = strip t.
Proof.
  destruct (strip_decompose t) as (ws1 & ws2 & H1 & H2 & E).
  rewrite E at 2. now rewrite strip_padding.
Qed.

(** X11.  White space around a paragraph does not change whether it is a
    header, nor does stripping the paragraph first. *)
Theorem is_header_ignores_padding (ws1 t ws2 : pystr) :
  whitespace_only ws1 -> whitespace_only ws2 ->
  is_header (ws1 ++ t ++ ws2) = is_header t
  /\ is_header (strip t) = is_header t.
Proof.
  intros H1 H2. unfold is_header.
  now rewrite strip_padding, strip_idempotent.
Qed.

(** ** [determine_subsection_tag] and the segmenter *)

Lemma is_header_ignores_padding_witness :
  is_header (padding_left ++ p_text header_quick ++ padding_right)
  = is_header (p_text header_quick)
  /\ is_header (strip (p_text header_quick))
     = is_header (p_text header_quick).
Proof.
  apply is_header_ignores_padding.
  - unfold padding_left. constructor; [reflexivity|].
    constructor; [reflexivity|constructor].
  - unfold padding_right. constructor; [reflexivity|constructor].
Defined.




(* ================================================================== *)
(** * The paragraph content of the output tree *)
(* ================================================================== *)

(** ** [find] and slices at known places *)

Lemma len_app (a b : pystr) : len (a ++ b) = len a + len b.
Proof. unfold len. rewrite length_app. lia. Qed.

Lemma len_nonneg (a : pystr) : 0 <= len a.
Proof. unfold len. lia. Qed.

Lemma startswith_app s rest : startswith s (s ++ rest) = true.
Proof.
  induction s as [|c s IH]; simpl; [now destruct rest|].
  now rewrite Ascii.eqb_refl, IH.
Qed.

Lemma startswith_length s t :
  startswith s t = true -> (List.length s <= List.length t)%nat.
Proof.
  revert t. induction s as [|c s IH]; intros t H; simpl; [lia|].
  destruct t as [|x t]; simpl in *; [discriminate|].
  apply Bool.andb_true_iff in H as [_ H]. apply IH in H. lia.
Qed.

Lemma find_from_skip ch sub' b : forall rest i,
  lacks ch b = true ->
  find_from (ch :: sub') (b ++ rest) i
  = find_from (ch :: sub') rest (i + len b).
Proof.
  induction b as [|x b IH]; intros rest i Hb.
  - simpl. f_equal. unfold len. simpl. lia.
  - simpl in Hb. apply Bool.andb_true_iff in Hb as [Hx Hb].
    apply Bool.negb_true_iff in Hx.
    cbn [app find_from startswith].
    rewrite Ascii.eqb_sym, Hx. simpl.
    rewrite (IH rest (i + 1) Hb). f_equal.
    unfold len. simpl. lia.
Qed.

Lemma find_from_hit sub rest i :
  startswith sub rest = true -> find_from sub rest i = i.
Proof. intros H. destruct rest; simpl in *; now rewrite H. Qed.

Lemma find_from_none ch sub' b : forall i,
  lacks ch b = true -> find_from (ch :: sub') b i = -1.
Proof.
  intros i Hb. rewrite <- (app_nil_r b).
  rewrite find_from_skip by exact Hb. reflexivity.
Qed.

Lemma find_unfold t a s sub :
  t = a ++ s -> find t sub (len a) = find_from sub s (len a).
Proof.
  intros ->. unfold find, clamp_index.
  pose proof (len_nonneg a). pose proof (len_nonneg s).
  rewrite len_app.
  destruct (len a + len s <? len a) eqn:E1; [apply Z.ltb_lt in E1; lia|].
  destruct (len a <? 0) eqn:E2; [apply Z.ltb_lt in E2; lia|].
  rewrite Z.min_l by lia. unfold len at 1. rewrite Nat2Z.id.
  now rewrite skipn_app, skipn_all, Nat.sub_diag.
Qed.

(** The first occurrence of [sub] behind a stretch without its first
    character. *)
Lemma find_at t a b sub ch sub' c :
  sub = ch :: sub' -> t = a ++ b ++ sub ++ c -> lacks ch b = true ->
  find t sub (len a) = len a + len b.
Proof.
  intros -> Ht Hb. erewrite find_unfold; [|exact Ht].
  rewrite find_from_skip by exact Hb.
  apply find_from_hit, startswith_app.
Qed.

Lemma find_absent t a b sub ch sub' :
  sub = ch :: sub' -> t = a ++ b -> lacks ch b = true ->
  find t sub (len a) = -1.
Proof.
  intros -> Ht Hb. erewrite find_unfold; [|exact Ht]. now apply find_from_none.
Qed.

Lemma slice_at t a b c :
  t = a ++ b ++ c -> py_slice t (len a) (len a + len b) = b.
Proof.
  intros ->. unfold py_slice, clamp_index.
  pose proof (len_nonneg a). pose proof (len_nonneg b).
  pose proof (len_nonneg c). rewrite !len_app.
  destruct (len a <? 0) eqn:E1; [apply Z.ltb_lt in E1; lia|].
  destruct (len a + len b <? 0) eqn:E2; [apply Z.ltb_lt in E2; lia|].
  rewrite !Z.min_l by lia.
  replace (len a + len b - len a) with (len b) by lia.
  unfold len. rewrite !Nat2Z.id.
  rewrite skipn_app, skipn_all, Nat.sub_diag. simpl.
  now rewrite firstn_app, firstn_all, Nat.sub_diag, app_nil_r.
Qed.

Lemma slice_from_at t a b : t = a ++ b -> py_slice_from t (len a) = b.
Proof.
  intros ->. unfold py_slice_from, clamp_index.
  pose proof (len_nonneg a). pose proof (len_nonneg b). rewrite len_app.
  destruct (len a <? 0) eqn:E1; [apply Z.ltb_lt in E1; lia|].
  rewrite Z.min_l by lia. unfold len. rewrite Nat2Z.id.
  now rewrite skipn_app, skipn_all, Nat.sub_diag.
Qed.

Lemma lacks_app c a b : lacks c (a ++ b) = lacks c a && lacks c b.
Proof. apply forallb_app. Qed.

Lemma lacks_skipn c n : forall t, lacks c t = true -> lacks c (skipn n t) = true.
Proof.
  induction n as [|n IH]; intros [|x t] H; simpl; auto.
  simpl in H. apply Bool.andb_true_iff in H as [_ H]. now apply IH.
Qed.

Lemma lacks_firstn c n : forall t, lacks c t = true -> lacks c (firstn n t) = true.
Proof.
  induction n as [|n IH]; intros [|x t] H; simpl; auto.
  simpl in H. apply Bool.andb_true_iff in H as [Hx H].
  change (negb (Ascii.eqb x c) && lacks c (firstn n t) = true).
  now rewrite Hx, IH.
Qed.

Lemma lacks_slice c t a b : lacks c t = true -> lacks c (py_slice t a b) = true.
Proof. intros H. unfold py_slice. now apply lacks_firstn, lacks_skipn. Qed.

Lemma lacks_slice_from c t a :
  lacks c t = true -> lacks c (py_slice_from t a) = true.
Proof. intros H. unfold py_slice_from. now apply lacks_skipn. Qed.

(** ** The parts loop on the rendering of an overlay *)

Lemma parse_loop_S t fuel parts current_pos :
  parse_loop t (S fuel) parts current_pos
  = let tag_start := find t TAG_OPEN current_pos in
    if tag_start =? -1 then
      Some (if current_pos <? len t
            then parts ++ [TextPart (py_slice_from t current_pos)]
            else parts)
    else
      let parts :=
        if tag_start >? current_pos
        then parts ++ [TextPart (py_slice t current_pos tag_start)]
        else parts in
      let tag_open_end := find t (str ">") tag_start in
      if tag_open_end =? -1 then Some parts
      else
        let tag_id_start := tag_start + 9 in
        let tag_id_end := find t [dquote] tag_id_start in
        let tag_id := py_slice t tag_id_start tag_id_end in
        let tag_close := find t TAG_CLOSE tag_open_end in
        if tag_close =? -1 then Some parts
        else
          let tag_content := py_slice t (tag_open_end + 1) tag_close in
          parse_loop t fuel (parts ++ [TagPart tag_id tag_content])
            (tag_close + 6).
Proof. reflexivity. Qed.

Lemma len_pos_false (a : pystr) : (len a =? -1) = false.
Proof. pose proof (len_nonneg a). apply Z.eqb_neq. lia. Qed.

(** The loop ends on a text without the marker. *)
Lemma parse_tail t pre p fuel parts :
  t = pre ++ p -> lacks LT p = true ->
  parse_loop t (S fuel) parts (len pre)
  = Some (match p with [] => parts | _ :: _ => parts ++ [TextPart p] end).
Proof.
  intros Ht Hp. rewrite parse_loop_S. cbv zeta.
  rewrite (@find_absent t pre p TAG_OPEN LT (List.tl TAG_OPEN)
             eq_refl Ht Hp).
  cbn [Z.eqb]. rewrite (@slice_from_at t pre p Ht). f_equal.
  rewrite Ht, len_app.
  destruct p as [|x p].
  - destruct (Z.ltb_spec (len pre) (len pre + len [])); [|reflexivity].
    unfold len in *. simpl in *. lia.
  - destruct (Z.ltb_spec (len pre) (len pre + len (x :: p))); [reflexivity|].
    unfold len in *. simpl in *. lia.
Qed.

Ltac len_norm :=
  rewrite ?len_app;
  change (len [GT]) with 1; change (len [dquote]) with 1;
  change (len TAG_OPEN) with 9; change (len TAG_CLOSE) with 6; lia.

(** One round of the loop over a piece of text and a rendered tag. *)
Lemma parse_round t pre p id inner rest fuel parts :
  t = pre ++ p ++ TAG_OPEN ++ id ++ [dquote] ++ [GT] ++ inner
        ++ TAG_CLOSE ++ rest ->
  lacks LT p = true -> lacks dquote id = true -> lacks GT id = true ->
  lacks LT inner = true ->
  parse_loop t (S fuel) parts (len pre)
  = parse_loop t fuel
      ((match p with [] => parts | _ :: _ => parts ++ [TextPart p] end)
         ++ [TagPart id inner])
      (len (pre ++ p ++ TAG_OPEN ++ id ++ [dquote] ++ [GT] ++ inner
              ++ TAG_CLOSE)).
Proof.
  intros Ht Hp Hq Hg Hi.
  assert (F1 : find t TAG_OPEN (len pre) = len (pre ++ p)).
  { rewrite len_app.
    apply (@find_at t pre p TAG_OPEN LT (List.tl TAG_OPEN)
             (id ++ [dquote] ++ [GT] ++ inner ++ TAG_CLOSE ++ rest));
      [reflexivity|exact Ht|exact Hp]. }
  assert (F2 : find t (str ">") (len (pre ++ p))
               = len (pre ++ p) + len (TAG_OPEN ++ id ++ [dquote])).
  { apply (@find_at t (pre ++ p) (TAG_OPEN ++ id ++ [dquote]) (str ">") GT []
             (inner ++ TAG_CLOSE ++ rest)); [reflexivity| |].
    - rewrite Ht, <- !app_assoc. reflexivity.
    - rewrite !lacks_app, Hg. reflexivity. }
  assert (F3 : find t [dquote] (len ((pre ++ p) ++ TAG_OPEN))
               = len ((pre ++ p) ++ TAG_OPEN) + len id).
  { apply (@find_at t ((pre ++ p) ++ TAG_OPEN) id [dquote] dquote []
             ([GT] ++ inner ++ TAG_CLOSE ++ rest)); [reflexivity| |exact Hq].
    rewrite Ht, <- !app_assoc. reflexivity. }
  assert (F4 : find t TAG_CLOSE (len ((pre ++ p) ++ TAG_OPEN ++ id ++ [dquote]))
               = len ((pre ++ p) ++ TAG_OPEN ++ id ++ [dquote])
                 + len ([GT] ++ inner)).
  { apply (@find_at t ((pre ++ p) ++ TAG_OPEN ++ id ++ [dquote])
             ([GT] ++ inner) TAG_CLOSE LT (List.tl TAG_CLOSE) rest);
      [reflexivity| |].
    - rewrite Ht, <- !app_assoc. reflexivity.
    - rewrite lacks_app, Hi. reflexivity. }
  assert (S1 : py_slice t (len pre) (len pre + len p) = p)
    by (eapply slice_at; exact Ht).
  assert (S2 : py_slice t (len ((pre ++ p) ++ TAG_OPEN))
                 (len ((pre ++ p) ++ TAG_OPEN) + len id) = id).
  { apply (@slice_at t ((pre ++ p) ++ TAG_OPEN) id
             ([dquote] ++ [GT] ++ inner ++ TAG_CLOSE ++ rest)).
    rewrite Ht, <- !app_assoc. reflexivity. }
  assert (S3 : py_slice t
                 (len ((pre ++ p) ++ TAG_OPEN ++ id ++ [dquote] ++ [GT]))
                 (len ((pre ++ p) ++ TAG_OPEN ++ id ++ [dquote] ++ [GT])
                  + len inner) = inner).
  { apply (@slice_at t ((pre ++ p) ++ TAG_OPEN ++ id ++ [dquote] ++ [GT])
             inner (TAG_CLOSE ++ rest)).
    rewrite Ht, <- !app_assoc. reflexivity. }
  rewrite parse_loop_S. cbv zeta.
  rewrite F1, len_pos_false, F2.
  rewrite <- len_app, len_pos_false.
  replace (len (pre ++ p) + 9) with (len ((pre ++ p) ++ TAG_OPEN))
    by (rewrite (len_app (pre ++ p) TAG_OPEN); reflexivity).
  rewrite F3, S2.
  rewrite F4. rewrite <- len_app, len_pos_false.
  replace (len ((pre ++ p) ++ TAG_OPEN ++ id ++ [dquote]) + 1)
    with (len ((pre ++ p) ++ TAG_OPEN ++ id ++ [dquote] ++ [GT]))
    by len_norm.
  replace (len (((pre ++ p) ++ TAG_OPEN ++ id ++ [dquote]) ++ [GT] ++ inner))
    with (len ((pre ++ p) ++ TAG_OPEN ++ id ++ [dquote] ++ [GT]) + len inner)
    by len_norm.
  rewrite S3.
  replace (len ((pre ++ p) ++ TAG_OPEN ++ id ++ [dquote] ++ [GT]) + len inner
           + 6)
    with (len (pre ++ p ++ TAG_OPEN ++ id ++ [dquote] ++ [GT] ++ inner
                 ++ TAG_CLOSE))
    by len_norm.
  f_equal. f_equal.
  rewrite len_app.
  destruct p as [|x p].
  - destruct (Z.gtb_spec (len pre + len []) (len pre)); [|reflexivity].
    unfold len in *. simpl in *. lia.
  - destruct (Z.gtb_spec (len pre + len (x :: p)) (len pre)).
    + now rewrite S1.
    + unfold len in *. simpl in *. lia.
Qed.

Lemma render_tagged id inner :
  render (Tagged id inner)
  = TAG_OPEN ++ str id ++ [dquote] ++ [GT] ++ inner ++ TAG_CLOSE.
Proof. unfold render, TAG_OPEN. rewrite <- app_assoc. reflexivity. Qed.

Lemma parts_of_plain p rest parts :
  (match p with [] => parts | _ :: _ => parts ++ [TextPart p] end)
    ++ parts_of rest
  = parts ++ parts_of (Plain p :: rest).
Proof. destruct p; simpl; [reflexivity|]. now rewrite <- app_assoc. Qed.

(** The loop recovers the parts of the rendering of a chain of spans of a
    text without the opening angle bracket. *)
Lemma parse_segments txt :
  lacks LT txt = true ->
  forall es pos pre parts fuel,
  chained txt pos es ->
  Forall (fun e => safe_id (tag_id e) = true) es ->
  (List.length es < fuel)%nat ->
  parse_loop (pre ++ join (map render (segments_from txt pos es))) fuel
    parts (len pre)
  = Some (parts ++ parts_of (segments_from txt pos es)).
Proof.
  intros Htxt. induction es as [|e es IH];
    intros pos pre parts fuel Hc Hsafe Hfuel;
    (destruct fuel as [|fuel]; [simpl in Hfuel; lia|]).
  - cbn [segments_from map join List.concat render].
    rewrite app_nil_r.
    rewrite (@parse_tail _ pre (py_slice_from txt pos) fuel parts eq_refl)
      by (now apply lacks_slice_from).
    f_equal. rewrite <- (parts_of_plain _ []). cbn [parts_of].
    now rewrite app_nil_r.
  - inversion Hc as [|? ? ? Hpos Hok Htext Hrest]; subst.
    inversion Hsafe as [|? ? Hid Hsafe']; subst.
    apply Bool.andb_true_iff in Hid as [Hq Hg].
    cbn [segments_from map join List.concat]. rewrite render_tagged.
    cbn [render].
    set (rest := List.concat (map render (segments_from txt (end_ e) es))).
    set (p := py_slice txt pos (start e)).
    assert (Hp : lacks LT p = true) by (now apply lacks_slice).
    assert (Hi : lacks LT (text e) = true)
      by (rewrite Htext; now apply lacks_slice).
    assert (Ht : pre ++ p
                   ++ (TAG_OPEN ++ str (tag_id e) ++ [dquote] ++ [GT]
                         ++ text e ++ TAG_CLOSE) ++ rest
                 = pre ++ p ++ TAG_OPEN ++ str (tag_id e) ++ [dquote] ++ [GT]
                     ++ text e ++ TAG_CLOSE ++ rest)
      by (rewrite <- !app_assoc; reflexivity).
    rewrite (@parse_round _ pre p (str (tag_id e)) (text e) rest fuel parts
               Ht Hp Hq Hg Hi).
    rewrite Ht.
    replace (pre ++ p ++ TAG_OPEN ++ str (tag_id e) ++ [dquote] ++ [GT]
               ++ text e ++ TAG_CLOSE ++ rest)
      with ((pre ++ p ++ TAG_OPEN ++ str (tag_id e) ++ [dquote] ++ [GT]
               ++ text e ++ TAG_CLOSE) ++ rest)
      by (rewrite <- !app_assoc; reflexivity).
    unfold rest, join in *.
    rewrite (IH (end_ e) _ _ fuel Hrest Hsafe') by (simpl in Hfuel; lia).
    f_equal. rewrite <- app_assoc.
    rewrite <- (parts_of_plain p
                  (Tagged (tag_id e) (text e)
                     :: segments_from txt (end_ e) es) parts).
    destruct p; cbn [parts_of app]; rewrite <- ?app_assoc; reflexivity.
Qed.

(** ** Building the element from the parts *)

Lemma set_last_tail_app children c s :
  set_last_tail (children ++ [c]) s
  = children ++ [mkTagElem (te_id c) (te_text c) s].
Proof.
  induction children as [|x children IH]; [reflexivity|].
  cbn [app set_last_tail]. rewrite IH.
  destruct (children ++ [c]) eqn:E; [|reflexivity].
  now destruct children.
Qed.

Lemma build_step_tail elem_text children c s :
  build_step (elem_text, children ++ [c]) (TextPart s)
  = (elem_text, children ++ [mkTagElem (te_id c) (te_text c) s]).
Proof.
  unfold build_step. rewrite <- set_last_tail_app.
  destruct (children ++ [c]) eqn:E; [now destruct children|reflexivity].
Qed.

Lemma build_after_tag txt : forall es pos elem_text children c,
  te_tail c = [] ->
  fold_left build_step (parts_of (segments_from txt pos es))
    (elem_text, children ++ [c])
  = (elem_text,
     children ++ mkTagElem (te_id c) (te_text c) (tail_to txt pos es)
       :: children_from txt es).
Proof.
  induction es as [|e es IH]; intros pos elem_text children c Hc.
  - cbn [segments_from tail_to children_from].
    destruct (py_slice_from txt pos) as [|x s] eqn:E.
    + cbn [parts_of fold_left]. destruct c; simpl in *; now subst.
    + cbn [parts_of fold_left]. now rewrite build_step_tail.
  - cbn [segments_from tail_to children_from].
    assert (Hstep : forall st,
      fold_left build_step
        (parts_of (Tagged (tag_id e) (text e)
                     :: segments_from txt (end_ e) es))
        (elem_text,
         children ++ [mkTagElem (te_id c) (te_text c)
                        (py_slice txt pos (start e))])
      = st ->
      fold_left build_step
        (parts_of (Plain (py_slice txt pos (start e))
                     :: Tagged (tag_id e) (text e)
                     :: segments_from txt (end_ e) es))
        (elem_text, children ++ [c]) = st).
    { intros st <-. destruct (py_slice txt pos (start e)) as [|x s] eqn:E.
      - cbn [parts_of]. destruct c; simpl in *; now subst.
      - cbn [parts_of fold_left]. now rewrite build_step_tail. }
    apply Hstep. cbn [parts_of fold_left build_step].
    rewrite (IH (end_ e) elem_text
               (children ++ [mkTagElem (te_id c) (te_text c)
                               (py_slice txt pos (start e))])
               (mkTagElem (str (tag_id e)) (text e) []) eq_refl).
    now rewrite <- app_assoc.
Qed.

Lemma build_content_segments txt es :
  build_content (join (map render (segments_from txt 0 es)))
    (parts_of (segments_from txt 0 es))
  = (tail_to txt 0 es, children_from txt es).
Proof.
  destruct es as [|e es].
  - cbn [segments_from tail_to children_from map join List.concat render].
    rewrite app_nil_r.
    destruct (py_slice_from txt 0); reflexivity.
  - cbn [segments_from tail_to children_from].
    destruct (py_slice txt 0 (start e)) as [|x s] eqn:E.
    + cbn [parts_of build_content fold_left build_step app].
      apply (@build_after_tag txt es (end_ e) [] []
               (mkTagElem (str (tag_id e)) (text e) []) eq_refl).
    + cbn [parts_of build_content fold_left build_step app].
      apply (@build_after_tag txt es (end_ e) (x :: s) []
               (mkTagElem (str (tag_id e)) (text e) []) eq_refl).
Qed.

Lemma children_stream txt : forall es pos,
  chained txt pos es ->
  elem_stream (tail_to txt pos es, children_from txt es)
  = py_slice_from txt pos.
Proof.
  unfold elem_stream. cbn [fst snd].
  induction es as [|e es IH]; intros pos Hc.
  - simpl. apply app_nil_r.
  - inversion Hc as [|? ? ? Hpos Hok Htext Hrest]; subst.
    cbn [tail_to children_from map List.concat te_text te_tail].
    rewrite <- app_assoc, (IH (end_ e) Hrest), Htext.
    unfold span_ok in Hok.
    rewrite (@py_slice_app txt (start e) (end_ e)) by lia.
    apply py_slice_app. lia.
Qed.

Lemma children_labels txt es :
  map elem_label (children_from txt es) = map span_label es.
Proof. induction es as [|e es IH]; simpl; [|rewrite IH]; reflexivity. Qed.

Lemma tag_loop_segments txt es : forall acc pos,
  let '(result, last_pos) := fold_left (tag_step txt) es (acc, pos) in
  result ++ [Plain (py_slice_from txt last_pos)]
  = acc ++ segments_from txt pos es.
Proof.
  induction es as [|e es IH]; intros acc pos; simpl; [reflexivity|].
  specialize (IH (acc ++ [Plain (py_slice txt pos (start e));
                          Tagged (tag_id e) (text e)]) (end_ e)).
  destruct (fold_left (tag_step txt) es _) as [result last_pos].
  rewrite IH, <- app_assoc. reflexivity.
Qed.

Lemma tag_text_segments txt es :
  Forall (span_in txt) es ->
  StronglySorted (fun a b => end_ a <= start b) es ->
  tag_text txt es = join (map render (segments_from txt 0 es)).
Proof.
  intros Hin Hs.
  destruct (chain_round_trip Hin Hs) as [-> _]. do 2 f_equal.
  unfold tag_segments.
  rewrite py_sorted_id.
  - pose proof (tag_loop_segments txt es [] 0) as H.
    destruct (fold_left (tag_step txt) es ([], 0)) as [result last_pos].
    exact H.
  - apply chain_start_sorted; [|exact Hs].
    eapply Forall_impl; [|exact Hin]. intros e He. apply He.
Qed.

Lemma span_in_chained txt es :
  Forall (span_in txt) es ->
  StronglySorted (fun a b => end_ a <= start b) es ->
  chained txt 0 es.
Proof.
  intros Hin Hs. apply chain_chained; [exact Hin|exact Hs|lia|].
  eapply Forall_impl; [|exact Hin]. intros e (Hok & _). unfold span_ok in Hok. lia.
Qed.

(** The paragraph element of the overlay of a chain of spans. *)
Lemma set_paragraph_content_chain txt es :
  lacks LT txt = true ->
  Forall (span_in txt) es ->
  StronglySorted (fun a b => end_ a <= start b) es ->
  Forall (fun e => safe_id (tag_id e) = true) es ->
  _set_paragraph_content (tag_text txt es)
  = Some (tail_to txt 0 es, children_from txt es).
Proof.
  intros Htxt Hin Hs Hsafe.
  rewrite (tag_text_segments Hin Hs).
  unfold _set_paragraph_content, parse_parts.
  pose proof (@parse_segments txt Htxt es 0 [] []
                (S (List.length (join (map render (segments_from txt 0 es)))))
                (span_in_chained Hin Hs) Hsafe) as H.
  cbn [app] in H. change (len []) with 0 in H.
  rewrite H.
  - now rewrite build_content_segments.
  - clear. generalize 0. induction es as [|e es IH]; intros pos.
    + simpl. lia.
    + cbn [segments_from map join List.concat]. unfold join in IH.
      rewrite !length_app. specialize (IH (end_ e)).
      simpl in *. lia.
Qed.

(** The tag identifiers of the entity classes fit between the quotation
    marks of the opening marker. *)
Lemma class_safe e : class_ok e -> safe_id (tag_id e) = true.
Proof.
  unfold class_ok, ENTITY_CLASSES. simpl.
  intros H. repeat (destruct H as [H|H]; [inversion H; reflexivity|]).
  contradiction.
Qed.

Lemma accepted_spans txt :
  Forall (span_in txt) (accepted txt)
  /\ StronglySorted (fun a b => end_ a <= start b) (accepted txt)
  /\ Forall (fun e => safe_id (tag_id e) = true) (accepted txt).
Proof.
  pose proof (regex_candidates_span_in txt) as Hin.
  pose proof (regex_candidates_class txt) as Hcl.
  rewrite Forall_forall in Hin, Hcl. unfold accepted.
  split; [|split].
  - apply Forall_forall. intros e He. now apply Hin, remove_overlaps_incl.
  - apply remove_overlaps_is_chain, regex_candidates_span_ok.
  - apply Forall_forall. intros e He.
    now apply class_safe, Hcl, remove_overlaps_incl.
Qed.

(** ** The output tree *)

Lemma paragraph_elem_skipped para :
  markup_free para ->
  paragraph_elem para (p_text para) = expected_elem true para.
Proof.
  intros Hfree. unfold paragraph_elem, expected_elem.
  pose proof (@set_paragraph_content_chain (p_text para) [] Hfree
                (Forall_nil _) (SSorted_nil _) (Forall_nil _)) as H.
  cbn [tag_text tail_to children_from] in H.
  rewrite H, py_slice_from_0. reflexivity.
Qed.

Lemma paragraph_elem_tagged para :
  markup_free para ->
  paragraph_elem para (tag_text (p_text para) (accepted (p_text para)))
  = expected_elem false para.
Proof.
  intros Hfree. unfold paragraph_elem, expected_elem.
  destruct (accepted_spans (p_text para)) as (Hin & Hs & Hsafe).
  now rewrite (set_paragraph_content_chain Hfree Hin Hs Hsafe).
Qed.

Lemma counted_mode self txt : hybrid_mode (counted self txt) = hybrid_mode self.
Proof. destruct self as [u n s]. reflexivity. Qed.

Lemma tag_paragraph_fallback self txt :
  hybrid_mode self = false ->
  tag_paragraph self txt = Ok (tag_text txt (accepted txt), counted self txt).
Proof.
  intros Hmode. unfold tag_paragraph. rewrite extract_entities_eq.
  unfold ner_candidates. now rewrite Hmode.
Qed.

Lemma section_paragraphs_fallback skip : forall paras self,
  hybrid_mode self = false -> Forall markup_free paras ->
  exists self',
    section_paragraphs self skip paras
    = Ok (map (expected_elem skip) paras, self')
    /\ hybrid_mode self' = false.
Proof.
  induction paras as [|para paras IH]; intros self Hmode Hfree.
  - exists self. now split.
  - inversion Hfree as [|? ? Hp Hfree']; subst.
    cbn [section_paragraphs map]. destruct skip.
    + destruct (IH self Hmode Hfree') as (self' & E & Hmode').
      exists self'. split; [|exact Hmode'].
      unfold bind. cbv beta iota. rewrite E.
      now rewrite paragraph_elem_skipped.
    + destruct (IH (counted self (p_text para))) as (self' & E & Hmode');
        [now rewrite counted_mode|exact Hfree'|].
      exists self'. split; [|exact Hmode'].
      rewrite tag_paragraph_fallback by exact Hmode.
      unfold bind. cbv beta iota. rewrite E.
      now rewrite paragraph_elem_tagged.
Qed.

Lemma output_sections_fallback : forall subsections self,
  hybrid_mode self = false ->
  Forall (fun s => Forall markup_free (paragraphs s)) subsections ->
  exists self',
    output_sections self subsections
    = Ok (map expected_section subsections, self')
    /\ hybrid_mode self' = false.
Proof.
  induction subsections as [|s subsections IH]; intros self Hmode Hfree.
  - exists self. now split.
  - inversion Hfree as [|? ? Hs Hfree']; subst.
    destruct (@section_paragraphs_fallback (skipped s) (paragraphs s) self
                Hmode Hs) as (self1 & E1 & Hmode1).
    destruct (IH self1 Hmode1 Hfree') as (self' & E & Hmode').
    exists self'. split; [|exact Hmode'].
    cbn [output_sections map]. fold (skipped s).
    unfold bind. cbv beta iota. rewrite E1. cbv beta iota. rewrite E.
    reflexivity.
Qed.

Lemma detect_subsections_covers paras :
  List.concat (map paragraphs (detect_subsections paras)) = paras.
Proof.
  rewrite detect_subsections_state.
  apply (subsection_loop paras ([], None)).
Qed.

Lemma expected_elem_key skip para :
  markup_free para -> elem_key (expected_elem skip para) = para_key para.
Proof.
  intros Hfree. unfold elem_key, para_key, expected_elem, paragraph_stream.
  destruct skip; cbn [pe_block_index pe_text pe_children]; f_equal.
  - unfold elem_stream. simpl. apply app_nil_r.
  - destruct (accepted_spans (p_text para)) as (Hin & Hs & _).
    rewrite (children_stream (span_in_chained Hin Hs)).
    apply py_slice_from_0.
Qed.

Lemma expected_sections_keys : forall subsections,
  Forall (fun s => Forall markup_free (paragraphs s)) subsections ->
  map elem_key (flat_map se_paragraphs (map expected_section subsections))
  = map para_key (List.concat (map paragraphs subsections)).
Proof.
  induction subsections as [|s subsections IH]; intros Hfree; [reflexivity|].
  inversion Hfree as [|? ? Hs Hfree']; subst.
  cbn [map flat_map List.concat expected_section se_paragraphs].
  rewrite !map_app, (IH Hfree'). f_equal.
  rewrite map_map. apply map_ext_in. intros p Hp.
  apply expected_elem_key. rewrite Forall_forall in Hs. now apply Hs.
Qed.

Lemma subsections_markup_free paras :
  Forall markup_free paras ->
  Forall (fun s => Forall markup_free (paragraphs s))
    (detect_subsections paras).
Proof.
  intros Hfree. pose proof (detect_subsections_covers paras) as Hc.
  rewrite Forall_forall in *. intros s Hs.
  apply Forall_forall. intros p Hp. apply Hfree. rewrite <- Hc.
  apply in_concat. exists (paragraphs s). split; [|exact Hp].
  now apply in_map.
Qed.

(** ** The parts loop on any string *)

Lemma find_from_range sub : forall suffix i,
  find_from sub suffix i = -1
  \/ (i <= find_from sub suffix i
      /\ find_from sub suffix i + len sub <= i + len suffix).
Proof.
  induction suffix as [|c suffix IH]; intros i.
  - simpl. destruct (startswith sub []) eqn:E; [|now left].
    right. apply startswith_length in E. unfold len. simpl in *. lia.
  - cbn [find_from]. destruct (startswith sub (c :: suffix)) eqn:E.
    + right. apply startswith_length in E. unfold len. simpl in *. lia.
    + destruct (IH (i + 1)) as [H|[H1 H2]]; [now left|right].
      unfold len in *. simpl List.length. lia.
Qed.

Lemma find_range t sub start_ :
  0 <= start_ ->
  find t sub start_ = -1
  \/ (start_ <= find t sub start_ /\ find t sub start_ + len sub <= len t).
Proof.
  intros H0. unfold find.
  destruct (len t <? start_) eqn:E; [now left|].
  apply Z.ltb_ge in E. unfold clamp_index.
  destruct (start_ <? 0) eqn:E0; [apply Z.ltb_lt in E0; lia|].
  rewrite Z.min_l by lia.
  destruct (find_from_range sub (skipn (Z.to_nat start_) t) start_)
    as [H|[H1 H2]]; [now left|right].
  split; [exact H1|]. unfold len in *. rewrite length_skipn in H2. lia.
Qed.

(** The loop ends: a round that goes on moves the position forward by the
    length of the closing marker at least. *)
Lemma parse_loop_total t : forall fuel parts pos,
  0 <= pos -> (1 <= fuel)%nat -> len t - pos < Z.of_nat fuel ->
  exists parts', parse_loop t fuel parts pos = Some parts'.
Proof.
  induction fuel as [|fuel IH]; intros parts pos Hpos H1 Hfuel; [lia|].
  rewrite parse_loop_S. cbv zeta.
  destruct (Z.eqb_spec (find t TAG_OPEN pos) (-1)) as [|Hs]; [eauto|].
  destruct (find_range t TAG_OPEN Hpos) as [|[Hs1 _]]; [contradiction|].
  set (tag_start := find t TAG_OPEN pos) in *.
  destruct (Z.eqb_spec (find t (str ">") tag_start) (-1)) as [|Ho]; [eauto|].
  destruct (@find_range t (str ">") tag_start) as [|[Ho1 _]];
    [lia|contradiction|].
  set (tag_open_end := find t (str ">") tag_start) in *.
  destruct (Z.eqb_spec (find t TAG_CLOSE tag_open_end) (-1)) as [|Hc];
    [eauto|].
  destruct (@find_range t TAG_CLOSE tag_open_end) as [|[Hc1 Hc2]];
    [lia|contradiction|].
  change (len TAG_CLOSE) with 6 in Hc2.
  apply IH; lia.
Qed.

Lemma no_text_pair_tag parts id content : forall prev,
  no_text_pair_after prev (parts ++ [TagPart id content])
  = no_text_pair_after prev parts.
Proof.
  induction parts as [|[s|i c] parts IH]; intros prev; simpl;
    [reflexivity|now rewrite IH|apply IH].
Qed.

Lemma no_text_pair_text parts s : forall prev,
  no_text_pair_after prev (parts ++ [TextPart s])
  = no_text_pair_after prev parts && negb (last_is_text prev parts).
Proof.
  unfold last_is_text.
  induction parts as [|[s'|i c] parts IH]; intros prev; simpl.
  - now rewrite Bool.andb_true_r.
  - now rewrite IH, Bool.andb_assoc.
  - apply IH.
Qed.

Lemma last_is_text_snoc parts p prev :
  last_is_text prev (parts ++ [p]) = is_text p.
Proof. unfold last_is_text. now rewrite fold_left_app. Qed.

(** In the parts of the loop no text part follows a text part. *)
Lemma parse_loop_no_text_pair t : forall fuel parts pos parts',
  no_text_pair_after false parts = true ->
  last_is_text false parts = false ->
  parse_loop t fuel parts pos = Some parts' ->
  no_text_pair_after false parts' = true.
Proof.
  induction fuel as [|fuel IH]; intros parts pos parts' Hp Hl;
    [discriminate|].
  rewrite parse_loop_S. cbv zeta.
  assert (Htext : forall s,
    no_text_pair_after false (parts ++ [TextPart s]) = true)
    by (intros s; now rewrite no_text_pair_text, Hp, Hl).
  destruct (find t TAG_OPEN pos =? -1).
  { intros H. inversion H; subst. destruct (pos <? len t); auto. }
  set (parts1 := if find t TAG_OPEN pos >? pos then _ else parts).
  assert (H1 : no_text_pair_after false parts1 = true)
    by (unfold parts1; destruct (find t TAG_OPEN pos >? pos); auto).
  destruct (_ =? -1); [intros H; inversion H; now subst|].
  destruct (_ =? -1); [intros H; inversion H; now subst|].
  apply IH.
  - now rewrite no_text_pair_tag.
  - apply last_is_text_snoc.
Qed.

Lemma set_last_tail_nonempty children s :
  children <> [] -> set_last_tail children s <> [].
Proof.
  destruct children as [|c [|c' children]]; simpl; congruence.
Qed.

Lemma build_never_stray : forall parts prev st,
  no_text_pair_after prev parts = true ->
  (prev = false -> snd st <> []) ->
  (prev = true -> forall s rest, parts <> TextPart s :: rest) ->
  meets_stray_text parts st = false.
Proof.
  induction parts as [|p parts IH]; intros prev [elem_text children] Hn Hc Hf;
    [reflexivity|].
  cbn [meets_stray_text]. destruct p as [s|id content].
  - destruct prev; [now contradiction (Hf eq_refl s parts)|].
    simpl in Hn. cbn [snd] in Hc. specialize (Hc eq_refl).
    destruct children as [|c children]; [contradiction|].
    cbn [stray_text snd orb build_step].
    apply (IH true); [exact Hn|discriminate|].
    intros _ s' rest ->. simpl in Hn. discriminate.
  - cbn [stray_text orb build_step]. simpl in Hn.
    apply (IH false); [exact Hn| |discriminate].
    intros _. cbn [snd]. now destruct children.
Qed.

Lemma no_text_pair_weaken parts :
  no_text_pair_after false parts = true ->
  forall prev, prev = true -> (forall s rest, parts <> TextPart s :: rest) ->
  no_text_pair_after prev parts = true.
Proof.
  intros H prev -> Hf. destruct parts as [|[s|id c] parts]; simpl in *; auto.
  now contradiction (Hf s parts).
Qed.

Lemma content_never_stray parts :
  no_text_pair_after false parts = true ->
  content_meets_stray_text parts = false.
Proof.
  intros H. destruct parts as [|[s|id content] parts]; [reflexivity| |].
  - cbn [content_meets_stray_text]. simpl in H.
    apply (@build_never_stray parts true); [exact H|discriminate|].
    intros _ s' rest ->. simpl in H. discriminate.
  - cbn [content_meets_stray_text meets_stray_text stray_text orb build_step].
    simpl in H.
    apply (@build_never_stray parts false); [exact H| |discriminate].
    intros _. discriminate.
Qed.

(* ================================================================== *)
(** * Further properties: the output tree (xml_handler.py) *)
(* ================================================================== *)

(** X13.  [_set_paragraph_content] undoes [tag_text].  For a paragraph text
    without the opening angle bracket and a chain of its spans whose tag
    identifiers hold neither a quotation mark nor a closing angle bracket,
    the paragraph element built from the tagged string has one sub-element
    per span, in order, with the tag identifier of the span as [id] and
    the text of the span as text, and the text stream of the element (its
    text, then text and tail of each sub-element) is the paragraph text. *)
Theorem set_paragraph_content_round_trip (txt : pystr) (spans : list Entity) :
  lacks LT txt = true ->
  Forall (span_in txt) spans ->
  StronglySorted (fun a b => end_ a <= start b) spans ->
  Forall (fun e => safe_id (tag_id e) = true) spans ->
  exists elem_text children,
    _set_paragraph_content (tag_text txt spans) = Some (elem_text, children)
    /\ elem_stream (elem_text, children) = txt
    /\ map elem_label children = map span_label spans.
Proof.
  intros Htxt Hin Hs Hsafe.
  exists (tail_to txt 0 spans), (children_from txt spans).
  split; [now apply set_paragraph_content_chain|]. split.
  - rewrite (children_stream (span_in_chained Hin Hs)).
    apply py_slice_from_0.
  - apply children_labels.
Qed.

Lemma set_paragraph_content_round_trip_witness :
  exists elem_text children,
    _set_paragraph_content (tag_text txt_C1 spans_C1)
    = Some (elem_text, children)
    /\ elem_stream (elem_text, children) = txt_C1
    /\ map elem_label children = map span_label spans_C1.
Proof.
  apply set_paragraph_content_round_trip.
  - vm_compute. reflexivity.
  - unfold spans_C1.
    constructor; [|constructor; [|constructor]];
      (split; [unfold span_ok; simpl; lia|]);
      (split; [unfold len; simpl; lia|reflexivity]).
  - unfold spans_C1.
    constructor; [constructor; [constructor|constructor]|].
    constructor; [simpl; lia|constructor].
  - unfold spans_C1.
    constructor; [reflexivity|constructor; [reflexivity|constructor]].
Defined.

(** X14.  The loop of [_set_paragraph_content] ends on every string, within
    [len + 1] rounds, and no text part follows a text part in the parts it
    collects; so the loop over the parts never takes its last branch, the
    one for a text part that no sub-element precedes. *)
Theorem set_paragraph_content_total (tagged_text : pystr) :
  exists parts,
    parse_parts tagged_text = Some parts
    /\ _set_paragraph_content tagged_text
       = Some (build_content tagged_text parts)
    /\ no_text_pair_after false parts = true
    /\ content_meets_stray_text parts = false.
Proof.
  unfold _set_paragraph_content, parse_parts.
  destruct (@parse_loop_total tagged_text (S (List.length tagged_text)) [] 0)
    as [parts E]; [lia|lia|unfold len; lia|].
  exists parts. rewrite E.
  assert (H : no_text_pair_after false parts = true)
    by (eapply parse_loop_no_text_pair; [| |exact E]; reflexivity).
  repeat split; [exact H|now apply content_never_stray].
Qed.

(** X15. The output tree in fallback mode. For paragraphs without the opening
    angle bracket, [generate_output_xml] returns a tree and never raises:
    under the root of the note there is one section per subsection of
    [detect_subsections], with its tag identifier, in order; the paragraph
    elements of the tree, read in document order, have the block indices and
    the texts (as text streams) of the input paragraphs, none lost, none
    added; a paragraph of a subsection with [skip_tagging] has no sub-element,
    any other has its accepted spans as sub-elements. The tagger stays in
    fallback mode. *)
Theorem generate_output_xml_fallback (self : FinancialNoteTagger)
    (paras : list Paragraph) :
  get_extraction_mode self = FALLBACK_MODE ->
  Forall markup_free paras ->
  exists tree self',
    generate_output_xml self paras = Ok (tree, self')
    /\ get_extraction_mode self' = FALLBACK_MODE
    /\ root_id tree = TAG_IDS.note_root
    /\ note_sections tree = map expected_section (detect_subsections paras)
    /\ map se_id (note_sections tree)
       = map s_tag_id (detect_subsections paras)
    /\ map elem_key (tree_paragraphs tree) = map para_key paras.
Proof.
  intros Hmode Hfree. apply get_extraction_mode_fallback in Hmode.
  pose proof (subsections_markup_free Hfree) as Hsub.
  destruct (@output_sections_fallback (detect_subsections paras) self
              Hmode Hsub) as (self' & E & Hmode').
  exists (mkOutputTree TAG_IDS.note_root
            (map expected_section (detect_subsections paras))), self'.
  split; [|split; [|split; [|split; [|split]]]].
  - unfold generate_output_xml, bind. cbv zeta. now rewrite E.
  - now apply get_extraction_mode_fallback.
  - reflexivity.
  - reflexivity.
  - cbn [note_sections]. rewrite map_map. reflexivity.
  - unfold tree_paragraphs. cbn [note_sections].
    rewrite (expected_sections_keys Hsub).
    now rewrite detect_subsections_covers.
Qed.

Lemma generate_output_xml_fallback_witness :
  exists tree self',
    generate_output_xml (regex_only_tagger (mkStats 0 0 0)) note_quick
    = Ok (tree, self')
    /\ get_extraction_mode self' = FALLBACK_MODE
    /\ root_id tree = TAG_IDS.note_root
    /\ note_sections tree
       = map expected_section (detect_subsections note_quick)
    /\ map se_id (note_sections tree)
       = map s_tag_id (detect_subsections note_quick)
    /\ map elem_key (tree_paragraphs tree) = map para_key note_quick.
Proof.
  apply generate_output_xml_fallback.
  - reflexivity.
  - repeat constructor.
Defined.

(* ================================================================== *)
(** * Further properties: construction and the provider *)
(* ================================================================== *)

Lemma ner_init_available env model_name use_ner_ :
  NER.is_available (FinancialNER_init env model_name use_ner_)
  = use_ner_ && SPACY_AVAILABLE env && is_some (spacy_load env model_name).
Proof.
  unfold FinancialNER_init.
  destruct use_ner_, (SPACY_AVAILABLE env); simpl; try reflexivity.
  destruct (spacy_load env model_name); reflexivity.
Qed.

(** X16.  Construction.  A tagger built by [__init__] while no provider exists
    yet starts with all counters at zero, and it is in hybrid mode exactly
    when it was asked to use the provider, spaCy could be imported and the
    model [en_core_web_sm] could be loaded; in every other case it is in
    fallback mode.  The provider is made once: whatever [get_ner] returned
    first is what every later call returns, whatever has become of spaCy
    in between. *)
Theorem tagger_init_mode (env : SpacyEnv) (use_ner_ : bool) :
  let self := fst (FinancialNoteTagger_init env use_ner_ None) in
  stats self = mkStats 0 0 0
  /\ (get_extraction_mode self = HYBRID_MODE
      <-> use_ner_ = true /\ SPACY_AVAILABLE env = true
          /\ is_some (spacy_load env (str "en_core_web_sm")) = true)
  /\ (get_extraction_mode self = FALLBACK_MODE
      <-> ~ (use_ner_ = true /\ SPACY_AVAILABLE env = true
             /\ is_some (spacy_load env (str "en_core_web_sm")) = true))
  /\ (forall env' _ner_instance,
        get_ner env' (snd (get_ner env _ner_instance))
        = get_ner env _ner_instance).
Proof.
  cbv zeta.
  assert (Hh : hybrid_mode (fst (FinancialNoteTagger_init env use_ner_ None))
               = use_ner_ && SPACY_AVAILABLE env
                 && is_some (spacy_load env (str "en_core_web_sm"))).
  { unfold FinancialNoteTagger_init, get_ner.
    destruct use_ner_; [|reflexivity].
    unfold hybrid_mode. cbn [fst use_ner ner andb].
    apply ner_init_available. }
  split; [|split; [|split]].
  - unfold FinancialNoteTagger_init, get_ner. now destruct use_ner_.
  - rewrite get_extraction_mode_hybrid, Hh, !Bool.andb_true_iff. tauto.
  - rewrite get_extraction_mode_fallback, Hh.
    rewrite <- Bool.not_true_iff_false, !Bool.andb_true_iff. tauto.
  - intros env' [instance|]; reflexivity.
Qed.

Lemma select_in_missing_attr values entities :
  select_by_attr_in "label_" values entities
  = match entities with
    | [] => Ok []
    | _ :: _ => Raise label_error
    end.
Proof. destruct entities; reflexivity. Qed.

(** X17.  [extract_locations] reads the attribute [label_], which [NEREntity]
    does not have: it returns the empty list when the provider reports no
    entity and raises [AttributeError] as soon as there is one, whatever
    its label.  A provider that is not available reports no entity, so
    with it [extract_locations] and [extract_organizations] both return
    the empty list. *)
Theorem extract_locations_raises (provider : FinancialNER) (txt : pystr) :
  extract_locations provider txt
  = match NER.extract_entities provider txt with
    | [] => Ok []
    | _ :: _ => Raise label_error
    end
  /\ (NER.is_available provider = false ->
      NER.extract_entities provider txt = []
      /\ extract_locations provider txt = Ok []
      /\ NER.extract_organizations provider txt = Ok []).
Proof.
  split; [apply select_in_missing_attr|].
  intros Hn.
  assert (E : NER.extract_entities provider txt = []).
  { unfold NER.is_available in Hn. unfold NER.extract_entities.
    destruct (ner_use_ner provider); [|reflexivity].
    destruct (nlp provider); [discriminate|reflexivity]. }
  split; [exact E|].
  unfold extract_locations, NER.extract_organizations. now rewrite E.
Qed.

(* ================================================================== *)
(** * Further properties: the dictionary extractor *)
(* ================================================================== *)

Lemma lang_lit_ci s : forall w, lang (lit true s) w -> lower w = lower s.
Proof.
  induction s as [|c s IH]; intros w H; simpl in H.
  - inversion H. reflexivity.
  - inversion H as [| |? ? w1 w2 H1 H2| | | | | | |]; subst.
    inversion H1 as [|? x Hx| | | | | | | |]; subst.
    apply Ascii.eqb_eq in Hx. simpl. rewrite Hx. f_equal. now apply IH.
Qed.

Lemma concept_keys_lower : map lower concept_keys = concept_keys.
Proof. reflexivity. Qed.

Lemma concept_match txt concept s e :
  In concept (map fst FINANCIAL_CONCEPTS) ->
  matches txt (concept_pattern concept) s e ->
  In (lower (substr txt s e)) concept_keys
  /\ at_boundary txt s = true /\ at_boundary txt e = true.
Proof.
  intros Hin H. unfold concept_pattern, seqs in H. cbn [fold_right] in H.
  inversion H as [| |? ? ? j ? H1 H2| | | | | | |]; subst.
  inversion H1; subst.
  inversion H2 as [| |? ? ? k ? H3 H4| | | | | | |]; subst.
  inversion H4 as [| |? ? ? k' ? H5 H6| | | | | | |]; subst.
  inversion H5; subst. inversion H6; subst.
  split; [|split; assumption].
  apply matches_lang, lang_lit_ci in H3. rewrite H3.
  rewrite <- concept_keys_lower. unfold concept_keys.
  rewrite map_map. apply in_map_iff in Hin as ([k v] & <- & Hkv).
  apply in_map_iff. exists (k, v). split; [reflexivity|exact Hkv].
Qed.

(** X18. The spans of the dictionary extractor, for texts over the code points
    0..255 (the texts of this embedding): each is a whole-word occurrence of a
    phrase of [FINANCIAL_CONCEPTS] in the text, in any case (its text in lower
    case is the phrase, and a word boundary stands at its start and at its
    end), with the tag identifier and the priority of the financial concepts.
    The restriction matters: under [re.IGNORECASE] Python also matches U+017F
    against the letter s, U+0130 and U+0131 against i and U+212A against k, so
    that a text with such a character can give a span whose lower-case form is
    no phrase of the dictionary. *)
Theorem financial_concepts_sound (self : FinancialNoteTagger) (txt : pystr) :
  Forall (fun e =>
            concept_occurrence txt e
            /\ tag_id e = TAG_IDS.financial_concept
            /\ priority e = ENTITY_PRIORITIES.Financial_Concept_Placeholder)
    (fst (_extract_financial_concepts self txt)).
Proof.
  unfold _extract_financial_concepts. cbn [fst].
  apply Forall_forall. intros x Hx.
  apply in_flat_map in Hx as ([concept v] & Hc & Hx).
  apply in_map_iff in Hx as ([[s e] g] & <- & Hmo).
  pose proof (re_finditer_sound txt (concept_pattern concept)) as Hall.
  rewrite Forall_forall in Hall. specialize (Hall _ Hmo). cbv beta iota in Hall.
  assert (Hin : In concept (map fst FINANCIAL_CONCEPTS))
    by (apply in_map_iff; exists (concept, v); now split).
  destruct (concept_match Hin Hall) as (Hk & Hb1 & Hb2).
  unfold concept_occurrence, entity_of_match, entity_of.
  cbn [text start end_ tag_id priority]. rewrite !Nat2Z.id.
  repeat split; assumption.
Qed.

(* ================================================================== *)
(** * Further properties: the regex extractor of company names *)
(* ================================================================== *)

Lemma company_start_match txt s e g :
  re_match txt COMPANY_START_PATTERN = Some (s, e, g) ->
  s = 0%nat /\ group_span g 1 = Some (0%nat, e)
  /\ exists name, name <> [] /\ substr txt 0 e = name ++ str "Ltd.".
Proof.
  intros H.
  change (m txt
            (seqs [Chr AZ; Plus (class [az; AZ]); Plus space;
                   Lit false "Ltd."]) 0 []
            (fun j g' => Some (0%nat, j, (1%nat, (0%nat, j)) :: g'))
          = Some (s, e, g)) in H.
  apply m_sound in H as (j & g' & Hm & H).
  inversion H; subst. clear H.
  split; [reflexivity|]. split; [reflexivity|].
  apply matches_lang in Hm. revert Hm. generalize (substr txt 0 e).
  intros w Hm.
  inversion Hm as [| |? ? w1 r1 H1 H2| | | | | | |]; subst.
  inversion H1 as [|? c Hc| | | | | | | |]; subst.
  inversion H2 as [| |? ? w2 r2 H3 H4| | | | | | |]; subst.
  inversion H4 as [| |? ? w3 r3 H5 H6| | | | | | |]; subst.
  inversion H6 as [| |? ? w4 r4 H7 H8| | | | | | |]; subst.
  inversion H8; subst.
  apply lang_lit in H7. subst.
  exists ([c] ++ w2 ++ w3). split; [discriminate|].
  now rewrite app_nil_r, <- !app_assoc.
Qed.

(** X19.  The regex extractor of company names sees a name only at the very
    start of the paragraph: it returns at most one span, and that span
    starts at offset 0, is a prefix of the paragraph that ends in [Ltd.],
    and has the tag identifier and the priority of the company names. *)
Theorem company_regex_at_start (txt : pystr) (e : Entity) :
  In e (_extract_company_names_regex txt) ->
  _extract_company_names_regex txt = [e]
  /\ start e = 0
  /\ text e = py_slice txt 0 (end_ e)
  /\ (exists name, name <> [] /\ text e = name ++ str "Ltd.")
  /\ tag_id e = TAG_IDS.company_name
  /\ priority e
     = ENTITY_PRIORITIES.NameOfReportingEntityOrOtherMeansOfIdentification.
Proof.
  unfold _extract_company_names_regex.
  destruct (re_match txt COMPANY_START_PATTERN) as [[[s j] g]|] eqn:E;
    [|intros []].
  pose proof E as Hm.
  apply company_start_match in E as (-> & Hg & name & Hne & Hname).
  unfold entity_of_group1. rewrite Hg. intros [<-|[]].
  unfold entity_of. cbn [start end_ text tag_id priority].
  apply match_at_sound in Hm as [_ Hm].
  pose proof (matches_bounds Hm) as [Hle Hlen].
  repeat split.
  - apply (@substr_py_slice txt 0 j); [lia|exact Hlen].
  - exists name. now split.
Qed.

Lemma company_regex_at_start_witness :
  exists e,
    _extract_company_names_regex txt_quick = [e]
    /\ start e = 0
    /\ text e = str "BestCo Ltd.".
Proof.
  assert (H : In (mkEntity 0 11 TAG_IDS.company_name (str "BestCo Ltd.") 80)
                (_extract_company_names_regex txt_quick))
    by (vm_compute; left; reflexivity).
  destruct (company_regex_at_start _ _ H) as (H1 & H2 & _).
  eexists. split; [exact H1|]. split; [exact H2|reflexivity].
Defined.

(* ================================================================== *)
(** * Further properties: the overlay and the order of its spans *)
(* ================================================================== *)

Lemma start_sorted l :
  StronglySorted (in_order Z.ltb start) (py_sorted Z.ltb start l).
Proof.
  apply py_sorted_sorted.
  - intros a b H. apply Z.ltb_lt in H. apply Z.ltb_ge. lia.
  - intros a b c H1 H2. apply Z.ltb_ge in H1, H2. apply Z.ltb_ge. lia.
Qed.

(** X20. [tag_text] sorts the spans by start itself: the tagged string does
    not depend on the order in which the spans are handed over, as long as no
    two of them start at the same offset. *)
Theorem tag_text_order_independent (txt : pystr) (spans spans' : list Entity) :
  Permutation spans spans' ->
  (forall a b, In a spans -> In b spans -> start a = start b -> a = b) ->
  tag_text txt spans = tag_text txt spans'.
Proof.
  intros Hp Hkey.
  assert (Hs : py_sorted Z.ltb start spans = py_sorted Z.ltb start spans').
  { apply sorted_perm_unique with (R := in_order Z.ltb start).
    - transitivity spans; [apply Permutation_sym, py_sorted_Permutation|].
      transitivity spans'; [exact Hp|apply py_sorted_Permutation].
    - apply start_sorted.
    - apply start_sorted.
    - intros a b Ha Hb Hab Hba. unfold in_order in Hab, Hba.
      apply Z.ltb_ge in Hab, Hba.
      apply Hkey; try (now apply py_sorted_In in Ha);
        try (now apply py_sorted_In in Hb).
      lia. }
  destruct spans as [|e spans].
  - apply Permutation_nil in Hp. now subst.
  - destruct spans' as [|e' spans'].
    + apply Permutation_sym, Permutation_nil in Hp. discriminate.
    + unfold tag_text, tag_segments. now rewrite Hs.
Qed.

Lemma tag_text_order_independent_witness :
  tag_text txt_C1 spans_C1 = tag_text txt_C1 (rev spans_C1).
Proof.
  apply tag_text_order_independent.
  - apply Permutation_rev.
  - intros a b Ha Hb Hk. simpl in Ha, Hb.
    repeat (destruct Ha as [Ha|Ha]; [subst a|]); try contradiction;
      repeat (destruct Hb as [Hb|Hb]; [subst b|]); try contradiction;
      try reflexivity; vm_compute in Hk; discriminate.
Defined.

(* ================================================================== *)
(** * Further properties: what the date and symbol extractors tag *)
(* ================================================================== *)

(** ** Words of the pattern combinators *)

Lemma lang_seq_inv r1 r2 w :
  lang (Seq r1 r2) w -> exists w1 w2, w = w1 ++ w2 /\ lang r1 w1 /\ lang r2 w2.
Proof.
  intros H. inversion H as [| |? ? w1 w2 H1 H2| | | | | | |]; subst.
  now exists w1, w2.
Qed.

Lemma lang_eps_inv w : lang Eps w -> w = [].
Proof. intros H. now inversion H. Qed.

Lemma lang_group_inv n r w : lang (Group n r) w -> lang r w.
Proof. intros H. now inversion H. Qed.

Lemma lang_alts rs : forall r w,
  lang (alts r rs) w -> exists r', In r' (r :: rs) /\ lang r' w.
Proof.
  induction rs as [|r' rs IH]; intros r w H; simpl in H.
  - exists r. split; [now left|exact H].
  - inversion H as [| | |? ? ? H1|? ? ? H1| | | | |]; subst.
    + exists r. split; [now left|exact H1].
    + apply IH in H1 as (r'' & Hin & Hl). exists r''.
      split; [now right|exact Hl].
Qed.

Lemma lang_star_chr p greedy w :
  lang (Star greedy (Chr p)) w -> forallb p w = true.
Proof.
  intros H. remember (Star greedy (Chr p)) as r eqn:Er.
  induction H as [| | | | | |g r' w1 w2 H1 _ H2 IH2| | |];
    try discriminate; [reflexivity|].
  inversion Er; subst. inversion H1 as [|? c Hc| | | | | | | |]; subst.
  simpl. now rewrite Hc, IH2.
Qed.

Lemma lang_plus_chr p w :
  lang (Plus (Chr p)) w -> w <> [] /\ forallb p w = true.
Proof.
  unfold Plus. intros H.
  apply lang_seq_inv in H as (w1 & w2 & -> & H1 & H2).
  inversion H1 as [|? c Hc| | | | | | | |]; subst.
  apply lang_star_chr in H2. split; [discriminate|].
  simpl. now rewrite Hc, H2.
Qed.

Lemma lang_plus_space w : lang (Plus space) w -> blank w.
Proof. apply lang_plus_chr. Qed.

Lemma lang_Times_chr p n : forall w,
  lang (Times n (Chr p)) w -> List.length w = n /\ forallb p w = true.
Proof.
  induction n as [|n IH]; intros w H; simpl in H.
  - apply lang_eps_inv in H. subst. now split.
  - apply lang_seq_inv in H as (w1 & w2 & -> & H1 & H2).
    inversion H1 as [|? c Hc| | | | | | | |]; subst.
    destruct (IH _ H2) as [Hlen Hall]. split; simpl; [now rewrite Hlen|].
    now rewrite Hc, Hall.
Qed.

Lemma lang_UpTo_chr p n : forall w,
  lang (UpTo n (Chr p)) w ->
  (List.length w <= n)%nat /\ forallb p w = true.
Proof.
  induction n as [|n IH]; intros w H; simpl in H.
  - apply lang_eps_inv in H. subst. split; [simpl; lia|reflexivity].
  - inversion H as [| | |? ? ? H1|? ? ? H1| | | | |]; subst.
    + apply lang_seq_inv in H1 as (w1 & w2 & -> & H1 & H2).
      inversion H1 as [|? c Hc| | | | | | | |]; subst.
      destruct (IH _ H2) as [Hlen Hall]. split; simpl; [lia|].
      now rewrite Hc, Hall.
    + apply lang_eps_inv in H1. subst. split; [simpl; lia|reflexivity].
Qed.

Lemma lang_Rep_chr p lo hi w :
  lang (Rep lo hi (Chr p)) w ->
  (lo <= List.length w <= lo + (hi - lo))%nat /\ forallb p w = true.
Proof.
  unfold Rep. intros H.
  apply lang_seq_inv in H as (w1 & w2 & -> & H1 & H2).
  apply lang_Times_chr in H1 as [Hlen1 Hall1].
  apply lang_UpTo_chr in H2 as [Hlen2 Hall2].
  rewrite length_app, forallb_app, Hall1, Hall2. split; [lia|reflexivity].
Qed.

Lemma lang_digits n w : lang (Rep n n digit) w -> Spec.digits n w.
Proof.
  intros H. apply lang_Rep_chr in H as [Hlen Hall].
  split; [lia|exact Hall].
Qed.

Lemma lang_months ci w : lang (Patterns.months ci) w -> month_in ci w.
Proof.
  unfold Patterns.months. intros H. apply lang_alts in H as (r & Hin & H).
  change (In r (map (Lit ci) MONTH_NAMES)) in Hin.
  apply in_map_iff in Hin as (name & <- & Hin).
  unfold month_in, Lit in *. destruct ci.
  - apply lang_lit_ci in H. rewrite H.
    apply in_map_iff. now exists name.
  - apply lang_lit in H. subst. now apply in_map.
Qed.

Lemma lower_char_comma c : lower_char c = ","%char -> c = ","%char.
Proof.
  destruct c as [[] [] [] [] [] [] [] []]; vm_compute; intros H;
    try reflexivity; discriminate.
Qed.

Lemma lang_comma ci w : lang (Lit ci ",") w -> w = str ",".
Proof.
  unfold Lit. destruct ci; [|apply lang_lit].
  intros H. apply lang_lit_ci in H.
  destruct w as [|c [|c' w]]; try discriminate.
  simpl in H. inversion H as [Hc]. apply lower_char_comma in Hc. now subst.
Qed.

(** The words of the date core, shared by the first date pattern and the
    group of the incorporation pattern. *)
Lemma lang_full_date ci month_pattern w :
  (forall w', lang month_pattern w' -> month_in ci w') ->
  lang (Seq month_pattern
          (Seq (Plus space)
             (Seq (Rep 1 2 digit)
                (Seq (Lit ci ",")
                   (Seq (Plus space) (Seq (Rep 4 4 digit) Eps)))))) w ->
  full_date_literal ci w.
Proof.
  intros Hmonth H.
  apply lang_seq_inv in H as (month & w1 & -> & Hm & H).
  apply lang_seq_inv in H as (ws1 & w2 & -> & Hs1 & H).
  apply lang_seq_inv in H as (day & w3 & -> & Hd & H).
  apply lang_seq_inv in H as (comma & w4 & -> & Hc & H).
  apply lang_seq_inv in H as (ws2 & w5 & -> & Hs2 & H).
  apply lang_seq_inv in H as (year & w6 & -> & Hy & H).
  apply lang_eps_inv in H. subst.
  apply lang_comma in Hc. subst.
  apply lang_Rep in Hd. destruct Hd as [Hdl Hda].
  apply lang_plus_space in Hs1, Hs2. apply lang_digits in Hy.
  exists month, ws1, day, ws2, year. rewrite app_nil_r.
  split; [reflexivity|]. split; [now apply Hmonth|].
  split; [exact Hs1|]. split; [simpl in Hdl; lia|].
  split; [exact Hda|]. split; [exact Hs2|exact Hy].
Qed.

(** ** The spine of a pattern, step by step *)

Section Spine.
Variable t : pystr.
Context {R : Type}.

Lemma m_seq r1 r2 i g (k : @cont R) :
m t (Seq r1 r2) i g k = m t r1 i g (fun j g' => m t r2 j g' k).
Proof. reflexivity. Qed.

Lemma m_group n r i g (k : @cont R) :
m t (Group n r) i g k = m t r i g (fun j g' => k j ((n, (i, j)) :: g')).
Proof. reflexivity. Qed.

Lemma m_chr p i g (k : @cont R) :
m t (Chr p) i g k
= match nth_error t i with
  | Some c => if p c then k (S i) g else None
  | None => None
  end.
Proof. reflexivity. Qed.

Lemma m_eps i g (k : @cont R) : m t Eps i g k = k i g.
Proof. reflexivity. Qed.
End Spine.

Lemma search_from_match_at t r : forall fuel p mo,
  search_from t r fuel p = Some mo -> exists i, match_at t r i = Some mo.
Proof.
  induction fuel as [|fuel IH]; intros p mo; simpl;
    destruct (match_at t r p) as [mo'|] eqn:E; intros H.
  - inversion H; subst. now exists p.
  - discriminate.
  - inversion H; subst. now exists p.
  - eapply IH; exact H.
Qed.

Lemma re_finditer_match_at t r :
  Forall (fun mo => exists i, match_at t r i = Some mo) (re_finditer t r).
Proof.
  unfold re_finditer. generalize (S (List.length t)) as fuel.
  generalize 0%nat as p. intros p fuel. revert p.
  induction fuel as [|fuel IH]; intros p; simpl; [constructor|].
  destruct (List.length t <? p)%nat; [constructor|].
  destruct (search_from t r (List.length t - p) p) as [[[s e] g]|] eqn:E;
    [|constructor].
  constructor; [|apply IH]. eapply search_from_match_at; exact E.
Qed.

(** ** The date extractor *)

Lemma lang_wordb_inv w : lang WordB w -> w = [].
Proof. intros H. now inversion H. Qed.

Lemma date_full_lang w :
  lang Patterns.DATE_FULL w -> full_date_literal false w.
Proof.
  intros H.
  apply (@lang_full_date false (Group 1 (Patterns.months false)));
    [|exact H].
  intros w' H'. apply lang_group_inv in H'. now apply lang_months.
Qed.

Lemma date_month_year_lang w :
  lang Patterns.DATE_MONTH_YEAR w -> month_year_literal w.
Proof.
  intros H.
  change (lang (Seq (Group 1 (Patterns.months false))
                  (Seq (Plus space) (Seq (Rep 4 4 digit) Eps))) w) in H.
  apply lang_seq_inv in H as (month & w1 & -> & Hm & H).
  apply lang_seq_inv in H as (ws & w2 & -> & Hs & H).
  apply lang_seq_inv in H as (year & w3 & -> & Hy & H).
  apply lang_eps_inv in H. subst.
  apply lang_group_inv, lang_months in Hm.
  apply lang_plus_space in Hs. apply lang_digits in Hy.
  exists month, ws, year. rewrite app_nil_r.
  split; [reflexivity|]. split; [exact Hm|]. split; [exact Hs|exact Hy].
Qed.

Lemma date_year_match t s e :
  matches t Patterns.DATE_YEAR s e ->
  year_literal (substr t s e)
  /\ at_boundary t s = true /\ at_boundary t e = true.
Proof.
  intros H. pose proof (matches_lang H) as Hl.
  change (matches t
            (Seq WordB
               (Seq (Group 1 (Alt (Lit false "19") (Lit false "20")))
                  (Seq (Rep 2 2 digit) (Seq WordB Eps)))) s e) in H.
  change (lang (Seq WordB
                  (Seq (Group 1 (Alt (Lit false "19") (Lit false "20")))
                     (Seq (Rep 2 2 digit) (Seq WordB Eps))))
            (substr t s e)) in Hl.
  split.
  - revert Hl. generalize (substr t s e). intros w Hl.
    apply lang_seq_inv in Hl as (w0 & w1 & -> & H0 & Hl).
    apply lang_seq_inv in Hl as (century & w2 & -> & Hc & Hl).
    apply lang_seq_inv in Hl as (rest & w3 & -> & Hr & Hl).
    apply lang_seq_inv in Hl as (w4 & w5 & -> & H4 & Hl).
    apply lang_wordb_inv in H0, H4. apply lang_eps_inv in Hl. subst.
    apply lang_group_inv in Hc. apply lang_digits in Hr.
    exists century, rest. rewrite !app_nil_r. split; [reflexivity|].
    split; [|exact Hr].
    inversion Hc as [| | |? ? ? H1|? ? ? H1| | | | |]; subst;
      apply lang_lit in H1; auto.
  - inversion H as [| |? ? ? j1 ? H1 H2| | | | | | |]; subst.
    inversion H1; subst.
    inversion H2 as [| |? ? ? j2 ? H3 H4| | | | | | |]; subst.
    inversion H4 as [| |? ? ? j3 ? H5 H6| | | | | | |]; subst.
    inversion H6 as [| |? ? ? j4 ? H7 H8| | | | | | |]; subst.
    inversion H7; subst. inversion H8; subst. now split.
Qed.

(** X21. What [_extract_dates] tags. The text of each of its spans is a month
    name, white space, a day of one or two digits, a comma, white space and a
    year of four digits; or a month name, white space and a year of four
    digits; or [19] or [20] and two more digits standing between two word
    boundaries of the paragraph. Every span has the tag identifier and the
    priority of the dates. *)
Theorem extract_dates_sound (txt : pystr) (e : Entity) :
  In e (_extract_dates txt) ->
  (full_date_literal false (text e)
   \/ month_year_literal (text e)
   \/ (year_literal (text e)
       /\ at_boundary txt (Z.to_nat (start e)) = true
       /\ at_boundary txt (Z.to_nat (end_ e)) = true))
  /\ tag_id e = TAG_IDS.date
  /\ priority e = ENTITY_PRIORITIES.Date_Placeholder.
Proof.
  unfold _extract_dates. intros H.
  apply in_flat_map in H as (pattern & Hp & H).
  apply in_map_iff in H as ([[s j] g] & <- & Hmo).
  pose proof (re_finditer_sound txt pattern) as Hall.
  rewrite Forall_forall in Hall. specialize (Hall _ Hmo).
  cbv beta iota in Hall.
  unfold entity_of_match, entity_of. cbn [text start end_ tag_id priority].
  rewrite !Nat2Z.id. split; [|now split].
  destruct Hp as [<-|[<-|[<-|[]]]].
  - left. now apply date_full_lang, matches_lang.
  - right. left. now apply date_month_year_lang, matches_lang.
  - right. right. now apply date_year_match.
Qed.

Lemma extract_dates_sound_witness :
  full_date_literal false (str "January 24, 2011")
  \/ month_year_literal (str "January 24, 2011")
  \/ (year_literal (str "January 24, 2011")
      /\ at_boundary txt_quick 55 = true
      /\ at_boundary txt_quick 71 = true).
Proof.
  assert (H : In (mkEntity 55 71 TAG_IDS.date (str "January 24, 2011") 50)
                (_extract_dates txt_quick))
    by (vm_compute; left; reflexivity).
  exact (proj1 (extract_dates_sound _ _ H)).
Defined.

(** ** The extractor of trading symbols *)

Lemma matches_chr_inv t p i j :
  matches t (Chr p) i j ->
  j = S i /\ exists c, nth_error t i = Some c /\ p c = true.
Proof.
  intros H. inversion H as [|? ? c Hc Hp| | | | | | | |]; subst.
  split; [reflexivity|]. now exists c.
Qed.

Ltac spine H j g M :=
  rewrite m_seq in H; apply m_sound in H as (j & g & M & H); cbv beta in H.

Lemma trading_symbol_match t i s e g :
  match_at t Patterns.TRADING_SYMBOL_PATTERN i = Some (s, e, g) ->
  exists j a b,
    group_span g 1 = Some (S a, b)
    /\ substr t i j = str "under the symbol" /\ blank (substr t j a)
    /\ nth_error t a = Some dquote /\ nth_error t b = Some dquote
    /\ matches t (Rep 2 5 (Chr AZ)) (S a) b.
Proof.
  unfold match_at. intros H.
  change (m t (Seq (Lit false "under the symbol")
                 (Seq (Plus space)
                    (Seq (class [Ascii.eqb dquote])
                       (Seq (Group 1 (Rep 2 5 (Chr AZ)))
                          (Seq (class [Ascii.eqb dquote]) Eps)))))
            i [] (fun j g' => Some (i, j, g'))
          = Some (s, e, g)) in H.
  spine H j1 g1 M1. spine H j2 g2 M2. spine H j3 g3 M3.
  rewrite m_seq, m_group in H.
  apply m_sound in H as (j4 & g4 & M4 & H). cbv beta in H.
  rewrite m_seq in H. unfold class in H, M3. rewrite m_chr in H.
  destruct (nth_error t j4) as [c|] eqn:E; [|discriminate].
  destruct (existsb (fun p : ascii -> bool => p c) [Ascii.eqb dquote])
    eqn:Ec; [|discriminate].
  rewrite m_eps in H. inversion H; subst. clear H.
  cbn [existsb] in Ec. rewrite Bool.orb_false_r in Ec.
  apply Ascii.eqb_eq in Ec. subst c.
  apply matches_chr_inv in M3 as (-> & c & Hc & Hp).
  cbn [existsb] in Hp. rewrite Bool.orb_false_r in Hp.
  apply Ascii.eqb_eq in Hp. subst c.
  exists j1, j2, j4. split; [reflexivity|].
  split; [now apply lang_lit, (matches_lang M1)|].
  split; [now apply lang_plus_space, (matches_lang M2)|].
  now repeat split.
Qed.

(** X22.  What [_extract_trading_symbols] tags: two to five upper-case letters
    A to Z that stand between two quotation marks, the first of them
    behind the words [under the symbol] and white space.  The span is the
    letters without the quotation marks, with the tag identifier and the
    priority of the trading symbols. *)
Theorem trading_symbols_sound (txt : pystr) (e : Entity) :
  In e (_extract_trading_symbols txt) ->
  (2 <= List.length (text e) <= 5)%nat
  /\ forallb AZ (text e) = true
  /\ (exists i j a,
        start e = Z.of_nat (S a)
        /\ substr txt i j = str "under the symbol"
        /\ blank (substr txt j a)
        /\ nth_error txt a = Some dquote)
  /\ nth_error txt (Z.to_nat (end_ e)) = Some dquote
  /\ tag_id e = TAG_IDS.trading_symbol
  /\ priority e = ENTITY_PRIORITIES.EntityPrimaryTradingSymbol.
Proof.
  unfold _extract_trading_symbols. intros H.
  apply in_flat_map in H as ([[s j] g] & Hmo & H).
  pose proof (re_finditer_match_at txt Patterns.TRADING_SYMBOL_PATTERN)
    as Hall.
  rewrite Forall_forall in Hall. destruct (Hall _ Hmo) as [i Hi].
  apply trading_symbol_match in Hi
    as (j1 & a & b & Hg & Hlit & Hws & Ha & Hb & Hm).
  unfold entity_of_group1 in H. rewrite Hg in H. destruct H as [<-|[]].
  unfold entity_of. cbn [text start end_ tag_id priority].
  rewrite Nat2Z.id.
  apply matches_lang, lang_Rep_chr in Hm as [Hlen Hall'].
  split; [simpl in Hlen; lia|]. split; [exact Hall'|].
  split; [now exists i, j1, a|]. now repeat split.
Qed.

Lemma trading_symbols_sound_witness :
  (2 <= List.length (str "BCL") <= 5)%nat
  /\ forallb AZ (str "BCL") = true.
Proof.
  assert (H : In (mkEntity 35 38 TAG_IDS.trading_symbol (str "BCL") 85)
                (_extract_trading_symbols txt_symbol))
    by (vm_compute; left; reflexivity).
  destruct (trading_symbols_sound _ _ H) as (H1 & H2 & _).
  split; [exact H1|exact H2].
Defined.

(** ** The extractor of the incorporation date *)

Lemma incorporation_match t i s e g :
  match_at t Patterns.INCORPORATION_CONTEXT i = Some (s, e, g) ->
  exists j a,
    (i <= j <= a)%nat
    /\ lower (substr t i j) = str "was incorporated"
    /\ group_span g 1 = Some (a, e)
    /\ full_date_literal true (substr t a e).
Proof.
  unfold match_at. intros H.
  change (m t (Seq (Lit true "was incorporated")
                 (Seq (Star false anychar)
                    (Seq (Lit true "on")
                       (Seq (Plus space)
                          (Seq (Group 1
                                  (Seq (Patterns.months true)
                                     (Seq (Plus space)
                                        (Seq (Rep 1 2 digit)
                                           (Seq (Lit true ",")
                                              (Seq (Plus space)
                                                 (Seq (Rep 4 4 digit)
                                                    Eps)))))))
                             Eps)))))
            i [] (fun j g' => Some (i, j, g'))
          = Some (s, e, g)) in H.
  spine H j1 g1 M1. spine H j2 g2 M2. spine H j3 g3 M3. spine H j4 g4 M4.
  rewrite m_seq, m_group in H.
  apply m_sound in H as (j5 & g5 & M5 & H). cbv beta in H.
  rewrite m_eps in H. inversion H; subst. clear H.
  exists j1, j4.
  pose proof (matches_bounds M1) as [B1 _].
  pose proof (matches_bounds M2) as [B2 _].
  pose proof (matches_bounds M3) as [B3 _].
  pose proof (matches_bounds M4) as [B4 _].
  split; [lia|].
  split; [apply matches_lang, lang_lit_ci in M1; exact M1|].
  split; [reflexivity|].
  apply (@lang_full_date true (Patterns.months true));
    [apply lang_months|exact (matches_lang M5)].
Qed.

(** X23. What [_extract_incorporation_dates] tags, for texts over the code
    points 0..255 (the texts of this embedding): at most one span, a date
    written as month name (in any case), white space, a day of one or two
    digits, a comma, white space and a year of four digits, that stands
    somewhere behind the words [was incorporated] (in any case). The span has
    the tag identifier and the priority of the incorporation date. The
    restriction matters: under [re.IGNORECASE] Python also matches U+017F
    against the letter s, U+0130 and U+0131 against i and U+212A against k, so
    that beyond these code points the words and the month name need not have
    the lower-case form stated here. *)
Theorem incorporation_dates_sound (txt : pystr) (e : Entity) :
  In e (_extract_incorporation_dates txt) ->
  _extract_incorporation_dates txt = [e]
  /\ full_date_literal true (text e)
  /\ (exists i j,
        (i <= j)%nat /\ Z.of_nat j <= start e
        /\ lower (substr txt i j) = str "was incorporated")
  /\ tag_id e = TAG_IDS.incorporation_date
  /\ priority e = ENTITY_PRIORITIES.IncorporationDate.
Proof.
  unfold _extract_incorporation_dates, re_search.
  destruct (search_from txt Patterns.INCORPORATION_CONTEXT
              (List.length txt) 0) as [[[s j] g]|] eqn:E; [|intros []].
  apply search_from_match_at in E as [i Hi].
  apply incorporation_match in Hi as (j1 & a & Hle & Hlit & Hg & Hdate).
  unfold entity_of_group1. rewrite Hg. intros [<-|[]].
  unfold entity_of. cbn [text start end_ tag_id priority].
  split; [reflexivity|]. split; [exact Hdate|].
  split; [|now split]. exists i, j1. repeat split; [lia|lia|exact Hlit].
Qed.

Lemma incorporation_dates_sound_witness :
  _extract_incorporation_dates txt_quick
  = [mkEntity 55 71 TAG_IDS.incorporation_date (str "January 24, 2011") 100]
  /\ full_date_literal true (str "January 24, 2011").
Proof.
  assert (H : In (mkEntity 55 71 TAG_IDS.incorporation_date
                    (str "January 24, 2011") 100)
                (_extract_incorporation_dates txt_quick))
    by (vm_compute; left; reflexivity).
  destruct (incorporation_dates_sound _ _ H) as (H1 & H2 & _).
  split; [exact H1|exact H2].
Defined.

(** ** The address extractor *)

Lemma lang_chr_inv p w : lang (Chr p) w -> exists c, w = [c] /\ p c = true.
Proof. intros H. inversion H as [|? c Hc| | | | | | | |]; subst. eauto. Qed.

Lemma lang_alt_inv r1 r2 w : lang (Alt r1 r2) w -> lang r1 w \/ lang r2 w.
Proof.
  intros H. inversion H as [| | |? ? ? H1|? ? ? H1| | | | |]; subst; auto.
Qed.

Lemma lang_ordinal w :
  lang (Opt (alts (Lit false "st")
               [Lit false "nd"; Lit false "rd"; Lit false "th"])) w ->
  w = [] \/ In w (map str ORDINAL_SUFFIXES).
Proof.
  unfold Opt. intros H. apply lang_alt_inv in H as [H1|H1].
  - right. apply lang_alts in H1 as (r & Hin & H1).
    change (In r (map (Lit false) ORDINAL_SUFFIXES)) in Hin.
    apply in_map_iff in Hin as (name & <- & Hin).
    apply lang_lit in H1. subst. now apply in_map.
  - left. now apply lang_eps_inv.
Qed.

Lemma address_pattern_lang w :
  lang Patterns.ADDRESS_PATTERN w -> address_literal w.
Proof.
  unfold Patterns.ADDRESS_PATTERN, seqs. cbn [fold_right]. intros H.
  apply lang_seq_inv in H as (floor & w1 & -> & Hfloor & H).
  apply lang_seq_inv in H as (ordinal & w2 & -> & Hord & H).
  apply lang_seq_inv in H as (ws1 & w3 & -> & Hws1 & H).
  apply lang_seq_inv in H as (lit1 & w4 & -> & Hlit1 & H).
  apply lang_seq_inv in H as (ws2 & w5 & -> & Hws2 & H).
  apply lang_seq_inv in H as (number & w6 & -> & Hnumber & H).
  apply lang_seq_inv in H as (ws3 & w7 & -> & Hws3 & H).
  apply lang_seq_inv in H as (street & w8 & -> & Hstreet & H).
  apply lang_seq_inv in H as (lit2 & w9 & -> & Hlit2 & H).
  apply lang_seq_inv in H as (ws4 & w10 & -> & Hws4 & H).
  apply lang_seq_inv in H as (city & w11 & -> & Hcity & H).
  apply lang_seq_inv in H as (lit3 & w12 & -> & Hlit3 & H).
  apply lang_seq_inv in H as (ws5 & w13 & -> & Hws5 & H).
  apply lang_seq_inv in H as (a & w14 & -> & Ha & H).
  apply lang_seq_inv in H as (d1 & w15 & -> & Hd1 & H).
  apply lang_seq_inv in H as (b & w16 & -> & Hb & H).
  apply lang_seq_inv in H as (ws6 & w17 & -> & Hws6 & H).
  apply lang_seq_inv in H as (d2 & w18 & -> & Hd2 & H).
  apply lang_seq_inv in H as (c & w19 & -> & Hc & H).
  apply lang_seq_inv in H as (d3 & w20 & -> & Hd3 & H).
  apply lang_eps_inv in H. subst.
  apply lang_lit in Hlit1, Hlit2, Hlit3. subst.
  apply lang_chr_inv in Ha as (a' & -> & Ha).
  apply lang_chr_inv in Hd1 as (d1' & -> & Hd1).
  apply lang_chr_inv in Hb as (b' & -> & Hb).
  apply lang_chr_inv in Hd2 as (d2' & -> & Hd2).
  apply lang_chr_inv in Hc as (c' & -> & Hc).
  apply lang_chr_inv in Hd3 as (d3' & -> & Hd3).
  apply lang_plus_chr in Hfloor, Hnumber, Hstreet, Hcity.
  apply lang_plus_space in Hws1, Hws2, Hws3, Hws4, Hws5, Hws6.
  apply lang_ordinal in Hord.
  exists floor, ordinal, ws1, ws2, number, ws3, street, ws4, city, ws5,
    ([a'; d1'; b'] ++ ws6 ++ [d2'; c'; d3']).
  split; [reflexivity|].
  split; [exact Hfloor|]. split; [exact Hord|].
  split; [exact Hws1|]. split; [exact Hws2|].
  split; [exact Hnumber|]. split; [exact Hws3|].
  split; [exact Hstreet|]. split; [exact Hws4|].
  split; [exact Hcity|]. split; [exact Hws5|].
  exists a', d1', b', ws6, d2', c', d3'.
  split; [reflexivity|]. split; [exact Ha|]. split; [exact Hd1|].
  split; [exact Hb|]. split; [exact Hws6|]. split; [exact Hd2|].
  split; [exact Hc|exact Hd3].
Qed.

(** X24.  What [_extract_addresses] tags: a floor number with an optional
    ordinal suffix, [Floor,], a street number, a street name of letters
    and white space, [Street,], city and region of letters, white space
    and commas, a comma, and a postal code of the form letter digit
    letter, white space, digit letter digit; the parts stand apart by
    white space.  The span has the tag identifier and the priority of the
    addresses. *)
Theorem extract_addresses_sound (txt : pystr) (e : Entity) :
  In e (_extract_addresses txt) ->
  address_literal (text e)
  /\ tag_id e = TAG_IDS.address
  /\ priority e = ENTITY_PRIORITIES.AddressOfRegisteredOfficeOfEntity.
Proof.
  unfold _extract_addresses. intros H.
  apply in_map_iff in H as ([[s j] g] & <- & Hmo).
  pose proof (re_finditer_sound txt Patterns.ADDRESS_PATTERN) as Hall.
  rewrite Forall_forall in Hall. specialize (Hall _ Hmo).
  cbv beta iota in Hall.
  unfold entity_of_match, entity_of. cbn [text tag_id priority].
  split; [|now split]. now apply address_pattern_lang, matches_lang.
Qed.

Lemma extract_addresses_sound_witness :
  address_literal (text address_C4).
Proof.
  assert (H : In address_C4 (_extract_addresses txt_C4))
    by (vm_compute; left; reflexivity).
  exact (proj1 (extract_addresses_sound _ _ H)).
Defined.
